(** * mbed-cli: the dependency-tree engine of [mbed/mbed.py]

    A shallow embedding of the locator grammars, the reference-file
    persistence, the program configuration store, the backend queries and
    the tree algorithms of [mbed.py], together with the properties the
    specification states about them.

    Python byte strings are lists of characters; [L "..."] writes a
    literal.  The regular expressions of the module are values of a small
    regex type whose matcher enumerates matches in the priority order of a
    backtracking engine, so that [re.match] is the first of them. *)

From stdpp Require Import base list strings gmap.
From Stdlib Require Import Ascii ZArith Lia.

Local Open Scope char_scope.
Local Open Scope list_scope.

(** ** Byte strings *)

Abbreviation str := (list ascii).

Definition L (s : string) : str := String.list_ascii_of_string s.

Definition nl : ascii := "010".

Definition in_range (lo hi a : ascii) : bool :=
  (nat_of_ascii lo <=? nat_of_ascii a)%nat && (nat_of_ascii a <=? nat_of_ascii hi)%nat.

(** [string.whitespace] of Python 2: space, tab, LF, VT, FF, CR. *)
Definition is_space (a : ascii) : bool :=
  Ascii.eqb a " " || in_range "009" "013" a.

Fixpoint lstrip (p : ascii -> bool) (s : str) : str :=
  match s with
  | a :: s' => if p a then lstrip p s' else s
  | [] => []
  end.

Definition rstrip (p : ascii -> bool) (s : str) : str :=
  rev (lstrip p (rev s)).

(** [s.strip()] *)
Definition strip (s : str) : str := rstrip is_space (lstrip is_space s).

(** [s.replace('\\', '/')] *)
Definition unbackslash (s : str) : str :=
  map (fun a => if Ascii.eqb a "\" then "/" else a) s.

Fixpoint startswith (pre s : str) : bool :=
  match pre, s with
  | [], _ => true
  | a :: pre', b :: s' => Ascii.eqb a b && startswith pre' s'
  | _ :: _, [] => false
  end.

(** ** Regular expressions

    The fragment of Python's [re] syntax that [mbed.py] uses: every
    quantifier other than [?] is applied to a single character class. *)
Module Re.

Inductive regex : Type :=
| Emp                                   (* the empty pattern *)
| Cls (p : ascii -> bool)               (* one character of a class *)
| Lit (l : str)                         (* a literal string *)
| Cat (r1 r2 : regex)                   (* r1 r2 *)
| Alt (r1 r2 : regex)                   (* r1|r2 *)
| Rep (greedy : bool) (lo : nat) (hi : option nat) (p : ascii -> bool)
                                        (* [p]{lo,hi}, greedy or lazy *)
| Opt (r : regex)                       (* r?  (greedy) *)
| Grp (n : nat) (r : regex)             (* capturing group number n *)
| Bol                                   (* ^ *)
| Eol.                                  (* $ *)

Definition caps := list (option str).

(** Candidate continuations of a class repetition, as the remaining input,
    in the order a backtracking matcher tries them. *)
Definition may_take (hi : option nat) : bool :=
  match hi with Some 0 => false | _ => true end.

Definition stop_here (lo : nat) (s : str) : list str :=
  match lo with 0 => [s] | S _ => [] end.

Fixpoint rep_greedy (p : ascii -> bool) (lo : nat) (hi : option nat) (s : str)
  : list str :=
  match s with
  | a :: s' =>
      if p a && may_take hi
      then rep_greedy p (pred lo) (pred <$> hi) s' ++ stop_here lo s
      else stop_here lo s
  | [] => stop_here lo s
  end.

Fixpoint rep_lazy (p : ascii -> bool) (lo : nat) (hi : option nat) (s : str)
  : list str :=
  match s with
  | a :: s' =>
      if p a && may_take hi
      then stop_here lo s ++ rep_lazy p (pred lo) (pred <$> hi) s'
      else stop_here lo s
  | [] => stop_here lo s
  end.

(** [ms n0 r s c]: all the ways [r] matches a prefix of [s], each as the
    remaining input and the captures, first choice first.  [n0] is the
    length of the whole subject (for [^]). *)
Fixpoint ms (n0 : nat) (r : regex) (s : str) (c : caps) : list (str * caps) :=
  match r with
  | Emp => [(s, c)]
  | Cls p =>
      match s with
      | a :: s' => if p a then [(s', c)] else []
      | [] => []
      end
  | Lit l => if startswith l s then [(drop (length l) s, c)] else []
  | Cat r1 r2 => flat_map (fun x => ms n0 r2 (fst x) (snd x)) (ms n0 r1 s c)
  | Alt r1 r2 => ms n0 r1 s c ++ ms n0 r2 s c
  | Rep g lo hi p =>
      map (fun s' => (s', c)) ((if g then rep_greedy else rep_lazy) p lo hi s)
  | Opt r => ms n0 r s c ++ [(s, c)]
  | Grp n r =>
      map (fun x => (fst x, <[n := Some (take (length s - length (fst x)) s)]> (snd x)))
          (ms n0 r s c)
  | Bol => if (length s =? n0)%nat then [(s, c)] else []
  | Eol =>
      match s with
      | [] => [(s, c)]
      | [a] => if Ascii.eqb a nl then [(s, c)] else []
      | _ => []
      end
  end.

(** The match a backtracking engine finds first. *)
Definition first (n0 : nat) (r : regex) (s : str) (c : caps) : option (str * caps) :=
  head (ms n0 r s c).

(** [re.match(r, s)] for a pattern with [n] groups. *)
Definition rmatch (n : nat) (r : regex) (s : str) : option caps :=
  head (snd <$> ms (length s) r s (replicate (S n) None)).

(** [m.group(i)], [None] for a group that did not take part. *)
Definition group (c : caps) (i : nat) : option str :=
  match c !! i with Some g => g | None => None end.

Definition matches (n : nat) (r : regex) (s : str) : bool :=
  match rmatch n r s with Some _ => true | None => false end.

(** Right-nested concatenation of a list of patterns. *)
Fixpoint seq (rs : list regex) : regex :=
  match rs with
  | [] => Emp
  | [r] => r
  | r :: rs' => Cat r (seq rs')
  end.

Definition chr (a : ascii) : ascii -> bool := Ascii.eqb a.

(** [.] without DOTALL: anything but a newline. *)
Definition dot (a : ascii) : bool := negb (Ascii.eqb a nl).

(** [\w] on byte strings without LOCALE or UNICODE. *)
Definition word (a : ascii) : bool :=
  in_range "a" "z" a || in_range "A" "Z" a || in_range "0" "9" a || Ascii.eqb a "_".

(** The matches of a pattern, told without their order: [matched n0 r s c
    s' c'] when [r] matches the prefix of [s] that leaves [s'] and turns
    the captures [c] into [c']. *)
Definition within (hi : option nat) (n : nat) : Prop :=
  match hi with Some h => (n <= h)%nat | None => True end.

Fixpoint matched (n0 : nat) (r : regex) (s : str) (c : caps) (s' : str) (c' : caps)
  : Prop :=
  match r with
  | Emp => s' = s /\ c' = c
  | Cls p => exists a, s = a :: s' /\ p a = true /\ c' = c
  | Lit l => s = l ++ s' /\ c' = c
  | Cat r1 r2 => exists s1 c1, matched n0 r1 s c s1 c1 /\ matched n0 r2 s1 c1 s' c'
  | Alt r1 r2 => matched n0 r1 s c s' c' \/ matched n0 r2 s c s' c'
  | Rep g lo hi p =>
      c' = c /\ exists w, s = w ++ s' /\ forallb p w = true
                          /\ (lo <= length w)%nat /\ within hi (length w)
  | Opt r => matched n0 r s c s' c' \/ (s' = s /\ c' = c)
  | Grp n r =>
      exists c1 w, matched n0 r s c s' c1 /\ s = w ++ s' /\ c' = <[n := Some w]> c1
  | Bol => length s = n0 /\ s' = s /\ c' = c
  | Eol => (s = [] \/ s = [nl]) /\ s' = s /\ c' = c
  end.

(** [x] is what a repetition of the class [p] may leave of [s]. *)
Definition takes (p : ascii -> bool) (lo : nat) (hi : option nat) (s x : str) : Prop :=
  exists w, s = w ++ x /\ forallb p w = true /\ (lo <= length w)%nat /\ within hi (length w).

(** Where a repetition of the class [p] must stop. *)
Definition stops (p : ascii -> bool) (s : str) : Prop :=
  match s with [] => True | a :: _ => p a = false end.

Definition star := Rep true 0 None.
Definition plus := Rep true 1 None.
Definition lazy_star := Rep false 0 None.
Definition lazy_plus := Rep false 1 None.

End Re.

Import Re.

(** ** The locator grammars (mbed.py lines 72-85) *)

(** [[\w.+-]] *)
Definition cls_local_head (a : ascii) : bool :=
  word a || chr "." a || chr "+" a || chr "-" a.
(** [[\w./+-]] *)
Definition cls_local_tail (a : ascii) : bool :=
  word a || chr "." a || chr "/" a || chr "+" a || chr "-" a.
(** [[\w+-]] *)
Definition cls_name (a : ascii) : bool :=
  word a || chr "+" a || chr "-" a.
(** [[^/:]] *)
Definition cls_host (a : ascii) : bool :=
  negb (chr "/" a || chr ":" a).
(** [[:/]] *)
Definition cls_sep (a : ascii) : bool :=
  chr ":" a || chr "/" a.
(** [[^/]] *)
Definition cls_noslash (a : ascii) : bool :=
  negb (chr "/" a).
(** [[\w\-\.]] *)
Definition cls_mbed_host (a : ascii) : bool :=
  word a || chr "-" a || chr "." a.
(** [[\w\-]] *)
Definition cls_mbed_name (a : ascii) : bool :=
  word a || chr "-" a.

(** r"^([\w.+-][\w./+-]*?)/?(?:#(.* ))?$" *)
Definition regex_local_ref : regex :=
  seq [ Bol;
        Grp 1 (Cat (Cls cls_local_head) (lazy_star cls_local_tail));
        Opt (Cls (chr "/"));
        Opt (Cat (Lit (L "#")) (Grp 2 (star dot)));
        Eol ].

(** r"^(.*/([\w+-]+)(?:\.\w+)?)/?(?:#(.* ))?$" *)
Definition regex_url_ref : regex :=
  seq [ Bol;
        Grp 1 (seq [ star dot; Lit (L "/"); Grp 2 (plus cls_name);
                     Opt (Cat (Lit (L ".")) (plus word)) ]);
        Opt (Cls (chr "/"));
        Opt (Cat (Lit (L "#")) (Grp 3 (star dot)));
        Eol ].

(** r"^(git@|git\://|ssh\://|https?\://)([^/:]+)[:/](.+?)(\.git|\/?)$" *)
Definition regex_git_url : regex :=
  seq [ Bol;
        Grp 1 (Alt (Lit (L "git@"))
              (Alt (Lit (L "git://"))
              (Alt (Lit (L "ssh://"))
                   (seq [ Lit (L "http"); Opt (Cls (chr "s")); Lit (L "://") ]))));
        Grp 2 (plus cls_host);
        Cls cls_sep;
        Grp 3 (lazy_plus dot);
        Grp 4 (Alt (Lit (L ".git")) (Opt (Cls (chr "/"))));
        Eol ].

(** r"^(file|ssh|https?)://([^/:]+)/([^/]+)/?([^/]+?)?$" *)
Definition regex_hg_url : regex :=
  seq [ Bol;
        Grp 1 (Alt (Lit (L "file"))
              (Alt (Lit (L "ssh"))
                   (Cat (Lit (L "http")) (Opt (Cls (chr "s"))))));
        Lit (L "://");
        Grp 2 (plus cls_host);
        Lit (L "/");
        Grp 3 (plus cls_noslash);
        Opt (Cls (chr "/"));
        Opt (Grp 4 (lazy_plus cls_noslash));
        Eol ].

(** r"^(https?)://([\w\-\.]*mbed\.(co\.uk|org|com))/(users|teams)/([\w\-]{1,32})/(repos|code)/([\w\-]+)/?$" *)
Definition regex_mbed_url : regex :=
  seq [ Bol;
        Grp 1 (Cat (Lit (L "http")) (Opt (Cls (chr "s"))));
        Lit (L "://");
        Grp 2 (seq [ star cls_mbed_host; Lit (L "mbed.");
                     Grp 3 (Alt (Lit (L "co.uk")) (Alt (Lit (L "org")) (Lit (L "com")))) ]);
        Lit (L "/");
        Grp 4 (Alt (Lit (L "users")) (Lit (L "teams")));
        Lit (L "/");
        Grp 5 (Rep true 1 (Some 32) cls_mbed_name);
        Lit (L "/");
        Grp 6 (Alt (Lit (L "repos")) (Lit (L "code")));
        Lit (L "/");
        Grp 7 (plus cls_mbed_name);
        Opt (Cls (chr "/"));
        Eol ].

Definition m_local (s : str) : option caps := rmatch 2 regex_local_ref s.
Definition m_url_ref (s : str) : option caps := rmatch 3 regex_url_ref s.
Definition m_git (s : str) : option caps := rmatch 4 regex_git_url s.
Definition m_hg (s : str) : option caps := rmatch 4 regex_hg_url s.
Definition m_mbed (s : str) : option caps := rmatch 7 regex_mbed_url s.

(** [m.group(i)] in a ["%s"] format: an unmatched group prints as [None]. *)
Definition gfmt (c : caps) (i : nat) : str :=
  match group c i with Some g => g | None => L "None" end.

(** ** Canonicalization (mbed.py lines 878-904) *)

Inductive protocol := Pssh | Phttp | Phttps | Pdefault.

Definition formaturl (url : str) (format : protocol) : str :=
  match m_mbed url with
  | Some m =>
      match format with
      | Phttp =>
          L "http://" ++ gfmt m 2 ++ L "/" ++ gfmt m 4 ++ L "/" ++ gfmt m 5
            ++ L "/" ++ gfmt m 6 ++ L "/" ++ gfmt m 7
      | _ =>
          L "https://" ++ gfmt m 2 ++ L "/" ++ gfmt m 4 ++ L "/" ++ gfmt m 5
            ++ L "/" ++ gfmt m 6 ++ L "/" ++ gfmt m 7
      end
  | None =>
      match m_git url with
      | Some m =>
          match format with
          | Pssh => L "ssh://" ++ gfmt m 2 ++ L "/" ++ gfmt m 3 ++ L ".git"
          | Phttp => L "http://" ++ gfmt m 2 ++ L "/" ++ gfmt m 3
          | _ => L "https://" ++ gfmt m 2 ++ L "/" ++ gfmt m 3
          end
      | None =>
          match m_hg url with
          | Some m =>
              match format with
              | Pssh => L "ssh://" ++ gfmt m 2 ++ L "/" ++ gfmt m 3
              | Phttp => L "http://" ++ gfmt m 2 ++ L "/" ++ gfmt m 3
              | _ => L "https://" ++ gfmt m 2 ++ L "/" ++ gfmt m 3
              end
          | None => url
          end
      end
  end.

(** ** URL ownership tests of the two backends (lines 213-218, 397-402) *)

Definition is_some {A} (o : option A) : bool :=
  match o with Some _ => true | None => false end.

Definition Hg_isurl (url : str) : bool :=
  match m_url_ref (unbackslash (strip url)) with
  | Some m_url => is_some (m_hg (gfmt m_url 1)) || is_some (m_mbed (gfmt m_url 1))
  | None => false
  end.

Definition Git_isurl (url : str) : bool :=
  match m_url_ref (unbackslash (strip url)) with
  | Some m_url => is_some (m_git (gfmt m_url 1)) && negb (is_some (m_mbed (gfmt m_url 1)))
  | None => false
  end.


(** ** Failures

    [error(msg, code)] prints the message and ends the process with
    [sys.exit(code)]; a subprocess that exits non-zero raises
    [ProcessException(returncode)]. *)
Inductive exn : Type :=
| ProcessException (returncode : Z)
| SystemExit (code : Z) (msg : str)
| TypeError
| AttributeError.

Inductive res (A : Type) : Type :=
| Ok (a : A)
| Exn (e : exn).
Arguments Ok {A} a.
Arguments Exn {A} e.

Definition bind {A B} (x : res A) (f : A -> res B) : res B :=
  match x with Ok a => f a | Exn e => Exn e end.

Declare Scope res_scope.
Delimit Scope res_scope with res.
Notation "x <- e ;; k" := (bind e (fun x => k))
  (at level 100, e at next level, right associativity) : res_scope.
Notation "e ;;; k" := (bind e (fun _ => k))
  (at level 100, right associativity) : res_scope.

Definition error {A} (msg : str) (code : Z) : res A := Exn (SystemExit code msg).

Definition dq : ascii := "034".
Definition quoted (s : str) : str := dq :: s ++ [dq].

(** Truth value of a Python string or of [None]. *)
Definition truthy (s : option str) : bool :=
  match s with Some (_ :: _) => true | _ => false end.

(** [a or b] on an optional string. *)
Definition por (a : option str) (b : str) : str :=
  match a with Some ((_ :: _) as x) => x | _ => b end.

(** ** Paths

    [os.path] on POSIX strings. *)
Fixpoint basename_aux (acc s : str) : str :=
  match s with
  | [] => acc
  | a :: s' => if Ascii.eqb a "/" then basename_aux [] s' else basename_aux (acc ++ [a]) s'
  end.
Definition basename (p : str) : str := basename_aux [] p.

Definition isabs (p : str) : bool := startswith (L "/") p.

Definition join (a b : str) : str :=
  if isabs b then b
  else match rev a with
       | [] => b
       | c :: _ => if Ascii.eqb c "/" then a ++ b else a ++ L "/" ++ b
       end.

Definition str_eqb (a b : str) : bool := bool_decide (a = b).

Definition opt_str_eqb (a b : option str) : bool := bool_decide (a = b).

(** [s.split(d)] *)
Fixpoint split_on (d : ascii) (cur s : str) : list str :=
  match s with
  | [] => [cur]
  | a :: s' => if Ascii.eqb a d then cur :: split_on d [] s' else split_on d (cur ++ [a]) s'
  end.

(** [d.join(comps)] *)
Fixpoint join_with (d : ascii) (comps : list str) : str :=
  match comps with
  | [] => []
  | [c] => c
  | c :: cs => c ++ d :: join_with d cs
  end.

(** One turn of the loop of [os.path.normpath] over the components of the
    path: empty components and [.] are dropped, [..] takes the component
    before it away unless there is none to take. *)
Definition normpath_step (initial_slashes : nat) (new_comps : list str) (comp : str)
  : list str :=
  if str_eqb comp [] || str_eqb comp (L ".") then new_comps
  else if negb (str_eqb comp (L ".."))
          || ((initial_slashes =? 0)%nat && bool_decide (new_comps = []))
          || (negb (bool_decide (new_comps = []))
              && opt_str_eqb (last new_comps) (Some (L "..")))
       then new_comps ++ [comp]
       else removelast new_comps.

(** [os.path.normpath(p)] *)
Definition normpath (p : str) : str :=
  match p with
  | [] => L "."
  | _ =>
      let initial_slashes :=
        if startswith (L "/") p
        then (if startswith (L "//") p && negb (startswith (L "///") p) then 2 else 1)
        else 0 in
      let comps := fold_left (normpath_step initial_slashes) (split_on "/" [] p) [] in
      match replicate initial_slashes "/"%char ++ join_with "/" comps with
      | [] => L "."
      | q => q
      end
  end.

(** [os.path.abspath(p)] in the working directory [cwd]: a relative path
    is joined to the working directory, and the result is normalised. *)
Definition abspath (cwd p : str) : str :=
  normpath (if isabs p then p else join cwd p).

(** [relpath(root, path)] of mbed.py: [path[len(root)+1:]]. *)
Definition relpath (root p : str) : str := drop (length root + 1) p.

(** ** The repository object (class Repo) *)

Inductive scm_name := hg | git.

Record Repo : Type := mkRepo {
  name : str;
  path : str;
  url : option str;
  hash : option str;
  is_local : bool;
  scm : option scm_name
}.

(** [Repo.lib] *)
Definition lib (self : Repo) : str := path self ++ L ".lib".

(** [Repo.fullurl]; [None] when the repository has no url. *)
Definition fullurl (self : Repo) : option str :=
  if truthy (url self)
  then Some (rstrip (chr "/") (por (url self) []) ++ L "/"
             ++ (if truthy (hash self) then L "#" ++ por (hash self) [] else []))
  else None.

(** [Repo.fromurl(url, path)], run in the directory [cwd]. *)
Definition fromurl (cwd : str) (url0 : str) (path0 : option str) : res Repo :=
  let u := unbackslash (strip url0) in
  match m_local u with
  | Some m =>
      Ok {| name := basename (por path0 (gfmt m 1));
            path := abspath cwd (por path0 (join cwd (gfmt m 1)));
            url := group m 1;
            hash := group m 2;
            is_local := true;
            scm := None |}
  | None =>
      match m_url_ref u with
      | Some m =>
          let nm := basename (por path0 (gfmt m 2)) in
          Ok {| name := nm;
                path := abspath cwd (por path0 (join cwd nm));
                url := Some (formaturl (gfmt m 1) Pdefault);
                hash := group m 3;
                is_local := false;
                scm := None |}
      | None =>
          error (L "Invalid repository (" ++ strip url0 ++ L ")") (-1)
      end
  end.

(** ["%s" % x] for an optional string. *)
Definition pct_s (x : option str) : str :=
  match x with Some s => s | None => L "None" end.

(** The test of [Repo.write] that the stored reference is up to date:
    same url in https form, and same hash or a stored hash that is a
    prefix of the current one. *)
Definition same_reference (lib_repo self : Repo) : bool :=
  str_eqb (formaturl (pct_s (url lib_repo)) Phttps) (formaturl (pct_s (url self)) Phttps)
  && (opt_str_eqb (hash lib_repo) (hash self)
      || (truthy (hash lib_repo) && truthy (hash self)
          && str_eqb (por (hash lib_repo) [])
                     (take (length (por (hash lib_repo) [])) (por (hash self) [])))).

(** [Repo.write()]: the reference file of [self] before the call ([None]
    when it does not exist) to the file after the call and the outcome. *)
Definition write (cwd : str) (self : Repo) (file : option str) : option str * res unit :=
  let rewrite :=
    match fullurl self with
    | Some f => (Some (f ++ [nl]), Ok tt)
    | None => (Some [], Exn TypeError)          (* opened for writing, then None + '\n' *)
    end in
  match file with
  | Some content =>
      match fromurl cwd (strip content) None with
      | Ok lib_repo => if same_reference lib_repo self then (file, Ok tt) else rewrite
      | Exn e => (file, Exn e)
      end
  | None => rewrite
  end.

(** ** The program configuration store (class Program) *)

Definition cr : ascii := "013".

(** [s.splitlines()] on a byte string: lines end at LF, CR or CR LF. *)
Fixpoint splitlines_aux (cur : str) (s : str) : list str :=
  match s with
  | [] => match cur with [] => [] | _ => [cur] end
  | a :: s' =>
      if Ascii.eqb a nl then cur :: splitlines_aux [] s'
      else if Ascii.eqb a cr then
        match s' with
        | b :: s'' => if Ascii.eqb b nl then cur :: splitlines_aux [] s''
                      else cur :: splitlines_aux [] s'
        | [] => [cur]
        end
      else splitlines_aux (cur ++ [a]) s'
  end.
Definition splitlines (s : str) : list str := splitlines_aux [] s.

(** ['\n'.join(lines)] *)
Fixpoint join_lines (lines : list str) : str :=
  match lines with
  | [] => []
  | [l] => l
  | l :: ls => l ++ nl :: join_lines ls
  end.

(** r"^([\w+-]+)\=(.* )?$" *)
Definition regex_cfg : regex :=
  seq [ Bol; Grp 1 (plus cls_name); Lit (L "="); Opt (Grp 2 (star dot)); Eol ].

Definition m_cfg (line : str) : option caps := rmatch 2 regex_cfg line.

(** [m and m.group(1) == var] *)
Definition cfg_key_is (var line : str) : bool :=
  match m_cfg line with
  | Some m => opt_str_eqb (group m 1) (Some var)
  | None => false
  end.

(** [lines.remove(x)]: the first occurrence goes. *)
Fixpoint list_remove_first (x : str) (lines : list str) : list str :=
  match lines with
  | [] => []
  | y :: ys => if str_eqb x y then ys else y :: list_remove_first x ys
  end.

(** The loop [for line in lines: ... lines.remove(line)] of [set_cfg].  The
    list iterator holds an index into the list that the body mutates: step
    [i] reads [lines[i]] of the current list and stops when [i] is past its
    end. *)
Fixpoint set_cfg_loop (fuel : nat) (var : str) (i : nat) (lines : list str) : list str :=
  match fuel with
  | 0 => lines
  | S fuel' =>
      match lines !! i with
      | None => lines
      | Some line =>
          set_cfg_loop fuel' var (S i)
            (if cfg_key_is var line then list_remove_first line lines else lines)
      end
  end.

(** [Program.set_cfg(var, val)]: the config file before ([None] when it
    cannot be read) to its content after. *)
Definition set_cfg (var val : str) (file : option str) : str :=
  let lines := match file with Some content => splitlines content | None => [] end in
  let lines := set_cfg_loop (length lines) var 0 lines in
  let lines := lines ++ [var ++ L "=" ++ val] in
  join_lines lines ++ [nl].

Fixpoint get_cfg_loop (var : str) (lines : list str) : option str :=
  match lines with
  | [] => None
  | line :: rest =>
      match m_cfg line with
      | Some m => if opt_str_eqb (group m 1) (Some var) then group m 2
                  else get_cfg_loop var rest
      | None => get_cfg_loop var rest
      end
  end.

(** [Program.get_cfg(var)] with the default [None]. *)
Definition get_cfg (var : str) (file : option str) : option str :=
  get_cfg_loop var (match file with Some content => splitlines content | None => [] end).

(** ** Subprocesses (lines 129-165)

    A [runner] gives, for a command line, the exit status and the standard
    output of the subprocess that runs it in the current directory. *)
Record proc : Type := mkProc { returncode : Z; stdout : str }.

Definition runner := list str -> proc.

(** [pquery(command)]: the output, or [ProcessException(returncode)]. *)
Definition pquery (run : runner) (command : list str) : res str :=
  let p := run command in
  if (returncode p =? 0)%Z then Ok (stdout p) else Exn (ProcessException (returncode p)).

Definition hg_cmd : str := L "hg".
Definition git_cmd : str := L "git".

(** ** The two backends (classes Hg and Git) *)

Definition Hg_dirty (run : runner) : res str :=
  pquery run [hg_cmd; L "status"; L "-q"].

Definition Git_dirty (run : runner) : res str :=
  pquery run [git_cmd; L "diff"; L "--name-only"; L "HEAD"].

(** [Hg.outgoing] (lines 276-283) *)
Definition Hg_outgoing (run : runner) : res bool :=
  match pquery run [hg_cmd; L "outgoing"] with
  | Ok _ => Ok true
  | Exn (ProcessException e0) =>
      if negb (e0 =? 1)%Z then Exn (ProcessException e0) else Ok false
  | Exn e => Exn e
  end.

(** [Git.outgoing] (lines 469-475) *)
Definition Git_outgoing (run : runner) : res bool :=
  match pquery run [git_cmd; L "log"; L "origin.."] with
  | Ok out => Ok (truthy (Some out))
  | Exn (ProcessException e0) =>
      if negb (e0 =? 1)%Z then Exn (ProcessException e0) else Ok true
  | Exn e => Exn e
  end.

(** [Hg.isdetached] (lines 285-286) *)
Definition Hg_isdetached (run : runner) : res bool := Ok false.

(** [Git.isdetached] (lines 477-479) *)
Definition Git_isdetached (run : runner) : res bool :=
  match pquery run [git_cmd; L "rev-parse"; L "--symbolic-full-name"; L "--abbrev-ref"; L "HEAD"] with
  | Ok out => Ok (str_eqb (strip out) (L "HEAD"))
  | Exn e => Exn e
  end.

(** The capability set of a backend, as far as the engine below uses it. *)
Record Scm : Type := mkScm {
  scm_label : str;
  isurl : str -> bool;
  dirty : runner -> res str;
  outgoing : runner -> res bool;
  isdetached : runner -> res bool;
  exclude_file : str                     (* relative to the repository *)
}.

Definition Hg : Scm :=
  {| scm_label := L "hg"; isurl := Hg_isurl; dirty := Hg_dirty;
     outgoing := Hg_outgoing; isdetached := Hg_isdetached;
     exclude_file := L ".hg/hgignore" |}.

Definition Git : Scm :=
  {| scm_label := L "git"; isurl := Git_isurl; dirty := Git_dirty;
     outgoing := Git_outgoing; isdetached := Git_isdetached;
     exclude_file := L ".git/info/exclude" |}.

(** The registry [scms]. *)
Definition scms (n : scm_name) : Scm :=
  match n with hg => Hg | git => Git end.

(** [self.scm.<method>]: an attribute of [None] cannot be read. *)
Definition the_scm (self : Repo) : res Scm :=
  match scm self with Some n => Ok (scms n) | None => Exn AttributeError end.

(** ** The safety gate, [Repo.can_update] (lines 724-740) *)

Definition msg_local_library (self : Repo) : str :=
  L "Preserving local library " ++ quoted (name self) ++ L " in " ++ quoted (path self)
  ++ L "." ++ [nl]
  ++ L "Please publish this library to a remote URL to be able to restore it at any time."
  ++ L "You can use --ignore switch to ignore all local libraries and update only the published ones."
  ++ [nl]
  ++ L "You can also use --force switch to remove all local libraries. WARNING: This action cannot be undone.".

Definition msg_uncommitted (self : Repo) : str :=
  L "Uncommitted changes in " ++ quoted (name self) ++ L " in " ++ quoted (path self)
  ++ L "." ++ [nl]
  ++ L "Please discard or stash them first and then retry update." ++ [nl]
  ++ L "You can also use --clean switch to discard all uncommitted changes. WARNING: This action cannot be undone.".

Definition msg_unpublished (self : Repo) : str :=
  L "Unpublished changes in " ++ quoted (name self) ++ L " in " ++ quoted (path self)
  ++ L "." ++ [nl]
  ++ L "Please publish them first using the " ++ quoted (L "publish") ++ L " command." ++ [nl]
  ++ L "You can also use --force to discard all local commits and replace the library with the one included in this revision. WARNING: This action cannot be undone.".

Local Open Scope res_scope.

(** The chain of tests that sets [err]. *)
Definition can_update_err (self : Repo) (clean force : bool) (run : runner)
  : res (option str) :=
  if (is_local self || negb (is_some (url self))) && negb force
  then Ok (Some (msg_local_library self))
  else
    d <- (if negb clean
          then (b <- the_scm self ;; out <- dirty b run ;; Ok (truthy (Some out)))
          else Ok false) ;;
    if (d : bool) then Ok (Some (msg_uncommitted self))
    else
      o <- (if negb force then (b <- the_scm self ;; outgoing b run) else Ok false) ;;
      if (o : bool) then Ok (Some (msg_unpublished self)) else Ok None.

Definition can_update (self : Repo) (clean force : bool) (run : runner)
  : res (bool * str) :=
  err <- can_update_err self clean force run ;;
  Ok (if truthy err then (false, pct_s err) else (true, L "OK")).

(** ** The detached-head test of [update] (lines 1144-1147) *)

Definition msg_detached (cwd_type : str) (b : Scm) : str :=
  L "This " ++ cwd_type
  ++ L " is in detached HEAD state, and you won't be able to receive updates from the remote repository until you either checkout a branch or create a new one."
  ++ [nl]
  ++ L "You can checkout a branch using " ++ [dq] ++ scm_label b
  ++ L " checkout <branch_name>" ++ [dq] ++ L " command before running "
  ++ quoted (L "mbed update") ++ L ".".

(** [if top and not rev and repo.scm.isdetached(): error(...)] *)
Definition update_detached (cwd_type : str) (top : bool) (rev : option str)
    (repo : Repo) (run : runner) : res unit :=
  if top && negb (truthy rev)
  then b <- the_scm repo ;;
       d <- isdetached b run ;;
       if (d : bool) then error (msg_detached cwd_type b) 1 else Ok tt
  else Ok tt.

(** ** What the engine prints and does *)

Inductive event : Type :=
| Action (msg : str)                    (* action(msg) *)
| Warning (msg : str)                   (* warning(msg) *)
| Progress                              (* progress() *)
| Prompt (msg : str)                    (* raw_input(msg) *)
| Synced (path : str)                   (* sync(recursive=False) in path *)
| Committed (path : str)                (* repo.scm.commit() *)
| Pushed (path : str) (all : bool)      (* repo.scm.push(repo, all) *)
| Rmtree (path : str).                  (* rmtree_readonly(path) *)

(** ** [Repo.check_repo] (lines 742-761) *)

(** What lies at the path of a library reference. *)
Inductive on_disk (T : Type) : Type :=
| Absent                                (* not os.path.isdir(path) *)
| Plain                                 (* a directory, not a repository *)
| Repository (t : T).
Arguments Absent {T}.
Arguments Plain {T}.
Arguments Repository {T} t.

Definition msg_missing_library (self : Repo) : str :=
  L "Library reference " ++ quoted (basename (lib self))
  ++ L " points to non-existing library in " ++ quoted (path self) ++ [nl]
  ++ L "You can use " ++ quoted (L "mbed deploy") ++ L " to import the missing libraries." ++ [nl]
  ++ L "You can also use " ++ quoted (L "mbed sync")
  ++ L " to synchronize and remove all invalid library references.".

Definition msg_not_repository (self : Repo) : str :=
  L "Library reference " ++ quoted (basename (lib self))
  ++ L " points to a folder " ++ quoted (path self) ++ L ", which is not a valid repository." ++ [nl]
  ++ L "You can remove the conflicting folder manually and use " ++ quoted (L "mbed deploy")
  ++ L " to import the missing libraries" ++ [nl]
  ++ L "You can also remove library reference " ++ quoted (lib self)
  ++ L " and use " ++ quoted (L "mbed sync") ++ L " again.".

Definition check_repo {T} (self : Repo) (d : on_disk T) (show_warning : bool)
  : list event * res bool :=
  let err :=
    match d with
    | Absent => Some (msg_missing_library self)
    | Plain => Some (msg_not_repository self)
    | Repository _ => None
    end in
  match err with
  | Some e => if show_warning then ([Warning e], Ok false) else ([], error e 1)
  | None => ([], Ok true)
  end.

(** ** [publish] (lines 1097-1126) *)

(** The outcomes, in one repository, of the calls [publish] makes there
    after its libraries are done. *)
Record node_io : Type := mkIo {
  io_sync : res unit;                   (* sync(recursive=False) *)
  io_dirty : res str;                   (* repo.scm.dirty() *)
  io_commit : res unit;                 (* repo.scm.commit() *)
  io_outgoing : res bool;               (* repo.scm.outgoing() *)
  io_push : bool -> res unit            (* repo.scm.push(repo, all) *)
}.

(** A working tree: the repository [Repo.fromrepo()] loads in a directory,
    the outcomes of its backend there, and for each of [repo.libs] what
    its path holds. *)
Set Warnings "-register-all".

Inductive tree : Type :=
| Tree (self : Repo) (io : node_io) (libs : list (Repo * on_disk tree)).

Definition tree_repo (t : tree) : Repo := match t with Tree r _ _ => r end.
Definition tree_io (t : tree) : node_io := match t with Tree _ i _ => i end.
Definition tree_libs (t : tree) : list (Repo * on_disk tree) :=
  match t with Tree _ _ l => l end.

Section Engine.

(** The globals [cwd_root] and [cwd_type]. *)
Variable cwd_root : str.
Variable cwd_type : str.

Definition msg_local_repository (top : bool) (repo : Repo) (b : Scm) : str :=
  (if top then L "Program" else L "Library") ++ L " " ++ quoted (name repo)
  ++ L " in " ++ quoted (path repo) ++ L " is a local repository." ++ [nl]
  ++ L "Please associate it with a remote repository URL before attempting to publish." ++ [nl]
  ++ L "Read more about " ++ scm_label b ++ L " repositories here:" ++ [nl]
  ++ L "http://developer.mbed.org/handbook/how-to-publish-with-" ++ scm_label b ++ L "/".

(** The loop [for lib in repo.libs] with the recursive call [rec]. *)
Fixpoint publish_libs (rec : tree -> list event * res unit)
    (libs : list (Repo * on_disk tree)) : list event * res unit :=
  match libs with
  | [] => ([], Ok tt)
  | (l, d) :: rest =>
      match check_repo l d false with
      | (ev, Exn e) => (ev, Exn e)
      | (ev, Ok false) => let (ev', r) := publish_libs rec rest in (ev ++ ev', r)
      | (ev, Ok true) =>
          match d with
          | Repository t =>
              match rec t with
              | (evt, Ok _) =>
                  let (ev', r) := publish_libs rec rest in
                  (ev ++ Progress :: evt ++ ev', r)
              | (evt, Exn e) => (ev ++ Progress :: evt, Exn e)
              end
          | _ => let (ev', r) := publish_libs rec rest in (ev ++ ev', r)
          end
      end
  end.

(** The commit of a dirty working tree. *)
Definition publish_commit (repo : Repo) (io : node_io) : list event * res unit :=
  match io_dirty io with
  | Exn e => ([], Exn e)
  | Ok d =>
      if truthy (Some d)
      then ([ Action (L "Uncommitted changes in " ++ quoted (name repo) ++ L " ("
                        ++ relpath cwd_root (path repo) ++ L ")");
              Prompt (L "Press enter to commit and push: ");
              Committed (path repo) ],
            io_commit io)
      else ([], Ok tt)
  end.

(** The push of outgoing commits; a [ProcessException(1)] is dropped. *)
Definition publish_push (all : bool) (repo : Repo) (io : node_io) : list event * res unit :=
  let (ev, r) :=
    match io_outgoing io with
    | Exn e => ([], Exn e)
    | Ok true =>
        ([ Action (L "Pushing local repository " ++ quoted (name repo) ++ L " to remote "
                     ++ quoted (pct_s (url repo)));
           Pushed (path repo) all ],
         io_push io all)
    | Ok false => ([], Ok tt)
    end in
  match r with
  | Exn (ProcessException e0) =>
      if negb (e0 =? 1)%Z then (ev, Exn (ProcessException e0)) else (ev, Ok tt)
  | _ => (ev, r)
  end.

(** What [publish] does in a repository once its libraries are done. *)
Definition publish_self (all : bool) (repo : Repo) (io : node_io) : list event * res unit :=
  match io_sync io with
  | Exn e => ([Synced (path repo)], Exn e)
  | Ok _ =>
      match publish_commit repo io with
      | (evc, Exn e) => (Synced (path repo) :: evc, Exn e)
      | (evc, Ok _) =>
          let (evp, r) := publish_push all repo io in
          (Synced (path repo) :: evc ++ evp, r)
      end
  end.

Definition checking : event := Action (L "Checking for local modifications...").

(** The events before the libraries are visited. *)
Definition head_events (top : bool) : list event := if top then [checking] else [].

Fixpoint publish (all top : bool) (t : tree) : list event * res unit :=
  match t with
  | Tree repo io libs =>
      let ev0 := head_events top in
      if is_local repo
      then (ev0, b <- the_scm repo ;; error (msg_local_repository top repo b) 1)
      else
        match publish_libs (publish false all) libs with
        | (evl, Exn e) => (ev0 ++ evl, Exn e)
        | (evl, Ok _) =>
            let (evs, r) := publish_self all repo io in
            (ev0 ++ evl ++ evs, r)
        end
  end.

(** What one library contributes to the events of its parent when it and
    the libraries before it are published. *)
Definition lib_events (all : bool) (x : Repo * on_disk tree) : list event :=
  match snd x with
  | Repository t => Progress :: fst (publish false all t)
  | _ => []
  end.

Definition lib_published (all : bool) (x : Repo * on_disk tree) : Prop :=
  exists t, snd x = Repository t /\ snd (publish false all t) = Ok tt.

End Engine.

(** The induction hypothesis on a library that is itself a working tree. *)
Definition sub_ok (P : tree -> Prop) (x : Repo * on_disk tree) : Prop :=
  match snd x with Repository t => P t | _ => True end.

(** ** The working directory tree on disk *)

Record Fs : Type := mkFs {
  files : gmap str str;                 (* regular files and their content *)
  dirs : gset str                       (* directories *)
}.

Definition isfile (fs : Fs) (p : str) : bool := bool_decide (is_Some (files fs !! p)).
Definition isdir (fs : Fs) (p : str) : bool := bool_decide (p ∈ dirs fs).

(** [p] lies below the directory [root]. *)
Definition below (root p : str) : bool := startswith (root ++ L "/") p.

(** [p] is [root] or lies below it. *)
Definition inside (root p : str) : bool := str_eqb p root || below root p.

(** [rmtree_readonly(root)] where the removal goes through: the directory
    goes with all it holds. *)
Definition rmtree (root : str) (fs : Fs) : Fs :=
  {| files := filter (fun kv => below root (fst kv) = false) (files fs);
     dirs := filter (fun d => inside root d = false) (dirs fs) |}.

(** [scm.unignore(repo, file)] (lines 370-387 and 511-525) where the
    exclude file can be written: it loses the first line equal to [file],
    if it has one. *)
Definition unignore (b : Scm) (repo : Repo) (file : str) (fs : Fs) : Fs :=
  let exclude := join (path repo) (exclude_file b) in
  let lines := match files fs !! exclude with Some c => splitlines c | None => [] end in
  if bool_decide (file ∈ lines)
  then {| files := <[exclude := join_lines (list_remove_first file lines) ++ [nl]]> (files fs);
          dirs := dirs fs |}
  else fs.

(** ** The obsolescence pass of [update] (lines 1163-1177)

    [fromrepo p] stands for [Repo.fromrepo(p)] and gives the repository
    loaded at [p] with the outcomes of its backend's commands there. *)
Section Obsolete.

Variable cwd_root : str.
Variable fromrepo : str -> res (Repo * runner).
Variables (clean force ignore : bool).
Variable repo : Repo.

Fixpoint update_obsolete (libs : list Repo) (fs : Fs) : Fs * list event * res unit :=
  match libs with
  | [] => (fs, [], Ok tt)
  | l :: rest =>
      if negb (isfile fs (lib l)) && isdir fs (path l)
      then
        match (lr <- fromrepo (path l) ;; can_update (fst lr) clean force (snd lr)) with
        | Exn e => (fs, [], Exn e)
        | Ok (true, _) =>
            let fs1 := rmtree (path l) fs in
            match the_scm repo with
            | Exn e =>
                (fs1, [Action (L "Removing library " ++ quoted (relpath cwd_root (path l))
                                 ++ L " (obsolete)"); Rmtree (path l)], Exn e)
            | Ok b =>
                let '(fs2, ev, r) :=
                  update_obsolete rest (unignore b repo (relpath (path repo) (path l)) fs1) in
                (fs2, Action (L "Removing library " ++ quoted (relpath cwd_root (path l))
                                ++ L " (obsolete)") :: Rmtree (path l) :: ev, r)
            end
        | Ok (false, msg) =>
            if ignore
            then let '(fs2, ev, r) := update_obsolete rest fs in (fs2, Warning msg :: ev, r)
            else (fs, [], error msg 1)
        end
      else update_obsolete rest fs
  end.

End Obsolete.


(** ** Notions used in the statements *)

(** A runner whose every command exits with [rc] and prints [out]. *)
Definition const_runner (rc : Z) (out : str) : runner := fun _ => mkProc rc out.

Definition git_repo_at (p : str) : Repo :=
  {| name := basename p; path := p; url := Some (L "https://github.com/ARMmbed/mbed-os");
     hash := None; is_local := false; scm := Some git |}.

Definition has_remote (self : Repo) : Prop :=
  is_local self = false /\ url self <> None.

Definition tree_clean (self : Repo) (run : runner) : Prop :=
  exists b, the_scm self = Ok b /\ dirty b run = Ok [].

Definition nothing_outgoing (self : Repo) (run : runner) : Prop :=
  exists b, the_scm self = Ok b /\ outgoing b run = Ok false.

(** A library that the pass must keep: its reference file is there, or
    its directory is gone already. *)
Definition kept (fs : Fs) (l : Repo) : Prop :=
  isfile fs (lib l) = true \/ isdir fs (path l) = false.

(** A program directory with two library directories, of which only the
    first still has its reference file. *)
Definition two_libs_fs : Fs :=
  {| files := {[ L "/w/p/a.lib" := L "https://example.com/org/a/#0123456789ab" ++ [nl] ]};
     dirs := {[ L "/w/p"; L "/w/p/a"; L "/w/p/b" ]} |}.

Definition clean_git_checkout (p : str) : res (Repo * runner) :=
  Ok (git_repo_at p, const_runner 0 []).

(** The scheme [formaturl] writes, for a locator of the mbed-hosted shape
    and for one of the git shape. *)
Definition mbed_scheme (p : protocol) : str :=
  match p with Phttp => L "http://" | _ => L "https://" end.

Definition git_scheme (p : protocol) : str :=
  match p with Pssh => L "ssh://" | Phttp => L "http://" | _ => L "https://" end.

(** [s.endswith(suf)] *)
Definition endswith (suf s : str) : bool := startswith (rev suf) (rev s).

(** What [formaturl] appends to the path of a git locator. *)
Definition git_suffix (p : protocol) : str :=
  match p with Pssh => L ".git" | _ => [] end.

(** Characters of a url and of a revision that the reference file keeps
    as they are: no whitespace, no backslash, and for a url no [#], for a
    revision no slash. *)
Definition url_char (a : ascii) : bool :=
  negb (is_space a) && negb (chr "\" a) && negb (chr "#" a).

Definition rev_char (a : ascii) : bool :=
  negb (is_space a) && negb (chr "\" a) && negb (chr "/" a).

(** The [.ext] that may follow the name of a repository in a url. *)
Definition is_ext (ext : str) : Prop :=
  ext = [] \/ exists e, ext = L "." ++ e /\ forallb word e = true /\ 1 <= length e.

(** The part of a reference line that pins the revision. *)
Definition hash_part (h : option str) : str :=
  match h with Some ((_ :: _) as x) => L "#" ++ x | _ => [] end.

(** A url of the shape the reference grammar reads, and the line that
    [Repo.write] makes of it and of a revision, without its newline. *)
Definition ref_url (base nm ext : str) : str := base ++ L "/" ++ nm ++ ext.

Definition ref_line (base nm ext : str) (rev : option str) : str :=
  ref_url base nm ext ++ L "/" ++ hash_part rev.

(** The captures of a match that is known to be there. *)
Definition the_match (o : option caps) : caps :=
  match o with Some m => m | None => [] end.

(** * Further definitions *)

(** A string without a line break ([LF] or [CR]). *)
Definition is_eol (a : ascii) : bool := Ascii.eqb a nl || Ascii.eqb a cr.
Definition noeol (l : str) : bool := forallb (fun a => negb (is_eol a)) l.

(** The lines of a config file that carry the key [var], and the others. *)
Definition other_keys (var : str) (lines : list str) : list str :=
  filter (fun l => cfg_key_is var l = false) lines.
Definition key_lines (var : str) (lines : list str) : list str :=
  filter (fun l => cfg_key_is var l = true) lines.

Definition file_lines (file : option str) : list str :=
  match file with Some content => splitlines content | None => [] end.

(** ** Revisions (mbed.py lines 307-312 and 627-634) *)

(** [[a-zA-Z0-9]] *)
Definition cls_alnum (a : ascii) : bool :=
  in_range "a" "z" a || in_range "A" "Z" a || in_range "0" "9" a.

(** r"^([a-zA-Z0-9]{12,40})$" *)
Definition regex_hash : regex :=
  seq [ Bol; Grp 1 (Rep true 12 (Some 40) cls_alnum); Eol ].

(** [Repo.hashtype(hash, ret_hash)] *)
Definition hashtype (hash : option str) (ret_hash : bool) : str :=
  match hash with
  | Some ((_ :: _) as h) =>
      if matches 1 regex_hash h
      then L "rev" ++ (if ret_hash then L " #" ++ h else [])
      else L "branch" ++ (if ret_hash then L " " ++ h else [])
  | _ => L "latest" ++ (if ret_hash then L " revision in the current branch" else [])
  end.

(** ['%02x' % ord(i)] *)
Definition hexdigit (n : nat) : ascii := nth n (L "0123456789abcdef") "0"%char.
Definition hex2 (a : ascii) : str :=
  [hexdigit (nat_of_ascii a / 16); hexdigit (nat_of_ascii a mod 16)].

(** [Hg.gethash(repo)]: the first six bytes of the dirstate, in hex. *)
Definition Hg_gethash (fs : Fs) (repo : Repo) : str :=
  match files fs !! join (join (path repo) (L ".hg")) (L "dirstate") with
  | Some content => flat_map hex2 (take 6 content)
  | None => []
  end.

(** A revision as [hashtype] accepts it: 12 to 40 letters and digits. *)
Definition is_rev (w : str) : Prop :=
  forallb cls_alnum w = true /\ 12 <= length w <= 40.

(** The value of a hex digit in lower case, and the bytes that a string of
    such digits spells, two digits a byte. *)
Definition hexval (a : ascii) : option nat :=
  if in_range "0" "9" a then Some (nat_of_ascii a - 48)
  else if in_range "a" "f" a then Some (nat_of_ascii a - 87)
  else None.

Fixpoint unhex (s : str) : option str :=
  match s with
  | [] => Some []
  | hi :: lo :: s' =>
      match hexval hi, hexval lo, unhex s' with
      | Some x, Some y, Some r => Some (ascii_of_nat (16 * x + y) :: r)
      | _, _, _ => None
      end
  | _ => None
  end.

(** The shape of a hash that [hashtype] takes for a revision: 12 to 40
    letters and digits, then nothing or one newline. *)
Definition rev_shape (h : str) : Prop :=
  exists w e, h = w ++ e /\ is_rev w /\ (e = [] \/ e = [nl]).

(** ** Local references *)

(** A character that [strip] and the backslash replacement of
    [Repo.fromurl] leave alone. *)
Definition plain_char (a : ascii) : bool := negb (is_space a) && negb (chr "\" a).

(** The end of a reference line that pins a revision: [#rev], or nothing. *)
Definition hash_suffix (rev0 : option str) : str :=
  match rev0 with Some h => L "#" ++ h | None => [] end.

(** A path of the shape of a local reference: a first character of
    [[\w.+-]], then characters of [[\w./+-]], and no slash at the end. *)
Definition is_local_path (d : str) : Prop :=
  match d with
  | a :: t => cls_local_head a = true /\ forallb cls_local_tail t = true
              /\ endswith (L "/") d = false
  | [] => False
  end.

(** ** Reading a reference file (mbed.py lines 552-562) *)

(** [os.path.split(p)[0]]: what stands before the last slash, without
    the slashes at its end unless it is made of slashes only. *)
Definition dirname (p : str) : str :=
  let head := rev (lstrip (fun a => negb (chr "/" a)) (rev p)) in
  if forallb (chr "/") head then head else rstrip (chr "/") head.

(** [s.replace(old, new)] for a non-empty [old]: the occurrences of [old]
    are replaced from the left, and [skip] counts the characters of an
    occurrence that are still to be passed over. *)
Fixpoint replace_aux (old new : str) (skip : nat) (s : str) : str :=
  match s with
  | [] => []
  | a :: s' =>
      match skip with
      | S k => replace_aux old new k s'
      | 0 => if startswith old s then new ++ replace_aux old new (length old - 1) s'
             else a :: replace_aux old new 0 s'
      end
  end.
Definition replace (old new s : str) : str := replace_aux old new 0 s.

Definition msg_keil_library (lib : str) : str :=
  L "A Keil uVision static library " ++ quoted (basename lib) ++ L " in "
    ++ quoted (dirname lib)
    ++ L " uses a non-standard .lib file extension (should be .ar), which is not compatible with the mbed build tools."
    ++ [nl] ++ L "Please rename the static library to "
    ++ quoted (replace (L ".lib") (L ".ar") (basename lib)) ++ L " and try again." ++ [nl].

(** [Repo.fromlib(lib)], run in the directory [cwd], for a path [lib] that
    ends in [.lib] and a file there with the given content. *)
Definition fromlib (cwd lib content : str) : res Repo :=
  let ref := take 200 content in
  if startswith (L "!<arch>") ref then error (msg_keil_library lib) (-1)
  else fromurl cwd ref (Some (take (length lib - 4) lib)).

(** ** The url of a checkout (mbed.py lines 287-305 and 481-490) *)

(** The exceptions of the calls below: those of [exn], and those that
    reading past the end of a list, opening a file and removing a directory
    raise. *)
Inductive pyexn : Type :=
| Exc (e : exn)
| IndexError
| IOError
| OSError.

Inductive outcome (A : Type) : Type :=
| Returns (a : A)
| Raises (e : pyexn).
Arguments Returns {A} a.
Arguments Raises {A} e.

(** [re.split(r'\s', s)]: the fields between single whitespace
    characters, empty ones included. *)
Fixpoint split_space_aux (cur s : str) : list str :=
  match s with
  | [] => [cur]
  | a :: s' => if is_space a then cur :: split_space_aux [] s'
               else split_space_aux (cur ++ [a]) s'
  end.
Definition split_space (s : str) : list str := split_space_aux [] s.

Definition tab : ascii := "009".

Definition is_fetch (remote : list str) : bool := bool_decide (L "(fetch)" ∈ remote).
Definition is_origin (remote : list str) : bool :=
  match remote with r0 :: _ => str_eqb r0 (L "origin") | [] => false end.

(** The loop of [Git.geturl] over the lines of [git remote -v]. *)
Fixpoint Git_geturl_loop (remotes : list str) (url : str) : outcome str :=
  match remotes with
  | [] => Returns url
  | line :: rest =>
      let remote := split_space line in
      if is_fetch remote then
        match remote !! 1 with
        | None => Raises IndexError
        | Some u => if is_origin remote then Returns u else Git_geturl_loop rest u
        end
      else Git_geturl_loop rest url
  end.

(** [Git.geturl(repo)] *)
Definition Git_geturl (run : runner) : outcome str :=
  match pquery run [git_cmd; L "remote"; L "-v"] with
  | Exn e => Raises (Exc e)
  | Ok out =>
      match Git_geturl_loop (splitlines (strip out)) [] with
      | Returns u => Returns (formaturl u Pdefault)
      | o => o
      end
  end.

(** The remote that [Git.geturl] is meant to pick among the parsed lines
    of [git remote -v]: the first fetch line of [origin], and without one
    the last fetch line of any remote. *)
Definition preferred_remote (remotes : list (list str)) : option (list str) :=
  match List.find (fun r => is_fetch r && is_origin r) remotes with
  | Some r => Some r
  | None => last (List.filter is_fetch remotes)
  end.

(** r"^([\w_]+)\s*=\s*(.* )?$" *)
Definition regex_hgrc_path : regex :=
  seq [ Bol; Grp 1 (plus word); star is_space; Lit (L "="); star is_space;
        Opt (Grp 2 (star dot)); Eol ].

(** [lines.index(x)] for an [x] that is in [lines]. *)
Fixpoint list_index (x : str) (lines : list str) : nat :=
  match lines with
  | [] => 0
  | y :: ys => if str_eqb y x then 0 else S (list_index x ys)
  end.

(** [Hg.geturl(repo)] *)
Definition Hg_geturl (fs : Fs) (run : runner) (repo : Repo) : outcome str :=
  let finish (url : option str) : outcome str :=
    if truthy url then Returns (formaturl (por url []) Pdefault)
    else match pquery run [hg_cmd; L "paths"; L "default"] with
         | Ok out => Returns (formaturl (strip out) Pdefault)
         | Exn e => Raises (Exc e)
         end in
  match files fs !! join (path repo) (L ".hg/hgrc") with
  | Some content =>
      let lines := splitlines content in
      if bool_decide (L "[paths]" ∈ lines) then
        match lines !! (list_index (L "[paths]") lines + 1) with
        | None => Raises IndexError
        | Some line =>
            let '(default_url, url) :=
              match rmatch 2 regex_hgrc_path line with
              | Some m => if opt_str_eqb (group m 1) (Some (L "default"))
                          then (group m 2, Some [])
                          else (Some [], group m 2)
              | None => (Some [], Some [])
              end in
            finish (if truthy default_url then default_url else url)
        end
      else finish (Some [])
  | None => finish (Some [])
  end.

(** ** The ignore lists (mbed.py lines 22-70, 315-368, 495-509) *)

Definition ignores : list str :=
  [ L ".hg"; L ".git"; L ".svn"; L ".CVS"; L ".cvs";
    L "*.orig";
    L ".build"; L ".export";
    L ".msub"; L ".meta"; L ".ctags*";
    L "*.uvproj"; L "*.uvopt";
    L "*.project"; L "*.cproject"; L "*.launch";
    L "*.ewp"; L "*.eww";
    L "Makefile"; L "Debug";
    L "*.htm";
    L ".mbed"; L "*.settings"; L "mbed_settings.py";
    L "*.py[cod]"; L "# subrepo ignores" ].

(** A file can be opened for writing where its directory exists. *)
Definition can_open (fs : Fs) (p : str) : bool := isdir fs (dirname p).

(** [open(p, 'w')] and [open(p, 'a')], then one [write]. *)
Definition write_file (p s : str) (fs : Fs) : Fs :=
  {| files := <[p := s]> (files fs); dirs := dirs fs |}.
Definition append_file (p s : str) (fs : Fs) : Fs :=
  write_file p (default [] (files fs !! p) ++ s) fs.

(** [x in f.read().splitlines()], false when the file cannot be read. *)
Definition listed (p x : str) (fs : Fs) : bool :=
  match files fs !! p with
  | Some c => bool_decide (x ∈ splitlines c)
  | None => false
  end.

Definition git_exclude (repo : Repo) : str := join (path repo) (L ".git/info/exclude").
Definition hg_exclude (repo : Repo) : str := join (path repo) (L ".hg/hgignore").
Definition hg_hgrc (repo : Repo) : str := join (join (path repo) (L ".hg")) (L "hgrc").
Definition hg_hook : str := L "ignore.local = .hg/hgignore".

(** [Git.ignores(repo)] *)
Definition Git_ignores (repo : Repo) (fs : Fs) : outcome Fs :=
  if can_open fs (git_exclude repo)
  then Returns (write_file (git_exclude repo) (join_lines ignores ++ [nl]) fs)
  else Raises IOError.

(** [Git.ignore(repo, file)] *)
Definition Git_ignore (repo : Repo) (file : str) (fs : Fs) : outcome Fs :=
  if listed (git_exclude repo) file fs then Returns fs
  else if can_open fs (git_exclude repo)
       then Returns (append_file (git_exclude repo) (unbackslash file ++ [nl]) fs)
       else Raises IOError.

(** The first half of [Hg.ignores] and [Hg.ignore]: the hook that makes
    Mercurial read the ignore file. *)
Definition Hg_hook (repo : Repo) (fs : Fs) : outcome Fs :=
  if listed (hg_hgrc repo) hg_hook fs then Returns fs
  else if can_open fs (hg_hgrc repo)
       then Returns (append_file (hg_hgrc repo) (L "[ui]" ++ [nl] ++ hg_hook ++ [nl]) fs)
       else Raises (Exc (SystemExit 1
                      (L "Unable to write hgrc file in " ++ quoted (hg_hgrc repo)))).

(** [Hg.ignores(repo)] *)
Definition Hg_ignores (repo : Repo) (fs : Fs) : outcome Fs :=
  match Hg_hook repo fs with
  | Raises e => Raises e
  | Returns fs1 =>
      let exclude := join (join (path repo) (L ".hg")) (L "hgignore") in
      if can_open fs1 exclude
      then Returns (write_file exclude
                      (L "syntax: glob" ++ [nl] ++ join_lines ignores ++ [nl]) fs1)
      else Raises (Exc (SystemExit 1
                     (L "Unable to write ignore file in " ++ quoted exclude)))
  end.

(** [Hg.ignore(repo, file)] *)
Definition Hg_ignore (repo : Repo) (file : str) (fs : Fs) : outcome Fs :=
  match Hg_hook repo fs with
  | Raises e => Raises e
  | Returns fs1 =>
      if listed (hg_exclude repo) file fs1 then Returns fs1
      else if can_open fs1 (hg_exclude repo)
           then Returns (append_file (hg_exclude repo) (file ++ [nl]) fs1)
           else Raises (Exc (SystemExit 1
                          (L "Unable to write ignore file in " ++ quoted (hg_exclude repo))))
  end.

(** [Hg.unignore(repo, file)] and [Git.unignore(repo, file)]: the ignore
    file loses the first line equal to [file], if it has one; where the
    file cannot be opened for writing, [Hg.unignore] exits and
    [Git.unignore] lets the [IOError] through. *)
Definition scm_unignore (n : scm_name) (repo : Repo) (file : str) (fs : Fs) : outcome Fs :=
  let exclude := join (path repo) (exclude_file (scms n)) in
  let lines := match files fs !! exclude with Some c => splitlines c | None => [] end in
  if bool_decide (file ∈ lines)
  then
    if can_open fs exclude
    then Returns {| files := <[exclude := join_lines (list_remove_first file lines) ++ [nl]]>
                               (files fs);
                    dirs := dirs fs |}
    else match n with
         | hg => Raises (Exc (SystemExit 1
                   (L "Unable to write ignore file in " ++ quoted exclude)))
         | git => Raises IOError
         end
  else Returns fs.

(** A file made of whole lines: empty, or ended by a newline. *)
Definition whole_lines (c : str) : Prop := c = [] \/ exists c', c = c' ++ [nl].

(** ** Untracked files (lines 272-274, 466-467, 717-722) *)

(** [Hg.untracked()]: [re.sub(r'^\? ', '', result)] takes the marker at
    the start of the output, then the lines are split. *)
Definition Hg_untracked (run : runner) : res (list str) :=
  match pquery run [hg_cmd; L "status"; L "-u"] with
  | Ok result => Ok (splitlines (if startswith (L "? ") result then drop 2 result else result))
  | Exn e => Exn e
  end.

(** [Git.untracked()] *)
Definition Git_untracked (run : runner) : res (list str) :=
  match pquery run [git_cmd; L "ls-files"; L "--others"; L "--exclude-standard"] with
  | Ok result => Ok (splitlines result)
  | Exn e => Exn e
  end.

(** [repo.scm.ignore(repo, file)] and the file it works on. *)
Definition scm_ignore (n : scm_name) : Repo -> str -> Fs -> outcome Fs :=
  match n with hg => Hg_ignore | git => Git_ignore end.
Definition exclude_of (n : scm_name) (repo : Repo) : str :=
  join (path repo) (exclude_file (scms n)).

(** The content of a file of whole lines, absent or not. *)
Definition whole_lines_at (p : str) (fs : Fs) : Prop :=
  match files fs !! p with Some c => whole_lines c | None => True end.

(** A git checkout at [/w/p] whose exclude file holds the standard list. *)
Definition git_checkout_fs : Fs :=
  {| files := {[ L "/w/p/.git/info/exclude" := join_lines ignores ++ [nl] ]};
     dirs := {[ L "/w/p"; L "/w/p/.git"; L "/w/p/.git/info" ]} |}.
Definition program_repo (n : scm_name) : Repo :=
  {| name := L "p"; path := L "/w/p"; url := None; hash := None; is_local := false;
     scm := Some n |}.

(** r"(.+)\.lib$" *)
Definition regex_lib : regex := seq [ Grp 1 (plus dot); Lit (L ".lib"); Eol ].

(** The loop of [Repo.rm_untracked], run in the directory [cwd] of the
    repository: [os.remove] of the untracked reference files. *)
Fixpoint rm_untracked_loop (cwd : str) (untracked : list str) (fs : Fs) : Fs * list event :=
  match untracked with
  | [] => (fs, [])
  | file :: rest =>
      if matches 1 regex_lib file && isfile fs (join cwd file)
      then
        let '(fs1, ev) :=
          rm_untracked_loop cwd rest
            {| files := delete (join cwd file) (files fs); dirs := dirs fs |} in
        (fs1, Action (L "Remove untracked library reference " ++ quoted file) :: ev)
      else rm_untracked_loop cwd rest fs
  end.

(** [Repo.rm_untracked()] with the outcome of [self.scm.untracked()]. *)
Definition rm_untracked (cwd : str) (untracked : res (list str)) (fs : Fs)
  : Fs * list event * res unit :=
  match untracked with
  | Ok files => (rm_untracked_loop cwd files fs, Ok tt)
  | Exn e => (fs, [], Exn e)
  end.

(** ** Repositories on disk (mbed.py lines 583-590) *)

(** [Repo.isrepo(path)]: the directory of one of the backends is there. *)
Definition isrepo (fs : Fs) (p : str) : bool :=
  isdir fs (join p (L ".hg")) || isdir fs (join p (L ".git")).

(** ** The second pass of [update] (lines 1183-1198): libraries whose
    checkout has another url than their reference *)
Section Drift.

Variable cwd_root : str.
Variable fromrepo : str -> res (Repo * runner).
Variables (clean force ignore : bool).
Variable repo : Repo.

Fixpoint update_drift (libs : list Repo) (fs : Fs) : Fs * list event * res unit :=
  match libs with
  | [] => (fs, [], Ok tt)
  | l :: rest =>
      if isdir fs (path l) && isrepo fs (path l)
      then
        match fromrepo (path l) with
        | Exn e => (fs, [], Exn e)
        | Ok (lib_repo, run) =>
            if negb (opt_str_eqb (url l) (url lib_repo))
            then
              match can_update lib_repo clean force run with
              | Exn e => (fs, [], Exn e)
              | Ok (true, _) =>
                  let fs1 := rmtree (path l) fs in
                  let act := Action (L "Removing library " ++ quoted (relpath cwd_root (path l))
                                       ++ L " (changed URL). Will add from new URL.") in
                  match the_scm repo with
                  | Exn e => (fs1, [act; Rmtree (path l)], Exn e)
                  | Ok b =>
                      let '(fs2, ev, r) :=
                        update_drift rest (unignore b repo (relpath (path repo) (path l)) fs1) in
                      (fs2, act :: Rmtree (path l) :: ev, r)
                  end
              | Ok (false, msg) =>
                  if ignore
                  then let '(fs2, ev, r) := update_drift rest fs in (fs2, Warning msg :: ev, r)
                  else (fs, [], error msg 1)
              end
            else update_drift rest fs
        end
      else update_drift rest fs
  end.

End Drift.

(** What the gate of [can_update] asks of a repository before it may be
    removed. *)
Definition removable (lr : Repo) (run : runner) (clean force : bool) : Prop :=
  (has_remote lr \/ force = true)
  /\ (tree_clean lr run \/ clean = true)
  /\ (nothing_outgoing lr run \/ force = true).

(** A program with one library whose checkout now comes from another url
    than the one its reference names. *)
Definition moved_lib_fs : Fs :=
  {| files := {[ L "/w/p/a.lib" := L "https://github.com/ARMmbed/mbed-os/" ++ [nl] ]};
     dirs := {[ L "/w/p"; L "/w/p/a"; L "/w/p/a/.git" ]} |}.

Definition moved_checkout (p : str) : res (Repo * runner) :=
  Ok ({| name := basename p; path := p; url := Some (L "https://github.com/me/mbed-os");
         hash := None; is_local := false; scm := Some git |}, const_runner 0 []).

(** A checkout that was never published. *)
Definition local_repo_at (p : str) : Repo :=
  {| name := basename p; path := p; url := None; hash := None; is_local := true;
     scm := Some git |}.
Definition local_checkout (p : str) : res (Repo * runner) :=
  Ok (local_repo_at p, const_runner 0 []).

(** ** The two passes of [update], with removals that can fail

    [rmtree_fails root fs] is what is left of the file system when
    [shutil.rmtree] raises in spite of the handler that clears the
    read-only bit, and [None] where the removal goes through. *)
Section PassIO.

Variable cwd_root : str.
Variable fromrepo : str -> res (Repo * runner).
Variable rmtree_fails : str -> Fs -> option Fs.
Variables (clean force ignore : bool).
Variable repo : Repo.

(** [rmtree_readonly(root)] *)
Definition rmtree_readonly (root : str) (fs : Fs) : Fs * outcome unit :=
  match rmtree_fails root fs with
  | Some rest => (rest, Raises OSError)
  | None => (rmtree root fs, Returns tt)
  end.

(** The removal of a library that the gate lets go: [action(act)], then
    [rmtree_readonly(lib.path)], then [repo.scm.unignore(repo, ...)], then
    [continue_] on the libraries that follow. *)
Definition remove_library (act : event) (l : Repo) (fs : Fs)
    (continue_ : Fs -> Fs * list event * outcome unit) : Fs * list event * outcome unit :=
  match rmtree_readonly (path l) fs with
  | (fs1, Raises e) => (fs1, [act], Raises e)
  | (fs1, Returns _) =>
      match scm repo with
      | None => (fs1, [act; Rmtree (path l)], Raises (Exc AttributeError))
      | Some n =>
          match scm_unignore n repo (relpath (path repo) (path l)) fs1 with
          | Raises e => (fs1, [act; Rmtree (path l)], Raises e)
          | Returns fs2 =>
              let '(fs3, ev, r) := continue_ fs2 in
              (fs3, act :: Rmtree (path l) :: ev, r)
          end
      end
  end.

(** Lines 1163-1177. *)
Fixpoint update_obsolete_io (libs : list Repo) (fs : Fs) : Fs * list event * outcome unit :=
  match libs with
  | [] => (fs, [], Returns tt)
  | l :: rest =>
      if negb (isfile fs (lib l)) && isdir fs (path l)
      then
        match fromrepo (path l) with
        | Exn e => (fs, [], Raises (Exc e))
        | Ok (lib_repo, run) =>
            match can_update lib_repo clean force run with
            | Exn e => (fs, [], Raises (Exc e))
            | Ok (true, _) =>
                remove_library
                  (Action (L "Removing library " ++ quoted (relpath cwd_root (path l))
                             ++ L " (obsolete)"))
                  l fs (update_obsolete_io rest)
            | Ok (false, msg) =>
                if ignore
                then let '(fs2, ev, r) := update_obsolete_io rest fs in
                     (fs2, Warning msg :: ev, r)
                else (fs, [], Raises (Exc (SystemExit 1 msg)))
            end
        end
      else update_obsolete_io rest fs
  end.

(** Lines 1183-1198. *)
Fixpoint update_drift_io (libs : list Repo) (fs : Fs) : Fs * list event * outcome unit :=
  match libs with
  | [] => (fs, [], Returns tt)
  | l :: rest =>
      if isdir fs (path l) && isrepo fs (path l)
      then
        match fromrepo (path l) with
        | Exn e => (fs, [], Raises (Exc e))
        | Ok (lib_repo, run) =>
            if negb (opt_str_eqb (url l) (url lib_repo))
            then
              match can_update lib_repo clean force run with
              | Exn e => (fs, [], Raises (Exc e))
              | Ok (true, _) =>
                  remove_library
                    (Action (L "Removing library " ++ quoted (relpath cwd_root (path l))
                               ++ L " (changed URL). Will add from new URL."))
                    l fs (update_drift_io rest)
              | Ok (false, msg) =>
                  if ignore
                  then let '(fs2, ev, r) := update_drift_io rest fs in
                       (fs2, Warning msg :: ev, r)
                  else (fs, [], Raises (Exc (SystemExit 1 msg)))
              end
            else update_drift_io rest fs
        end
      else update_drift_io rest fs
  end.

End PassIO.

(** Why the removal of the library [l] fails: [rmtree_readonly] raises,
    the program has no backend to take the library off its ignore list, or
    [unignore] raises. *)
Definition removal_fails (rmtree_fails : str -> Fs -> option Fs) (repo l : Repo) (e : pyexn)
  : Prop :=
  (exists fs, is_Some (rmtree_fails (path l) fs) /\ e = OSError)
  \/ (scm repo = None /\ e = Exc AttributeError)
  \/ (exists n fs, scm repo = Some n
         /\ scm_unignore n repo (relpath (path repo) (path l)) fs = Raises e).

(** Why a clean-up pass of [update] stops at the library [l]:
    [Repo.fromrepo] raises there, [can_update] raises, the gate refuses
    the library and [ignore] is not set, or the gate lets the library go
    and its removal fails. *)
Definition stops_at (fromrepo : str -> res (Repo * runner))
    (rmtree_fails : str -> Fs -> option Fs) (clean force ignore : bool)
    (repo l : Repo) (e : pyexn) : Prop :=
  (exists e0, fromrepo (path l) = Exn e0 /\ e = Exc e0)
  \/ exists lr run, fromrepo (path l) = Ok (lr, run)
       /\ ((exists e0, can_update lr clean force run = Exn e0 /\ e = Exc e0)
           \/ (exists msg, can_update lr clean force run = Ok (false, msg)
                  /\ ignore = false /\ e = Exc (SystemExit 1 msg))
           \/ (exists msg, can_update lr clean force run = Ok (true, msg)
                  /\ removal_fails rmtree_fails repo l e)).

Definition stop_cause (fromrepo : str -> res (Repo * runner))
    (rmtree_fails : str -> Fs -> option Fs) (clean force ignore : bool)
    (repo : Repo) (libs : list Repo) (e : pyexn) : Prop :=
  exists l, In l libs /\ stops_at fromrepo rmtree_fails clean force ignore repo l e.

(** The gate refuses every library of [libs]. *)
Definition all_refused (fromrepo : str -> res (Repo * runner)) (clean force : bool)
    (libs : list Repo) : Prop :=
  forall l, In l libs ->
    exists lr run msg, fromrepo (path l) = Ok (lr, run)
                       /\ can_update lr clean force run = Ok (false, msg).

(** ** Finding the enclosing repository (mbed.py lines 592-606) *)

(** The loop of [Repo.findrepo]: from [path] upwards until a repository is
    found or [os.path.split] has nothing more to take.  A path of [n]
    characters has at most [n] directories above it. *)
Fixpoint findrepo_loop (fuel : nat) (fs : Fs) (p : str) : option str :=
  if isrepo fs p then Some p
  else match fuel with
       | 0 => None
       | S fuel' => if str_eqb p (dirname p) then None else findrepo_loop fuel' fs (dirname p)
       end.

(** [Repo.findrepo(path)] in the working directory [cwd]. *)
Definition findrepo (fs : Fs) (cwd path0 : str) : option str :=
  let p := abspath cwd (por (Some path0) cwd) in
  findrepo_loop (length p) fs p.

(** The [k]-th directory above [p]. *)
Definition up (k : nat) (p : str) : str := Nat.iter k dirname p.

(** ** The repositories of a working tree *)

(** [reach t n]: the working tree [n] is [t] or lies below it, through
    library references that point to repositories. *)
Inductive reach : tree -> tree -> Prop :=
| reach_here (t : tree) : reach t t
| reach_lib (repo : Repo) (io : node_io) (libs : list (Repo * on_disk tree))
    (l : Repo) (t n : tree) :
    In (l, Repository t) libs -> reach t n -> reach (Tree repo io libs) n.

(** An event that is neither a sync, a commit nor a push. *)
Definition quiet (e : event) : Prop :=
  forall p a, e <> Committed p /\ e <> Pushed p a /\ e <> Synced p.

(** A program whose working tree is clean, with one library that has
    uncommitted changes and commits to push. *)
Definition io_quiet : node_io :=
  {| io_sync := Ok tt; io_dirty := Ok []; io_commit := Ok tt; io_outgoing := Ok false;
     io_push := fun _ => Ok tt |}.
Definition io_busy : node_io :=
  {| io_sync := Ok tt; io_dirty := Ok (L "M main.cpp"); io_commit := Ok tt;
     io_outgoing := Ok true; io_push := fun _ => Ok tt |}.
Definition busy_lib_tree : tree :=
  Tree (git_repo_at (L "/w/p")) io_quiet
    [(git_repo_at (L "/w/p/a"), Repository (Tree (git_repo_at (L "/w/p/a")) io_busy []))].

(** ** The commands of a backend update (mbed.py lines 258-264, 437-456)

    A call that runs commands gives the commands it ran, in order, and its
    outcome; the lines it logs are left out. *)
Definition ran : Type := list (list str) * res unit.

(** [popen(command)] *)
Definition popen (run : runner) (command : list str) : ran :=
  ([command],
   if (returncode (run command) =? 0)%Z then Ok tt
   else Exn (ProcessException (returncode (run command)))).

Definition skip : ran := ([], Ok tt).

(** One call after another: the second is not made when the first fails. *)
Definition and_then (a b : ran) : ran :=
  match a with
  | (t, Ok _) => (t ++ fst b, snd b)
  | (t, Exn e) => (t, Exn e)
  end.

(** [['-v'] if verbose else ['-q']] and [[] if verbose else ['-q']] *)
Definition v_or_q (verbose : bool) : list str := if verbose then [L "-v"] else [L "-q"].
Definition quiet_flag (verbose : bool) : list str := if verbose then [] else [L "-q"].

(** [Hg.update(repo, hash, clean)] *)
Definition Hg_update (verbose : bool) (run : runner) (repo : Repo) (hash0 : option str)
    (clean : bool) : ran :=
  and_then
    (if negb (is_local repo) then popen run ([hg_cmd; L "pull"] ++ v_or_q verbose) else skip)
    (popen run ([hg_cmd; L "update"]
                ++ (if truthy hash0 then [L "-r"; por hash0 []] else [])
                ++ (if clean then [L "-C"] else [])
                ++ v_or_q verbose)).

(** [Git.update(repo, hash, clean)] *)
Definition Git_update (verbose : bool) (run : runner) (repo : Repo) (hash0 : option str)
    (clean : bool) : ran :=
  and_then
    (if clean
     then and_then (popen run ([git_cmd; L "reset"; L "HEAD"] ++ quiet_flag verbose))
            (and_then (popen run ([git_cmd; L "checkout"; L "."] ++ quiet_flag verbose))
                      (popen run ([git_cmd; L "clean"; L "-fdq"] ++ quiet_flag verbose)))
     else skip)
    (if truthy hash0
     then and_then
            (if negb (is_local repo)
             then popen run ([git_cmd; L "fetch"; L "-v"; L "--all"] ++ v_or_q verbose)
             else skip)
            (popen run ([git_cmd; L "checkout"] ++ [por hash0 []] ++ quiet_flag verbose))
     else if negb (is_local repo)
          then popen run ([git_cmd; L "pull"; L "--all"] ++ v_or_q verbose)
          else skip).

Definition scm_update (n : scm_name) : bool -> runner -> Repo -> option str -> bool -> ran :=
  match n with hg => Hg_update | git => Git_update end.

(** A command that asks the remote repository: [pull] or [fetch]. *)
Definition asks_remote (command : list str) : bool :=
  match command with
  | _ :: sub :: _ => str_eqb sub (L "pull") || str_eqb sub (L "fetch")
  | _ => false
  end.

(** ** The written form of a reference *)

(** [self] with another url. *)
Definition with_url (self : Repo) (u : str) : Repo :=
  {| name := name self; path := path self; url := Some u; hash := hash self;
     is_local := is_local self; scm := scm self |}.

(** ** The clone attempts of [import_] (mbed.py lines 1010-1025) *)

(** [sorted(..., key=lambda (m, _): not m)] over the registered backends,
    given in the order [order] of [scms.values()]: the sort is stable and
    its key has two values, so the backends that accept the url come
    first, each group in the order it had. *)
Definition sorted_scms (order : list scm_name) (url0 : str) : list scm_name :=
  List.filter (fun n => isurl (scms n) url0) order
  ++ List.filter (fun n => negb (isurl (scms n) url0)) order.

Section ImportLoop.

(** [clone n fs] stands for [scm.clone(repo.url, repo.path, repo.hash, ...)]
    of the backend [n]: what it leaves on disk and its outcome. *)
Variable clone : scm_name -> Fs -> Fs * res unit.
Variable url0 : str.                    (* the locator given to [import_] *)
Variable dest : str.                    (* [repo.path] *)

(** The loop over the sorted backends: the file system after it, the
    backends tried, and the backend that cloned. *)
Fixpoint import_clone (candidates : list scm_name) (fs : Fs)
  : Fs * list scm_name * res scm_name :=
  match candidates with
  | [] => (fs, [], error (L "Unable to clone repository (" ++ url0 ++ L ")") 1)
  | n :: rest =>
      match clone n fs with
      | (fs1, Ok _) => (fs1, [n], Ok n)
      | (fs1, Exn (ProcessException _)) =>
          let fs2 := if isdir fs1 dest then rmtree dest fs1 else fs1 in
          let '(fs3, tried, r) := import_clone rest fs2 in
          (fs3, n :: tried, r)
      | (fs1, Exn e) => (fs1, [n], Exn e)
      end
  end.

End ImportLoop.

(** A clone that leaves a directory behind and fails, for every backend. *)
Definition failing_clone (dest : str) (n : scm_name) (fs : Fs) : Fs * res unit :=
  ({| files := files fs; dirs := {[ dest ]} ∪ dirs fs |}, Exn (ProcessException 128)).

(** ** The command [ls] (mbed.py lines 1264-1277) *)

(** What a command writes: a line on the standard output, or one of the
    messages of [event]. *)
Inductive out_item : Type :=
| Printed (line : str)
| Logged (e : event).

(** The order of Python byte strings. *)
Fixpoint str_leb (a b : str) : bool :=
  match a, b with
  | [], _ => true
  | _ :: _, [] => false
  | x :: a', y :: b' =>
      if (nat_of_ascii x <? nat_of_ascii y)%nat then true
      else if Ascii.eqb x y then str_leb a' b' else false
  end.

(** [sorted(libs, key=lambda l: l.path)]: a stable sort. *)
Fixpoint insert_by_path {T} (x : Repo * T) (l : list (Repo * T)) : list (Repo * T) :=
  match l with
  | [] => [x]
  | y :: l' => if str_leb (path (fst x)) (path (fst y)) then x :: y :: l'
               else y :: insert_by_path x l'
  end.
Definition sorted_by_path {T} (l : list (Repo * T)) : list (Repo * T) :=
  foldr insert_by_path [] l.

(** The prefix of the lines of a library, from the prefix of its parent:
    [prefix[-3]] is out of range for a prefix of one or two characters. *)
Definition next_prefix (prefix : str) (is_last : bool) : outcome str :=
  let mark := if is_last then L "`- " else L "|- " in
  match prefix with
  | [] => Returns mark
  | _ =>
      if (length prefix <? 3)%nat then Raises IndexError
      else Returns (take (length prefix - 3) prefix
                    ++ (if bool_decide (prefix !! (length prefix - 3) = Some "|"%char)
                        then L "|  " else L "   ")
                    ++ mark)
  end.

(** A call of [list_] in a library that waits for its prefix and for the
    path of its parent. *)
Definition lister : Type := str -> option str -> list out_item * outcome unit.

(** The recursive call, prepared for each library that is a repository. *)
Fixpoint list_prepare (rec : tree -> lister) (libs : list (Repo * on_disk tree))
  : list (Repo * on_disk lister) :=
  match libs with
  | [] => []
  | (l, d) :: rest =>
      (l, match d with
          | Repository t => Repository (rec t)
          | Absent => Absent
          | Plain => Plain
          end) :: list_prepare rec rest
  end.

(** The loop [for i, lib in enumerate(sorted(repo.libs, ...))], from the
    index [i], with [n = len(repo.libs)]. *)
Fixpoint list_libs (ignore : bool) (prefix parent : str) (n i : nat)
    (libs : list (Repo * on_disk lister)) : list out_item * outcome unit :=
  match libs with
  | [] => ([], Returns tt)
  | (l, d) :: rest =>
      match next_prefix prefix (negb (i <? n - 1)%nat) with
      | Raises e => ([], Raises e)
      | Returns nprefix =>
          match check_repo l d ignore with
          | (ev, Exn e) => (map Logged ev, Raises (Exc e))
          | (ev, Ok ok) =>
              match (if ok then match d with
                                | Repository f => f nprefix (Some parent)
                                | _ => ([], Returns tt)
                                end
                     else ([], Returns tt)) with
              | (out, Raises e) => (map Logged ev ++ out, Raises e)
              | (out, Returns _) =>
                  let (out', r) := list_libs ignore prefix parent n (S i) rest in
                  (map Logged ev ++ out ++ out', r)
              end
          end
      end
  end.

(** [list_(all, prefix, p_path, ignore)] in the working tree [t].  Every
    call opens with [Repo.fromrepo()]: [load p] is the exception that stops
    it in the repository at [p], if one does (the exit on an invalid
    reference or on a Keil library found below [p], on a directory without
    a backend), and nothing is printed then. *)
Fixpoint list_ (load : str -> option exn) (all ignore : bool) (t : tree) {struct t} : lister :=
  match t with
  | Tree repo io libs =>
      fun prefix p_path =>
        match load (path repo) with
        | Some e => ([], Raises (Exc e))
        | None =>
            let label := if truthy p_path then relpath (por p_path []) (path repo)
                         else name repo in
            let rev := por (if all then fullurl repo else hash repo) (L "no revision") in
            let line := prefix ++ label ++ L " " ++ L "(" ++ rev ++ L ")" in
            let (out, r) :=
              list_libs ignore prefix (path repo) (length libs) 0
                (sorted_by_path (list_prepare (list_ load all ignore) libs)) in
            (Printed line :: out, r)
        end
  end.

(** The number of repositories of a working tree. *)
Fixpoint count_libs (rec : tree -> nat) (libs : list (Repo * on_disk tree)) : nat :=
  match libs with
  | [] => 0
  | (_, Repository t) :: rest => rec t + count_libs rec rest
  | _ :: rest => count_libs rec rest
  end.
Fixpoint repositories (t : tree) : nat :=
  match t with Tree _ _ libs => S (count_libs repositories libs) end.

Definition printed (o : out_item) : bool :=
  match o with Printed _ => true | Logged _ => false end.

Definition count_printed (out : list out_item) : nat := length (List.filter printed out).

(** A prefix that [list_] can extend: empty, or of three characters or
    more. *)
Definition prefix_ok (prefix : str) : Prop := prefix = [] \/ 3 <= length prefix.

(** Why [list_] stops in the tree [t]: [Repo.fromrepo()] stops in one
    of its repositories, or a library reference of one of them points to no
    directory or to a directory that is no repository. *)
Definition load_stops (load : str -> option exn) (t : tree) (e : pyexn) : Prop :=
  exists n e0, reach t n /\ load (path (tree_repo n)) = Some e0 /\ e = Exc e0.

Definition broken_reference (t : tree) (e : pyexn) : Prop :=
  exists n l, reach t n
    /\ ((In (l, Absent) (tree_libs n) /\ e = Exc (SystemExit 1 (msg_missing_library l)))
        \/ (In (l, Plain) (tree_libs n) /\ e = Exc (SystemExit 1 (msg_not_repository l)))).

Definition list_stop (load : str -> option exn) (ignore : bool) (t : tree) (e : pyexn) : Prop :=
  load_stops load t e \/ (ignore = false /\ broken_reference t e).

(** What holds of a call of [list_] in the tree [t]. *)
Definition list_ok (load : str -> option exn) (all ignore : bool) (t : tree) : Prop :=
  forall prefix p_path, prefix_ok prefix ->
    (forall e, snd (list_ load all ignore t prefix p_path) = Raises e -> list_stop load ignore t e)
    /\ (snd (list_ load all ignore t prefix p_path) = Returns tt ->
        count_printed (fst (list_ load all ignore t prefix p_path)) = repositories t).

(** A program with a library whose reference file cannot be read as a
    reference: [Repo.fromrepo()] exits there. *)
Definition bad_reference_load (p : str) : option exn :=
  if str_eqb p (L "/w/p/a") then Some (SystemExit (-1) (L "Invalid repository (x)")) else None.

(** ** The root of the program (mbed.py lines 768-802) *)

Record Program : Type := mkProgram {
  prog_path : str;
  prog_name : str;
  is_cwd : bool;
  is_repo : option bool                 (* not set while [is_cwd] holds *)
}.

(** [os.path.isfile(os.path.join(path, program.config_file))] *)
Definition has_config (fs : Fs) (p : str) : bool := isfile fs (join p (L ".mbed")).

(** The loop of [Program.get_program]: [found] holds [program.path],
    [program.is_cwd] and [program.is_repo] as they stand. *)
Fixpoint get_program_loop (fuel : nat) (fs : Fs) (p : str) (found : str * bool * option bool)
  : str * bool * option bool :=
  if has_config fs p then (p, false, Some (isrepo fs p))
  else
    let found' := if isrepo fs p then (p, false, Some true) else found in
    match fuel with
    | 0 => found'
    | S fuel' =>
        if str_eqb p (dirname p) then found' else get_program_loop fuel' fs (dirname p) found'
    end.

(** [Program.get_program(path, warnings)] in the working directory [cwd]:
    the program and what is written. *)
Definition get_program (fs : Fs) (cwd path0 : str) (warnings : bool)
  : list event * Program :=
  let p := abspath cwd (por (Some path0) cwd) in
  let '(pp, c, r) := get_program_loop (length p) fs p (cwd, true, None) in
  (if warnings && c
   then [Warning (L "Could not mbed program in current path. Assuming current dir." ++ [nl]
                  ++ L "You can fix this by calling " ++ quoted (L "mbed new .")
                  ++ L " in the root dir of your program")]
   else [],
   {| prog_path := pp; prog_name := basename pp; is_cwd := c; is_repo := r |}).
(** * Properties *)

(** ** The matcher and the matches of a pattern *)

Module ReFacts.

Lemma startswith_app (pre s : str) :
  startswith pre s = true <-> exists rest, s = pre ++ rest.
Proof.
  revert s. induction pre as [|a pre IH]; intros s; cbn.
  - split; eauto.
  - destruct s as [|b s]; [split; [discriminate|intros [r H]; discriminate]|].
    rewrite andb_true_iff, IH. split.
    + intros [Hab [r ->]]. apply Ascii.eqb_eq in Hab as ->. eauto.
    + intros [r [= -> ->]]. split; [apply Ascii.eqb_refl|eauto].
Qed.


Lemma startswith_self (pre rest : str) : startswith pre (pre ++ rest) = true.
Proof. apply startswith_app. eauto. Qed.

Lemma within_pred hi n : within (pred <$> hi) n -> may_take hi = true -> within hi (S n).
Proof. destruct hi as [[|h]|]; cbn; intros; try discriminate; lia. Qed.

Lemma within_S hi n : within hi (S n) -> may_take hi = true /\ within (pred <$> hi) n.
Proof. destruct hi as [[|h]|]; cbn; intros; split; try reflexivity; lia. Qed.

Lemma in_stop_here lo s x : In x (stop_here lo s) <-> lo = 0 /\ x = s.
Proof.
  destruct lo; cbn; split.
  - intros [<-|[]]. auto.
  - intros [_ ->]. auto.
  - intros [].
  - intros [H _]. discriminate.
Qed.

Lemma takes_nil p lo hi s x : takes p lo hi s x -> s = [] -> lo = 0 /\ x = [].
Proof.
  intros (w & Hs & _ & Hlo & _) ->. symmetry in Hs. apply app_eq_nil in Hs as [-> ->].
  cbn in Hlo. split; [lia|reflexivity].
Qed.

Lemma takes_cons p lo hi a s x :
  takes p lo hi (a :: s) x <->
  (lo = 0 /\ x = a :: s)
  \/ (p a = true /\ may_take hi = true /\ takes p (pred lo) (pred <$> hi) s x).
Proof.
  split.
  - intros ([|b w] & Hs & Hp & Hlo & Hhi); cbn in *.
    + left. split; [lia|congruence].
    + right. injection Hs as <- ->. apply andb_true_iff in Hp as [Hpa Hp].
      apply within_S in Hhi as [Hm Hhi]. split; [exact Hpa|]. split; [exact Hm|].
      exists w. split; [reflexivity|]. split; [exact Hp|]. split; [lia|exact Hhi].
  - intros [[-> ->]|(Hpa & Hm & w & -> & Hp & Hlo & Hhi)].
    + exists []. cbn. split; [reflexivity|]. split; [reflexivity|]. split; [lia|].
      destruct hi; cbn; [lia|exact I].
    + exists (a :: w). cbn. rewrite Hpa, Hp. split; [reflexivity|]. split; [reflexivity|].
      split; [lia|]. apply within_pred; assumption.
Qed.

Lemma in_rep_greedy p lo hi s x : In x (rep_greedy p lo hi s) <-> takes p lo hi s x.
Proof.
  revert lo hi. induction s as [|a s IH]; intros lo hi; cbn.
  - rewrite in_stop_here. split.
    + intros [-> ->]. exists []. cbn. split; [reflexivity|]. split; [reflexivity|].
      split; [lia|]. destruct hi; cbn; [lia|exact I].
    + intros H. destruct (takes_nil _ _ _ _ _ H eq_refl) as [-> ->]. auto.
  - rewrite takes_cons. destruct (p a && may_take hi) eqn:E.
    + apply andb_true_iff in E as [Hpa Hm]. rewrite in_app_iff, in_stop_here, IH. tauto.
    + rewrite in_stop_here. apply andb_false_iff in E. split; [tauto|].
      intros [H|(Hpa & Hm & _)]; [exact H|]. destruct E; congruence.
Qed.

Lemma in_rep_lazy p lo hi s x : In x (rep_lazy p lo hi s) <-> takes p lo hi s x.
Proof.
  revert lo hi. induction s as [|a s IH]; intros lo hi; cbn.
  - rewrite in_stop_here. split.
    + intros [-> ->]. exists []. cbn. split; [reflexivity|]. split; [reflexivity|].
      split; [lia|]. destruct hi; cbn; [lia|exact I].
    + intros H. destruct (takes_nil _ _ _ _ _ H eq_refl) as [-> ->]. auto.
  - rewrite takes_cons. destruct (p a && may_take hi) eqn:E.
    + apply andb_true_iff in E as [Hpa Hm]. rewrite in_app_iff, in_stop_here, IH. tauto.
    + rewrite in_stop_here. apply andb_false_iff in E. split; [tauto|].
      intros [H|(Hpa & Hm & _)]; [exact H|]. destruct E; congruence.
Qed.

(** A match leaves a suffix of the subject. *)
Lemma matched_suffix n0 r : forall s c s' c',
  matched n0 r s c s' c' -> exists w, s = w ++ s'.
Proof.
  induction r as [|p|l|r1 IH1 r2 IH2|r1 IH1 r2 IH2|g lo hi p|r IH|n r IH| |];
    intros s c s' c'; cbn.
  - intros [-> _]. exists []. reflexivity.
  - intros (a & -> & _). exists [a]. reflexivity.
  - intros [-> _]. eauto.
  - intros (s1 & c1 & H1 & H2). destruct (IH1 _ _ _ _ H1) as [w1 ->].
    destruct (IH2 _ _ _ _ H2) as [w2 ->]. exists (w1 ++ w2). rewrite app_assoc. reflexivity.
  - intros [H|H]; eauto.
  - intros (_ & w & -> & _). eauto.
  - intros [H|[-> _]]; [eauto|]. exists []. reflexivity.
  - intros (c1 & w & _ & -> & _). eauto.
  - intros (_ & -> & _). exists []. reflexivity.
  - intros (_ & -> & _). exists []. reflexivity.
Qed.

Lemma take_consumed (w s' : str) : take (length (w ++ s') - length s') (w ++ s') = w.
Proof.
  rewrite length_app. replace (length w + length s' - length s') with (length w) by lia.
  apply take_app_length.
Qed.

(** The matcher lists exactly the matches. *)
Theorem in_ms n0 r : forall s c s' c',
  In (s', c') (ms n0 r s c) <-> matched n0 r s c s' c'.
Proof.
  induction r as [|p|l|r1 IH1 r2 IH2|r1 IH1 r2 IH2|g lo hi p|r IH|n r IH| |];
    intros s c s' c'; cbn.
  - split; [intros [[= <- <-]|[]]; auto | intros [-> ->]; auto].
  - destruct s as [|a s]; [split; [intros []|intros (a & H & _); discriminate]|].
    destruct (p a) eqn:E; cbn.
    + split; [intros [[= <- <-]|[]]; eauto|]. intros (b & [= <- <-] & _ & ->). auto.
    + split; [intros []|]. intros (b & [= <- <-] & H & _). congruence.
  - destruct (startswith l s) eqn:E.
    + apply startswith_app in E as [rest ->]. cbn. rewrite drop_app_length. split.
      * intros [[= <- <-]|[]]. auto.
      * intros [H ->]. apply app_inv_head in H as ->. auto.
    + split; [intros []|]. intros [-> _]. rewrite startswith_self in E. discriminate.
  - rewrite in_flat_map. split.
    + intros ([s1 c1] & H1 & H2). apply IH1 in H1. apply IH2 in H2. eauto.
    + intros (s1 & c1 & H1 & H2). exists (s1, c1). rewrite IH1, IH2. auto.
  - rewrite in_app_iff, IH1, IH2. tauto.
  - rewrite in_map_iff. fold (takes p lo hi s s'). split.
    + intros (x & [= -> ->] & H). split; [reflexivity|].
      destruct g; [apply in_rep_greedy|apply in_rep_lazy]; exact H.
    + intros [-> H]. exists s'. split; [reflexivity|].
      destruct g; [apply in_rep_greedy|apply in_rep_lazy]; exact H.
  - rewrite in_app_iff, IH. cbn. split.
    + intros [H|[[= <- <-]|[]]]; auto.
    + intros [H|[-> ->]]; auto.
  - rewrite in_map_iff. split.
    + intros ([s1 c1] & [= -> <-] & H). apply IH in H.
      destruct (matched_suffix _ _ _ _ _ _ H) as [w ->].
      exists c1, w. rewrite take_consumed. auto.
    + intros (c1 & w & H & -> & ->). exists (s', c1). cbn. rewrite take_consumed.
      split; [reflexivity|]. apply IH. exact H.
  - destruct (Nat.eqb_spec (length s) n0) as [E|E]; cbn.
    + split; [intros [[= <- <-]|[]]; auto | intros (_ & -> & ->); auto].
    + split; [intros []|intros (H & _); contradiction].
  - destruct s as [|a [|b s]]; cbn.
    + split; [intros [[= <- <-]|[]]; auto | intros (_ & -> & ->); auto].
    + destruct (Ascii.eqb_spec a nl) as [->|E]; cbn.
      * split; [intros [[= <- <-]|[]]; auto | intros (_ & -> & ->); auto].
      * split; [intros []|]. intros ([H|H] & _); [discriminate|]. congruence.
    + split; [intros []|]. intros ([H|H] & _); discriminate.
Qed.

(** [re.match] returns one of the matches, and fails only without any. *)
Lemma rmatch_matched n r s m :
  rmatch n r s = Some m ->
  exists s', matched (length s) r s (replicate (S n) None) s' m.
Proof.
  unfold rmatch. destruct (ms (length s) r s (replicate (S n) None)) as [|[s' c'] l] eqn:E;
    [discriminate|].
  intros H. cbn in H. injection H as <-. exists s'. apply in_ms. rewrite E. left. reflexivity.
Qed.

Lemma rmatch_none n r s :
  (forall s' m, ~ matched (length s) r s (replicate (S n) None) s' m) ->
  rmatch n r s = None.
Proof.
  intros H. unfold rmatch.
  destruct (ms (length s) r s (replicate (S n) None)) as [|[s' c'] l] eqn:E; [reflexivity|].
  exfalso. apply (H s' c'). apply in_ms. rewrite E. left. reflexivity.
Qed.

Lemma rmatch_some n r s s' m :
  matched (length s) r s (replicate (S n) None) s' m ->
  exists m', rmatch n r s = Some m'.
Proof.
  intros H. apply in_ms in H. unfold rmatch.
  destruct (ms (length s) r s (replicate (S n) None)) as [|[s1 c1] l]; [destruct H|].
  exists c1. reflexivity.
Qed.

Section Build.
Variable n0 : nat.

Lemma matched_cat r1 r2 s c s1 c1 s' c' :
  matched n0 r1 s c s1 c1 -> matched n0 r2 s1 c1 s' c' -> matched n0 (Cat r1 r2) s c s' c'.
Proof. cbn. eauto. Qed.

Lemma matched_lit l s c : matched n0 (Lit l) (l ++ s) c s c.
Proof. cbn. auto. Qed.

Lemma matched_cls (p : ascii -> bool) a s c : p a = true -> matched n0 (Cls p) (a :: s) c s c.
Proof. cbn. eauto. Qed.

Lemma matched_rep g lo hi p w s c :
  forallb p w = true -> lo <= length w -> within hi (length w) ->
  matched n0 (Rep g lo hi p) (w ++ s) c s c.
Proof. cbn. eauto 8. Qed.

Lemma matched_grp n r w s s' c c1 :
  s = w ++ s' -> matched n0 r s c s' c1 -> matched n0 (Grp n r) s c s' (<[n:=Some w]> c1).
Proof. cbn. eauto 8. Qed.

Lemma matched_opt_take r s c s' c' : matched n0 r s c s' c' -> matched n0 (Opt r) s c s' c'.
Proof. cbn. auto. Qed.

Lemma matched_opt_skip r s c : matched n0 (Opt r) s c s c.
Proof. cbn. auto. Qed.

Lemma matched_alt_l r1 r2 s c s' c' : matched n0 r1 s c s' c' -> matched n0 (Alt r1 r2) s c s' c'.
Proof. cbn. auto. Qed.

Lemma matched_alt_r r1 r2 s c s' c' : matched n0 r2 s c s' c' -> matched n0 (Alt r1 r2) s c s' c'.
Proof. cbn. auto. Qed.

Lemma matched_bol s c : length s = n0 -> matched n0 Bol s c s c.
Proof. cbn. auto. Qed.

Lemma matched_eol e c : e = [] \/ e = [nl] -> matched n0 Eol e c e c.
Proof. cbn. auto. Qed.

End Build.

Lemma matched_opt_chr n0 (a : ascii) (o s : str) c :
  o = [] \/ o = [a] -> matched n0 (Opt (Cls (chr a))) (o ++ s) c s c.
Proof.
  intros [->| ->]; [apply matched_opt_skip|].
  apply matched_opt_take. apply (matched_cls _ (chr a) a s). apply Ascii.eqb_refl.
Qed.

Lemma tail_inv (T x y : str) : x ++ T = y ++ T -> x = y.
Proof. apply app_inv_tail. Qed.

(** The last character of a string that ends with a non-empty run of a class. *)
Lemma last_char (P : ascii -> bool) (Z r z : str) (a : ascii) :
  Z ++ r = z ++ [a] -> 1 <= length r -> forallb P r = true -> P a = true.
Proof.
  intros H Hr HP. destruct r as [|b r] using rev_ind; [cbn in Hr; lia|].
  rewrite app_assoc in H. apply app_inj_tail in H as [_ <-].
  rewrite forallb_app in HP. apply andb_true_iff in HP as [_ HP]. cbn in HP.
  rewrite andb_true_r in HP. exact HP.
Qed.

End ReFacts.

Import ReFacts.

Module ReOrder.

Lemma head_flat_map {A B} (f : A -> list B) l x y :
  head l = Some x -> head (f x) = Some y -> head (flat_map f l) = Some y.
Proof.
  destruct l as [|a l]; [discriminate|]. intros [= ->]. cbn.
  destruct (f x) as [|b t]; [discriminate|]. intros [= ->]. reflexivity.
Qed.

Lemma flat_map_skip {A B} (f : A -> list B) l1 l2 :
  (forall a, In a l1 -> f a = []) -> flat_map f (l1 ++ l2) = flat_map f l2.
Proof.
  induction l1 as [|a l1 IH]; intros H; [reflexivity|]. cbn.
  rewrite (H a) by (left; reflexivity). cbn. apply IH. intros b Hb. apply H. right. exact Hb.
Qed.

Lemma ms_nil n0 r s c :
  (forall s' c', ~ matched n0 r s c s' c') -> ms n0 r s c = [].
Proof.
  intros H. destruct (ms n0 r s c) as [|[s' c'] l] eqn:E; [reflexivity|].
  exfalso. apply (H s' c'). apply in_ms. rewrite E. left. reflexivity.
Qed.

Lemma rmatch_first n r s s' m :
  first (length s) r s (replicate (S n) None) = Some (s', m) -> rmatch n r s = Some m.
Proof.
  unfold first, rmatch. destruct (ms _ r s _) as [|x l]; [discriminate|].
  intros [= ->]. reflexivity.
Qed.

Section First.
Variable n0 : nat.

Lemma first_cat r1 r2 s c s1 c1 x :
  first n0 r1 s c = Some (s1, c1) -> first n0 r2 s1 c1 = Some x ->
  first n0 (Cat r1 r2) s c = Some x.
Proof. unfold first. cbn [ms]. intros H1 H2. eapply head_flat_map; eauto. Qed.

(** The first candidate of [r1] that [r2] accepts decides. *)
Lemma first_cat_skip r1 r2 s c l1 s1 c1 l2 x :
  ms n0 r1 s c = l1 ++ (s1, c1) :: l2 ->
  (forall a, In a l1 -> ms n0 r2 (fst a) (snd a) = []) ->
  first n0 r2 s1 c1 = Some x ->
  first n0 (Cat r1 r2) s c = Some x.
Proof.
  unfold first. cbn [ms]. intros -> Hskip H.
  rewrite (flat_map_skip _ l1 _ Hskip). cbn.
  destruct (ms n0 r2 s1 c1) as [|b t]; [discriminate|]. exact H.
Qed.

Lemma first_lit l s c : first n0 (Lit l) (l ++ s) c = Some (s, c).
Proof. unfold first. cbn. rewrite startswith_self, drop_app_length. reflexivity. Qed.

Lemma first_cls (p : ascii -> bool) a s c :
  p a = true -> first n0 (Cls p) (a :: s) c = Some (s, c).
Proof. unfold first. cbn. intros ->. reflexivity. Qed.

Lemma first_grp n r w s s' c c1 :
  s = w ++ s' -> first n0 r s c = Some (s', c1) ->
  first n0 (Grp n r) s c = Some (s', <[n:=Some w]> c1).
Proof.
  unfold first. cbn [ms]. intros -> H.
  destruct (ms n0 r (w ++ s') c) as [|[s1 c2] l]; [discriminate|].
  injection H as -> ->. cbn. rewrite take_consumed. reflexivity.
Qed.

Lemma first_opt_take r s c x : first n0 r s c = Some x -> first n0 (Opt r) s c = Some x.
Proof.
  unfold first. cbn [ms]. destruct (ms n0 r s c); [discriminate|]. auto.
Qed.

Lemma first_opt_skip r s c : ms n0 r s c = [] -> first n0 (Opt r) s c = Some (s, c).
Proof. unfold first. cbn [ms]. intros ->. reflexivity. Qed.

Lemma first_alt_l r1 r2 s c x : first n0 r1 s c = Some x -> first n0 (Alt r1 r2) s c = Some x.
Proof.
  unfold first. cbn [ms]. destruct (ms n0 r1 s c); [discriminate|]. auto.
Qed.

Lemma first_alt_r r1 r2 s c x :
  ms n0 r1 s c = [] -> first n0 r2 s c = Some x -> first n0 (Alt r1 r2) s c = Some x.
Proof. unfold first. cbn [ms]. intros ->. auto. Qed.

Lemma first_bol s c : length s = n0 -> first n0 Bol s c = Some (s, c).
Proof. unfold first. cbn. intros ->. rewrite Nat.eqb_refl. reflexivity. Qed.

Lemma first_eol c : first n0 Eol [] c = Some ([], c).
Proof. reflexivity. Qed.

Lemma rep_greedy_stops p s : stops p s -> rep_greedy p 0 None s = [s].
Proof. destruct s as [|a s]; cbn; [reflexivity|]. intros ->. reflexivity. Qed.

(** A greedy repetition first takes the whole run. *)
Lemma rep_greedy_first p w : forall lo s,
  forallb p w = true -> lo <= length w -> stops p s ->
  head (rep_greedy p lo None (w ++ s)) = Some s.
Proof.
  induction w as [|a w IH]; intros lo s Hw Hlo Hs; cbn in *.
  - assert (lo = 0) as -> by lia. rewrite rep_greedy_stops by exact Hs. reflexivity.
  - apply andb_true_iff in Hw as [-> Hw]. cbn.
    specialize (IH (pred lo) s Hw ltac:(lia) Hs).
    destruct (rep_greedy p (pred lo) None (w ++ s)); [discriminate|]. exact IH.
Qed.

Lemma first_rep_greedy lo p w s c :
  forallb p w = true -> lo <= length w -> stops p s ->
  first n0 (Rep true lo None p) (w ++ s) c = Some (s, c).
Proof.
  intros Hw Hlo Hs. unfold first. cbn [ms].
  pose proof (rep_greedy_first p w lo s Hw Hlo Hs) as H.
  destruct (rep_greedy p lo None (w ++ s)); [discriminate|]. injection H as ->. reflexivity.
Qed.

(** The candidates a greedy repetition tries before it gives back to the
    run [w] are proper suffixes of what follows [w]. *)
Lemma rep_greedy_split p w : forall lo s,
  forallb p w = true -> lo <= length w ->
  exists l1 l2, rep_greedy p lo None (w ++ s) = l1 ++ s :: l2
                /\ forall x, In x l1 -> exists y, y <> [] /\ s = y ++ x.
Proof.
  induction w as [|a w IH]; intros lo s Hw Hlo; cbn in *.
  - assert (lo = 0) as -> by lia. destruct s as [|b s]; cbn.
    + exists [], []. split; [reflexivity|]. intros x [].
    + destruct (p b) eqn:E; cbn.
      * exists (rep_greedy p 0 None s), []. split; [reflexivity|].
        intros x Hx. apply in_rep_greedy in Hx as (w0 & -> & _). exists (b :: w0).
        split; [discriminate|reflexivity].
      * exists [], []. split; [reflexivity|]. intros x [].
  - apply andb_true_iff in Hw as [-> Hw]. cbn.
    destruct (IH (pred lo) s Hw ltac:(lia)) as (l1 & l2 & -> & H).
    exists l1, (l2 ++ stop_here lo (a :: w ++ s)). split; [|exact H].
    rewrite <- app_assoc. reflexivity.
Qed.

(** The candidates a lazy repetition tries before it has taken the run [w]
    leave a non-empty end of [w]. *)
Lemma rep_lazy_split p w : forall lo s,
  forallb p w = true -> lo <= length w ->
  exists l1 l2, rep_lazy p lo None (w ++ s) = l1 ++ s :: l2
                /\ forall x, In x l1 -> exists z y, y <> [] /\ w = z ++ y /\ x = y ++ s.
Proof.
  induction w as [|a w IH]; intros lo s Hw Hlo; cbn in *.
  - assert (lo = 0) as -> by lia. exists []. destruct s as [|b s]; cbn.
    + exists []. split; [reflexivity|]. intros x [].
    + destruct (p b); cbn; eexists; (split; [reflexivity|]); intros x [].
  - apply andb_true_iff in Hw as [-> Hw]. cbn.
    destruct (IH (pred lo) s Hw ltac:(lia)) as (l1 & l2 & -> & H).
    exists (stop_here lo (a :: w ++ s) ++ l1), l2. split; [rewrite <- app_assoc; reflexivity|].
    intros x Hx. apply in_app_or in Hx as [Hx|Hx].
    + apply in_stop_here in Hx as [_ ->]. exists [], (a :: w).
      split; [discriminate|]. split; reflexivity.
    + destruct (H x Hx) as (z & y & Hy & -> & ->). exists (a :: z), y. auto.
Qed.

End First.

End ReOrder.

Import ReOrder.

(** ** URL ownership *)

(** C2, refuted as stated: a plain https locator is accepted by both
    backends. *)
Lemma isurl_both_accept :
  Hg_isurl (L "https://github.com/ARMmbed/mbed-os") = true
  /\ Git_isurl (L "https://github.com/ARMmbed/mbed-os") = true.
Proof. split; vm_compute; reflexivity. Qed.

Lemma hg_none_git (g : str) : startswith (L "git") g = true -> m_hg g = None.
Proof.
  intros H. apply startswith_app in H as [rest ->].
  apply rmatch_none. intros s' m H. unfold regex_hg_url in H. cbn [seq matched] in H.
  destruct H as (s1 & c1 & (_ & -> & ->) & s2 & c2 & (c3 & g1 & H & _) & _).
  destruct H as [[H _]|[[H _]|(s3 & c4 & (H & _) & _)]]; discriminate.
Qed.

Lemma mbed_none_git (g : str) : startswith (L "git") g = true -> m_mbed g = None.
Proof.
  intros H. apply startswith_app in H as [rest ->].
  apply rmatch_none. intros s' m H. unfold regex_mbed_url in H. cbn [seq matched] in H.
  destruct H as (s1 & c1 & (_ & -> & ->) & s2 & c2 & (c3 & g1 & (s3 & c4 & (H & _) & _) & _) & _).
  discriminate.
Qed.

Lemma git_none_file (g : str) : startswith (L "file") g = true -> m_git g = None.
Proof.
  intros H. apply startswith_app in H as [rest ->].
  apply rmatch_none. intros s' m H. unfold regex_git_url in H. cbn [seq matched] in H.
  destruct H as (s1 & c1 & (_ & -> & ->) & s2 & c2 & (c3 & g1 & H & _) & _).
  destruct H as [[H _]|[[H _]|[[H _]|(s3 & c4 & (H & _) & _)]]]; discriminate.
Qed.

(** C2, amended: the two tests exclude each other on the shapes that one
    grammar owns.  A locator whose url part has the mbed-hosted shape is
    accepted by [Hg.isurl] and refused by [Git.isurl]; one whose url part
    starts with [git] (the [git@] and [git://] forms) is refused by
    [Hg.isurl]; one whose url part starts with [file] is refused by
    [Git.isurl].  When both accept, the url part is in both the hg and the
    git grammar and not in the mbed one. *)
Theorem isurl_exclusive_shapes (u : str) (m : caps) :
  m_url_ref (unbackslash (strip u)) = Some m ->
  (is_some (m_mbed (gfmt m 1)) = true -> Hg_isurl u = true /\ Git_isurl u = false)
  /\ (startswith (L "git") (gfmt m 1) = true -> Hg_isurl u = false)
  /\ (startswith (L "file") (gfmt m 1) = true -> Git_isurl u = false)
  /\ (Hg_isurl u = true -> Git_isurl u = true ->
      is_some (m_hg (gfmt m 1)) = true /\ is_some (m_git (gfmt m 1)) = true
      /\ is_some (m_mbed (gfmt m 1)) = false).
Proof.
  intros Hm. unfold Hg_isurl, Git_isurl. rewrite Hm. split; [|split; [|split]].
  - intros ->. split; [apply orb_true_r | apply andb_false_r].
  - intros H. rewrite (hg_none_git _ H), (mbed_none_git _ H). reflexivity.
  - intros H. rewrite (git_none_file _ H). reflexivity.
  - destruct (m_hg (gfmt m 1)), (m_git (gfmt m 1)), (m_mbed (gfmt m 1)); cbn;
      intros; try discriminate; auto.
Qed.

Lemma isurl_exclusive_shapes_witness :
  (Hg_isurl (L "https://developer.mbed.org/users/mbed_official/code/mbed/") = true
   /\ Git_isurl (L "https://developer.mbed.org/users/mbed_official/code/mbed/") = false)
  /\ Hg_isurl (L "git@github.com:ARMmbed/mbed-os.git") = false
  /\ Git_isurl (L "file://server/repos/lib") = false.
Proof.
  split; [|split].
  - refine (proj1 (isurl_exclusive_shapes
             (L "https://developer.mbed.org/users/mbed_official/code/mbed/")
             (the_match (m_url_ref (L "https://developer.mbed.org/users/mbed_official/code/mbed/")))
             _) _); vm_compute; reflexivity.
  - refine (proj1 (proj2 (isurl_exclusive_shapes (L "git@github.com:ARMmbed/mbed-os.git")
             (the_match (m_url_ref (L "git@github.com:ARMmbed/mbed-os.git"))) _)) _);
      vm_compute; reflexivity.
  - refine (proj1 (proj2 (proj2 (isurl_exclusive_shapes (L "file://server/repos/lib")
             (the_match (m_url_ref (L "file://server/repos/lib"))) _))) _);
      vm_compute; reflexivity.
Defined.

(** ** The program configuration store *)

Lemma list_remove_first_length x lines :
  length (list_remove_first x lines) <= length lines.
Proof.
  induction lines as [|y ys IH]; cbn; [lia|]. destruct (str_eqb x y); cbn; lia.
Qed.

(** The loop of [set_cfg] ends within [length lines - i] steps. *)
Lemma set_cfg_loop_fuel (fuel : nat) (var : str) : forall i lines,
  length lines <= i + fuel ->
  set_cfg_loop (S fuel) var i lines = set_cfg_loop fuel var i lines.
Proof.
  induction fuel as [|fuel IH]; intros i lines Hlen.
  - cbn. rewrite lookup_ge_None_2 by lia. reflexivity.
  - change (set_cfg_loop (S (S fuel)) var i lines)
      with (match lines !! i with
            | None => lines
            | Some line =>
                set_cfg_loop (S fuel) var (S i)
                  (if cfg_key_is var line then list_remove_first line lines else lines)
            end).
    change (set_cfg_loop (S fuel) var i lines)
      with (match lines !! i with
            | None => lines
            | Some line =>
                set_cfg_loop fuel var (S i)
                  (if cfg_key_is var line then list_remove_first line lines else lines)
            end).
    destruct (lines !! i) as [line|]; [|reflexivity].
    apply IH. destruct (cfg_key_is var line); [|lia].
    pose proof (list_remove_first_length line lines). lia.
Qed.

(** The loop of [set_cfg] only ever removes lines of the key: the other
    lines stay, in their order. *)
Lemma list_remove_first_others (var x : str) (lines : list str) :
  cfg_key_is var x = true ->
  filter (fun l => cfg_key_is var l = false) (list_remove_first x lines)
  = filter (fun l => cfg_key_is var l = false) lines.
Proof.
  intros Hx. induction lines as [|y ys IH]; [reflexivity|]. cbn [list_remove_first].
  unfold str_eqb. destruct (bool_decide_reflect (x = y)) as [<-|_].
  - rewrite filter_cons_False by congruence. reflexivity.
  - rewrite !filter_cons. rewrite IH. reflexivity.
Qed.

Lemma set_cfg_loop_others (fuel : nat) (var : str) : forall i lines,
  filter (fun l => cfg_key_is var l = false) (set_cfg_loop fuel var i lines)
  = filter (fun l => cfg_key_is var l = false) lines.
Proof.
  induction fuel as [|fuel IH]; intros i lines; [reflexivity|]. cbn [set_cfg_loop].
  destruct (lines !! i) as [line|]; [|reflexivity]. rewrite IH.
  destruct (cfg_key_is var line) eqn:E; [|reflexivity].
  apply list_remove_first_others. exact E.
Qed.

(** A line [var=val] is read back as the key and the value. *)
Lemma cfg_line_match (var val : str) :
  forallb cls_name var = true -> 1 <= length var -> forallb dot val = true ->
  exists m, m_cfg (var ++ L "=" ++ val) = Some m
            /\ group m 1 = Some var /\ group m 2 = Some val.
Proof.
  intros Hvar Hvar1 Hval.
  exists (<[2:=Some val]> (<[1:=Some var]> (replicate 3 None))).
  split; [|split; reflexivity].
  apply (rmatch_first 2 _ _ []). unfold regex_cfg. cbn [seq].
  eapply first_cat; [apply first_bol; reflexivity|].
  eapply first_cat.
  { apply (first_grp _ 1 _ var); [reflexivity|].
    apply first_rep_greedy; [exact Hvar|exact Hvar1|reflexivity]. }
  eapply first_cat; [apply (first_lit _ (L "="))|].
  eapply first_cat; [|apply first_eol].
  apply first_opt_take. apply first_grp; [symmetry; apply app_nil_r|].
  pose proof (first_rep_greedy (length (var ++ L "=" ++ val)) 0 dot val []
                (<[1:=Some var]> (replicate 3 None)) Hval ltac:(lia) I) as H.
  rewrite app_nil_r in H. exact H.
Qed.

(** Without the slip the first half of C5 holds: when no line of the key
    is left before the new one, [get_cfg] finds the value just set. *)
Lemma get_cfg_loop_appended (var val : str) (lines : list str) :
  forallb cls_name var = true -> 1 <= length var -> forallb dot val = true ->
  Forall (fun l => cfg_key_is var l = false) lines ->
  get_cfg_loop var (lines ++ [var ++ L "=" ++ val]) = Some val.
Proof.
  intros Hvar Hvar1 Hval Hlines.
  induction Hlines as [|l ls Hl _ IH]; cbn [app get_cfg_loop].
  - destruct (cfg_line_match var val Hvar Hvar1 Hval) as (m & -> & G1 & G2).
    rewrite G1. unfold opt_str_eqb. rewrite bool_decide_eq_true_2 by reflexivity. exact G2.
  - unfold cfg_key_is in Hl. destruct (m_cfg l) as [m|]; [|exact IH].
    rewrite Hl. exact IH.
Qed.

(** C5, at the input where it fails: with two lines for the key, the loop
    of [set_cfg] steps over the second one after it has removed the first,
    and [get_cfg] then returns the old value of that second line. *)
Theorem set_cfg_repeated_key :
  let before := L "TARGET=K64F" ++ [nl] ++ L "TARGET=LPC1768" ++ [nl] in
  set_cfg (L "TARGET") (L "NRF51822") (Some before)
    = L "TARGET=LPC1768" ++ [nl] ++ L "TARGET=NRF51822" ++ [nl]
  /\ get_cfg (L "TARGET") (Some (set_cfg (L "TARGET") (L "NRF51822") (Some before)))
     = Some (L "LPC1768")
  /\ get_cfg (L "TARGET") (Some (set_cfg (L "TARGET") (L "NRF51822") (Some before)))
     <> Some (L "NRF51822").
Proof.
  vm_compute. split; [reflexivity|]. split; [reflexivity|]. discriminate.
Qed.

(** ** Backends *)

(** C7: when the outgoing-commits query exits with status 1, [Hg.outgoing]
    returns false and [Git.outgoing] returns true; with any other non-zero
    status both raise the [ProcessException] of that status again. *)
Theorem outgoing_exit_status (run : runner) (rc : Z) :
  returncode (run [hg_cmd; L "outgoing"]) = rc ->
  returncode (run [git_cmd; L "log"; L "origin.."]) = rc ->
  (rc = 1%Z -> Hg_outgoing run = Ok false /\ Git_outgoing run = Ok true)
  /\ (rc <> 0%Z -> rc <> 1%Z ->
      Hg_outgoing run = Exn (ProcessException rc)
      /\ Git_outgoing run = Exn (ProcessException rc)).
Proof.
  intros Hh Hg. unfold Hg_outgoing, Git_outgoing, pquery. rewrite Hh, Hg.
  split.
  - intros ->. split; reflexivity.
  - intros H0 H1.
    destruct (Z.eqb_spec rc 0) as [|_]; [contradiction|].
    destruct (Z.eqb_spec rc 1) as [|_]; [contradiction|].
    split; reflexivity.
Qed.


Lemma outgoing_exit_status_witness :
  (Hg_outgoing (const_runner 1 []) = Ok false
   /\ Git_outgoing (const_runner 1 []) = Ok true)
  /\ (Hg_outgoing (const_runner 255 []) = Exn (ProcessException 255)
      /\ Git_outgoing (const_runner 255 []) = Exn (ProcessException 255)).
Proof.
  split.
  - apply (outgoing_exit_status (const_runner 1 []) 1); reflexivity.
  - apply (outgoing_exit_status (const_runner 255 []) 255); [reflexivity | reflexivity | lia | lia].
Defined.

(** ** The detached-head test *)

Lemma msg_detached_not_nil cwd_type b : msg_detached cwd_type b <> [].
Proof. discriminate. Qed.

(** C9: [update] stops with the detached-head error exactly when the call
    is the top-level one, no revision was asked for and the backend's
    [isdetached] answers true; [Hg.isdetached] answers false on every
    call, so an hg repository passes the test whatever the arguments. *)
Theorem update_detached_exactly (cwd_type : str) (top : bool) (rev : option str)
    (repo : Repo) (run : runner) (n : scm_name) :
  scm repo = Some n ->
  (update_detached cwd_type top rev repo run
     = Exn (SystemExit 1 (msg_detached cwd_type (scms n)))
   <-> top = true /\ truthy rev = false /\ isdetached (scms n) run = Ok true)
  /\ (forall e, update_detached cwd_type top rev repo run = Exn e ->
        e = SystemExit 1 (msg_detached cwd_type (scms n))
        \/ (exists rc, e = ProcessException rc /\ isdetached (scms n) run = Exn e))
  /\ (forall run', isdetached Hg run' = Ok false)
  /\ (n = hg -> update_detached cwd_type top rev repo run = Ok tt).
Proof.
  intros Hscm. unfold update_detached, the_scm. rewrite Hscm. cbn [bind].
  assert (Hraise : forall e, isdetached (scms n) run = Exn e -> exists rc, e = ProcessException rc).
  { intros e E. destruct n; cbn in E; [discriminate|].
    unfold Git_isdetached, pquery in E.
    destruct (returncode _ =? 0)%Z; [discriminate|]. injection E as <-. eauto. }
  split; [split|split; [|split]].
  - destruct top, (truthy rev); cbn; try discriminate.
    destruct (isdetached (scms n) run) as [[|]|e] eqn:E; cbn; try discriminate; auto.
    destruct (Hraise e eq_refl) as [rc ->]. discriminate.
  - intros (-> & -> & ->). reflexivity.
  - intros e. destruct top, (truthy rev); cbn; try discriminate.
    destruct (isdetached (scms n) run) as [[|]|e'] eqn:E; cbn; try discriminate.
    + intros [= <-]. left. reflexivity.
    + intros [= <-]. right. destruct (Hraise e' eq_refl) as [rc ->]. eauto.
  - reflexivity.
  - intros ->. cbn. destruct top, (truthy rev); reflexivity.
Qed.


Lemma update_detached_exactly_witness :
  update_detached (L "program") true None (git_repo_at (L "/w/prog"))
      (const_runner 0 (L "HEAD" ++ [nl]))
    = Exn (SystemExit 1 (msg_detached (L "program") Git)).
Proof.
  apply (update_detached_exactly (L "program") true None (git_repo_at (L "/w/prog"))
           (const_runner 0 (L "HEAD" ++ [nl])) git); [reflexivity|].
  split; [reflexivity|split; reflexivity].
Defined.

(** ** The safety gate *)


Lemma gate_messages_distinct (self : Repo) :
  msg_local_library self <> msg_uncommitted self
  /\ msg_local_library self <> msg_unpublished self
  /\ msg_uncommitted self <> msg_unpublished self.
Proof. split; [|split]; discriminate. Qed.

(** C1: [can_update] allows exactly when (a) the repository has a remote
    url and is not local, or [force]; (b) the working tree is not dirty, or
    [clean]; (c) nothing is outgoing, or [force]; and a refusal carries
    the message of the first condition that fails, the three messages
    being different from one another. *)
Theorem can_update_gate (self : Repo) (clean force : bool) (run : runner) :
  (can_update self clean force run = Ok (true, L "OK")
   <-> (has_remote self \/ force = true)
       /\ (tree_clean self run \/ clean = true)
       /\ (nothing_outgoing self run \/ force = true))
  /\ (forall msg, can_update self clean force run = Ok (false, msg) ->
        (~ (has_remote self \/ force = true) /\ msg = msg_local_library self)
        \/ (~ (tree_clean self run \/ clean = true) /\ msg = msg_uncommitted self)
        \/ (~ (nothing_outgoing self run \/ force = true) /\ msg = msg_unpublished self))
  /\ (forall ok msg, can_update self clean force run = Ok (ok, msg) ->
        (ok = true /\ msg = L "OK") \/ (ok = false /\ msg <> []))
  /\ (msg_local_library self <> msg_uncommitted self
      /\ msg_local_library self <> msg_unpublished self
      /\ msg_uncommitted self <> msg_unpublished self).
Proof.
  assert (Ha : (is_local self || negb (is_some (url self))) && negb force = false
               <-> has_remote self \/ force = true).
  { unfold has_remote. destruct (is_local self), (url self), force; cbn;
      intuition (try discriminate; try congruence). }
  assert (Hb : forall d,
             (if negb clean
              then (b <- the_scm self ;; out <- dirty b run ;; Ok (truthy (Some out)))
              else Ok false) = d ->
             (d = Ok false <-> tree_clean self run \/ clean = true)).
  { intros d <-. unfold tree_clean. destruct clean; cbn.
    - intuition.
    - destruct (the_scm self) as [b|e]; cbn.
      + destruct (dirty b run) as [[|a o]|e] eqn:E; cbn.
        * split; [intros _; left; eauto | reflexivity].
        * split; [discriminate|]. intros [(b' & [= <-] & H)|]; congruence.
        * split; [discriminate|]. intros [(b' & [= <-] & H)|]; congruence.
      + split; [discriminate|]. intros [(b' & H & _)|]; congruence. }
  assert (Hc : forall o,
             (if negb force then (b <- the_scm self ;; outgoing b run) else Ok false) = o ->
             (o = Ok false <-> nothing_outgoing self run \/ force = true)).
  { intros o <-. unfold nothing_outgoing. destruct force; cbn.
    - intuition.
    - destruct (the_scm self) as [b|e]; cbn.
      + split; [intros H; left; eauto|]. intros [(b' & [= <-] & H)|]; congruence.
      + split; [discriminate|]. intros [(b' & H & _)|]; congruence. }
  pose proof (gate_messages_distinct self) as Hdist.
  unfold can_update, can_update_err.
  destruct ((is_local self || negb (is_some (url self))) && negb force) eqn:E1.
  { assert (Hna : ~ (has_remote self \/ force = true)).
    { intros H. apply Ha in H. discriminate. }
    cbn. split; [split|split; [|split]]; try discriminate; try exact Hdist.
    - intros (H & _). contradiction.
    - intros msg [= <-]. left. auto.
    - intros ok msg [= <- <-]. right. split; [reflexivity|discriminate]. }
  pose proof (proj1 Ha eq_refl) as Hya.
  specialize (Hb _ eq_refl). specialize (Hc _ eq_refl).
  destruct (if negb clean then _ else _) as [[|]|e]; cbn.
  - assert (Hnb : ~ (tree_clean self run \/ clean = true)).
    { intros H. apply Hb in H. discriminate. }
    split; [split|split; [|split]]; try discriminate; try exact Hdist.
    + intros (_ & H & _). contradiction.
    + intros msg [= <-]. right; left. auto.
    + intros ok msg [= <- <-]. right. split; [reflexivity|discriminate].
  - assert (Hyb : tree_clean self run \/ clean = true) by (apply Hb; reflexivity).
    destruct (if negb force then _ else _) as [[|]|e]; cbn.
    + assert (Hnc : ~ (nothing_outgoing self run \/ force = true)).
      { intros H. apply Hc in H. discriminate. }
      split; [split|split; [|split]]; try discriminate; try exact Hdist.
      * intros (_ & _ & H). contradiction.
      * intros msg [= <-]. right; right. auto.
      * intros ok msg [= <- <-]. right. split; [reflexivity|discriminate].
    + assert (Hyc : nothing_outgoing self run \/ force = true) by (apply Hc; reflexivity).
      split; [split|split; [|split]]; try discriminate; try exact Hdist; auto.
      intros ok msg [= <- <-]. left. auto.
    + assert (Hnc : ~ (nothing_outgoing self run \/ force = true)).
      { intros H. apply Hc in H. discriminate. }
      split; [split|split; [|split]]; try discriminate; try exact Hdist.
      intros (_ & _ & H). contradiction.
  - assert (Hnb : ~ (tree_clean self run \/ clean = true)).
    { intros H. apply Hb in H. discriminate. }
    split; [split|split; [|split]]; try discriminate; try exact Hdist.
    intros (_ & H & _). contradiction.
Qed.

(** ** [publish] *)

Section PublishFacts.

Variable cwd_root : str.

Abbreviation publish' := (publish cwd_root).
Abbreviation lib_events' := (lib_events cwd_root).
Abbreviation lib_published' := (lib_published cwd_root).

(** Induction on working trees. *)
Lemma tree_induction (P : tree -> Prop)
    (step : forall repo io libs, Forall (sub_ok P) libs -> P (Tree repo io libs)) :
  forall t, P t.
Proof.
  fix IH 1. intros [repo io libs]. apply step.
  induction libs as [|[r d] l' IHl]; constructor; [|exact IHl].
  destruct d as [| |t']; cbn; [exact I | exact I | apply IH].
Qed.

Lemma publish_libs_ok (all : bool) (libs : list (Repo * on_disk tree)) (u : unit) :
  snd (publish_libs (publish' false all) libs) = Ok u ->
  fst (publish_libs (publish' false all) libs) = concat (map (lib_events' all) libs)
  /\ Forall (lib_published' all) libs.
Proof.
  induction libs as [|[l d] rest IH]; cbn.
  - intros _. split; [reflexivity | constructor].
  - destruct d as [| |t]; cbn; try discriminate.
    destruct (publish' false all t) as [evt [[]|e]] eqn:E; cbn; try discriminate.
    destruct (publish_libs (publish' false all) rest) as [ev' r] eqn:E'; cbn in *.
    intros ->. destruct (IH eq_refl) as [-> HF]. split.
    + reflexivity.
    + constructor; [|exact HF]. exists t. rewrite E. split; reflexivity.
Qed.

Lemma publish_self_events (all : bool) (repo : Repo) (io : node_io) :
  let evs := fst (publish_self cwd_root all repo io) in
  hd_error evs = Some (Synced (path repo))
  /\ (In (Committed (path repo)) evs <->
      exists u d, io_sync io = Ok u /\ io_dirty io = Ok d /\ d <> [])
  /\ (forall p a, In (Pushed p a) evs <->
      p = path repo /\ a = all
      /\ exists u d, io_sync io = Ok u /\ io_dirty io = Ok d
                     /\ (d <> [] -> exists u', io_commit io = Ok u')
                     /\ io_outgoing io = Ok true).
Proof.
  unfold publish_self, publish_commit, publish_push.
  destruct (io_sync io) as [u|e]; cbn.
  2:{ split; [reflexivity|]. split.
      - split; [intros [H|[]]; discriminate | intros (u & d & H & _); discriminate].
      - intros p a. split; [intros [H|[]]; discriminate | intros (_ & _ & u & d & H & _); discriminate]. }
  destruct (io_dirty io) as [[|c d]|e]; cbn.
  - destruct (io_outgoing io) as [[|]|e]; cbn.
    + destruct (io_push io all) as [[]|[rc| | |]]; cbn;
        try destruct (negb (rc =? 1)%Z); cbn;
        (split; [reflexivity|]; split;
         [ split; [intros [H|[H|[H|[]]]]; discriminate
                  | intros (u' & d & _ & [= <-] & H); congruence]
         | intros p a; split;
           [ intros [H|[H|[H|[]]]]; try discriminate; injection H as <- <-;
             split; [reflexivity|]; split; [reflexivity|];
             exists u, []; intuition congruence
           | intros (-> & -> & _); right; right; left; reflexivity ] ]).
    + split; [reflexivity|]; split.
      * split; [intros [H|[]]; discriminate | intros (u' & d & _ & [= <-] & H); congruence].
      * intros p a; split; [intros [H|[]]; discriminate|].
        intros (_ & _ & u' & d & _ & _ & _ & H); discriminate.
    + assert (Hev : forall r0 : res unit,
                 fst (let (evc, r) := match r0 with
                                      | Exn (ProcessException e0) =>
                                          if negb (e0 =? 1)%Z
                                          then ([] : list event, Exn (ProcessException e0))
                                          else ([], Ok tt)
                                      | _ => ([], r0)
                                      end in (Synced (path repo) :: evc, r))
                 = [Synced (path repo)]).
      { intros [[]|[rc| | |]]; cbn; try reflexivity. destruct (negb _); reflexivity. }
      destruct e as [rc| | |]; cbn; try destruct (negb (rc =? 1)%Z); cbn;
        (split; [reflexivity|]; split;
         [ split; [intros [H|[]]; discriminate | intros (u' & d & _ & [= <-] & H); congruence]
         | intros p a; split; [intros [H|[]]; discriminate|];
           intros (_ & _ & u' & d & _ & _ & _ & H); discriminate ]).
  - destruct (io_commit io) as [[]|e]; cbn.
    + destruct (io_outgoing io) as [[|]|e]; cbn.
      * destruct (io_push io all) as [[]|[rc| | |]]; cbn;
          try destruct (negb (rc =? 1)%Z); cbn;
          (split; [reflexivity|]; split;
           [ split; [intros _; exists u, (c :: d); intuition congruence
                    | intros _; right; right; right; left; reflexivity]
           | intros p a; split;
             [ intros [H|[H|[H|[H|[H|[H|[]]]]]]]; try discriminate; injection H as <- <-;
               split; [reflexivity|]; split; [reflexivity|];
               exists u, (c :: d); intuition eauto
             | intros (-> & -> & _); do 5 right; left; reflexivity ] ]).
      * split; [reflexivity|]; split.
        -- split; [intros _; exists u, (c :: d); intuition congruence
                  | intros _; right; right; right; left; reflexivity].
        -- intros p a; split; [intros [H|[H|[H|[H|[]]]]]; discriminate|].
           intros (_ & _ & u' & d' & _ & _ & _ & H); discriminate.
      * destruct e as [rc| | |]; cbn; try destruct (negb (rc =? 1)%Z); cbn;
          (split; [reflexivity|]; split;
           [ split; [intros _; exists u, (c :: d); intuition congruence
                    | intros _; right; right; right; left; reflexivity]
           | intros p a; split; [intros [H|[H|[H|[H|[]]]]]; discriminate|];
             intros (_ & _ & u' & d' & _ & _ & _ & H); discriminate ]).
    + split; [reflexivity|]; split.
      * split; [intros _; exists u, (c :: d); intuition congruence
               | intros _; right; right; right; left; reflexivity].
      * intros p a; split; [intros [H|[H|[H|[H|[]]]]]; discriminate|].
        intros (_ & _ & u' & d' & _ & [= <-] & Hc & _).
        destruct Hc as [u'' Hc]; [discriminate|congruence].
  - split; [reflexivity|]; split.
    + split; [intros [H|[]]; discriminate | intros (u' & d & _ & H & _); discriminate].
    + intros p a; split; [intros [H|[]]; discriminate|].
      intros (_ & _ & u' & d & _ & H & _); discriminate.
Qed.

Lemma publish_unfold (all top : bool) repo io libs :
  is_local repo = false ->
  publish' all top (Tree repo io libs)
  = match publish_libs (publish' false all) libs with
    | (evl, Exn e) => (head_events top ++ evl, Exn e)
    | (evl, Ok _) =>
        let (evs, r) := publish_self cwd_root all repo io in
        (head_events top ++ evl ++ evs, r)
    end.
Proof. intros H. cbn. rewrite H. reflexivity. Qed.



(** The libraries of a repository contribute progress marks and the
    events of their own publication. *)
Lemma publish_libs_events (rec : tree -> list event * res unit) libs e :
  In e (fst (publish_libs rec libs)) ->
  e = Progress \/ exists l t, In (l, Repository t) libs /\ In e (fst (rec t)).
Proof.
  induction libs as [|[l d] rest IH]; cbn; [intros []|].
  destruct d as [| |t]; cbn; try (intros []).
  destruct (rec t) as [evt [u|e']] eqn:E; cbn.
  - destruct (publish_libs rec rest) as [ev' r]; cbn in *.
    intros [<-|H]; [left; reflexivity|]. apply in_app_or in H as [H|H].
    + right. exists l, t. rewrite E. auto.
    + destruct (IH H) as [->|(l' & t' & Hin & He)]; [left; reflexivity|].
      right. exists l', t'. auto.
  - intros [<-|H]; [left; reflexivity|]. right. exists l, t. rewrite E. auto.
Qed.

Lemma publish_libs_head (rec : tree -> list event * res unit) libs :
  hd_error (fst (publish_libs rec libs)) = None
  \/ hd_error (fst (publish_libs rec libs)) = Some Progress.
Proof.
  destruct libs as [|[l d] rest]; cbn; [left; reflexivity|].
  destruct d as [| |t]; cbn; try (left; reflexivity).
  destruct (rec t) as [evt [u|e']]; cbn; [|right; reflexivity].
  destruct (publish_libs rec rest); right; reflexivity.
Qed.

Lemma publish_libs_nil_head (rec : tree -> list event * res unit) libs :
  hd_error (fst (publish_libs rec libs)) = None -> fst (publish_libs rec libs) = [].
Proof. destruct (fst (publish_libs rec libs)); [reflexivity|discriminate]. Qed.

(** A call with [all = False] never pushes all branches, however deep. *)
Lemma publish_false_pushes (t : tree) :
  forall top p a, In (Pushed p a) (fst (publish' false top t)) -> a = false.
Proof.
  induction t as [repo io libs IH] using tree_induction. intros top p a.
  destruct (is_local repo) eqn:Hl.
  - cbn. rewrite Hl. cbn. destruct top; cbn; [intros [H|[]]; discriminate | intros []].
  - rewrite (publish_unfold false top repo io libs Hl).
    assert (Hlibs : forall q b, In (Pushed q b) (fst (publish_libs (publish' false false) libs))
                                -> b = false).
    { intros q b H. apply publish_libs_events in H as [H|(l & t & Hin & H)]; [discriminate|].
      rewrite List.Forall_forall in IH. apply (IH _ Hin false q b H). }
    assert (Hhead : forall q b, In (Pushed q b) (head_events top) -> False).
    { intros q b. destruct top; cbn; [intros [H|[]]; discriminate | intros []]. }
    destruct (publish_libs (publish' false false) libs) as [evl [u|e]] eqn:E; cbn in Hlibs.
    + destruct (publish_self cwd_root false repo io) as [evs r] eqn:Es. cbn.
      intros H. apply in_app_or in H as [H|H]; [destruct (Hhead _ _ H)|].
      apply in_app_or in H as [H|H]; [eauto|].
      pose proof (publish_self_events false repo io) as (_ & _ & Hp).
      rewrite Es in Hp. cbn in Hp. apply Hp in H as (_ & -> & _). reflexivity.
    + cbn. intros H. apply in_app_or in H as [H|H]; [destruct (Hhead _ _ H)|eauto].
Qed.

(** The first event of a call tells whether it was made with [top]. *)
Lemma publish_head_checking (all top : bool) (t : tree) :
  hd_error (fst (publish' all top t)) = Some checking <-> top = true.
Proof.
  destruct t as [repo io libs]. destruct (is_local repo) eqn:Hl.
  - cbn. rewrite Hl. cbn. destruct top; cbn; split; congruence.
  - rewrite (publish_unfold all top repo io libs Hl).
    destruct top; [split; [reflexivity|intros _]|split; [|discriminate]].
    + destruct (publish_libs _ libs) as [evl [u|e]]; [|reflexivity].
      destruct (publish_self cwd_root all repo io). reflexivity.
    + pose proof (publish_libs_head (publish' false all) libs) as Hh.
      pose proof (publish_libs_nil_head (publish' false all) libs) as Hn.
      pose proof (publish_self_events all repo io) as (Hs & _).
      destruct (publish_libs _ libs) as [evl [u|e]]; cbn in *.
      * destruct (publish_self cwd_root all repo io) as [evs r]. cbn in *.
        destruct Hh as [Hh|Hh].
        -- rewrite (Hn Hh). cbn. rewrite Hs. discriminate.
        -- destruct evl; cbn in *; [discriminate|]. intros H'. unfold checking in H'. congruence.
      * destruct Hh as [Hh|Hh]; rewrite Hh; discriminate.
Qed.

(** C10: every recursive call of [publish] is [publish(False, all)]: the
    events of the libraries are those of [publish_libs] run with that call;
    no push among them is a push of all branches, whatever [all] is at the
    parent; and a library starts as a top call does exactly when the
    parent was given [all]. *)
Theorem publish_child_flags (all top : bool) (repo : Repo) (io : node_io)
    (libs : list (Repo * on_disk tree)) :
  is_local repo = false ->
  (exists evs,
     fst (publish' all top (Tree repo io libs))
     = head_events top ++ fst (publish_libs (publish' false all) libs) ++ evs)
  /\ (forall p a, In (Pushed p a) (fst (publish_libs (publish' false all) libs)) -> a = false)
  /\ (forall l t, In (l, Repository t) libs ->
        (hd_error (fst (publish' false all t)) = Some checking <-> all = true)
        /\ (forall l' t', In (l', Repository t') (tree_libs t) ->
              hd_error (fst (publish' false false t')) <> Some checking)).
Proof.
  intros Hl. split; [|split].
  - rewrite (publish_unfold all top repo io libs Hl).
    destruct (publish_libs _ libs) as [evl [u|e]]; cbn.
    + destruct (publish_self cwd_root all repo io) as [evs r]. eauto.
    + exists []. rewrite app_nil_r. reflexivity.
  - intros p a H. apply publish_libs_events in H as [H|(l & t & Hin & H)]; [discriminate|].
    apply (publish_false_pushes t all p a H).
  - intros l t Hin. split; [apply publish_head_checking|].
    intros l' t' _ H. apply publish_head_checking in H. discriminate.
Qed.


End PublishFacts.


Lemma publish_child_flags_witness :
  let leaf := Tree (git_repo_at (L "/w/prog/lib")) (mkIo (Ok tt) (Ok []) (Ok tt) (Ok true) (fun _ => Ok tt)) [] in
  let libs := [(git_repo_at (L "/w/prog/lib"), Repository leaf)] in
  let io := mkIo (Ok tt) (Ok []) (Ok tt) (Ok true) (fun _ => Ok tt) in
  In (Pushed (L "/w/prog/lib") false) (fst (publish_libs (publish (L "/w/prog") false true) libs))
  /\ forall p a, In (Pushed p a) (fst (publish_libs (publish (L "/w/prog") false true) libs))
                 -> a = false.
Proof.
  intros leaf libs io. split; [cbn; tauto|].
  apply (publish_child_flags (L "/w/prog") true true (git_repo_at (L "/w/prog")) io libs eq_refl).
Defined.

(** ** The obsolescence pass of [update] *)

(** The reference file of a library lies below a directory only if the
    library does. *)
Lemma below_lib (root p : str) :
  below root (p ++ L ".lib") = true -> below root p = true.
Proof.
  unfold below. revert p. induction root as [|c root IH]; intros p; cbn.
  - destruct p as [|a p]; cbn; [discriminate|].
    rewrite !andb_true_r. auto.
  - destruct p as [|a p]; cbn.
    + destruct (Ascii.eqb_spec c "."); [subst|discriminate]. cbn.
      destruct root as [|c1 root]; [discriminate|]. cbn.
      destruct (Ascii.eqb_spec c1 "l"); [subst|discriminate]. cbn.
      destruct root as [|c2 root]; [discriminate|]. cbn.
      destruct (Ascii.eqb_spec c2 "i"); [subst|discriminate]. cbn.
      destruct root as [|c3 root]; [discriminate|]. cbn.
      destruct (Ascii.eqb_spec c3 "b"); [subst|discriminate]. cbn.
      destruct root as [|c4 root]; discriminate.
    + rewrite !andb_true_iff. intros [H1 H2]. split; [exact H1|]. apply IH. exact H2.
Qed.

Lemma isfile_rmtree root fs p :
  isfile (rmtree root fs) p = isfile fs p && negb (below root p).
Proof.
  unfold isfile, rmtree. cbn. apply eq_true_iff_eq.
  rewrite andb_true_iff, negb_true_iff, !bool_decide_eq_true.
  unfold is_Some. split.
  - intros [x H]. apply map_lookup_filter_Some in H as [H1 H2]. cbn in H2. eauto.
  - intros [[x H] H2]. exists x. apply map_lookup_filter_Some. auto.
Qed.

Lemma isdir_rmtree root fs p :
  isdir (rmtree root fs) p = isdir fs p && negb (inside root p).
Proof.
  unfold isdir, rmtree. cbn. apply eq_true_iff_eq.
  rewrite andb_true_iff, negb_true_iff, !bool_decide_eq_true, elem_of_filter. tauto.
Qed.

Lemma isdir_unignore b repo file fs p :
  isdir (unignore b repo file fs) p = isdir fs p.
Proof. unfold unignore. destruct (bool_decide _); reflexivity. Qed.

Lemma isfile_unignore b repo file fs p :
  isfile fs p = true -> isfile (unignore b repo file fs) p = true.
Proof.
  unfold unignore. destruct (bool_decide _); [|auto].
  unfold isfile. cbn. rewrite !bool_decide_eq_true. intros [x H].
  destruct (decide (join (path repo) (exclude_file b) = p)) as [<-|Hne].
  - rewrite lookup_insert_eq. eauto.
  - rewrite lookup_insert_ne by exact Hne. eauto.
Qed.

Section ObsoleteFacts.

Variable cwd_root : str.
Variable fromrepo : str -> res (Repo * runner).
Variables (clean force ignore : bool).
Variable repo : Repo.

Abbreviation pass := (update_obsolete cwd_root fromrepo clean force ignore repo).

Lemma kept_rmtree fs l root : kept fs l -> kept (rmtree root fs) l.
Proof.
  unfold kept. rewrite isfile_rmtree, isdir_rmtree. intros [H|H].
  - rewrite H. cbn. destruct (below root (lib l)) eqn:E; [|left; reflexivity].
    right. apply below_lib in E. unfold inside. rewrite E, orb_true_r, andb_false_r.
    reflexivity.
  - right. rewrite H. reflexivity.
Qed.

Lemma kept_unignore fs l b file : kept fs l -> kept (unignore b repo file fs) l.
Proof.
  unfold kept. rewrite isdir_unignore. intros [H|H]; [left|right; exact H].
  apply isfile_unignore. exact H.
Qed.

Lemma pass_never_targets (libs : list Repo) (fs : Fs) (l : Repo) :
  kept fs l -> ~ In (Rmtree (path l)) (snd (fst (pass libs fs))).
Proof.
  revert fs. induction libs as [|x rest IH]; intros fs Hk; cbn; [tauto|].
  destruct (negb (isfile fs (lib x)) && isdir fs (path x)) eqn:Hc; [|apply IH; exact Hk].
  destruct (lr <- fromrepo (path x) ;; can_update lr.1 clean force lr.2)
    as [[[|] msg]|e]; cbn; [| |tauto].
  - assert (Hne : path x <> path l).
    { intros Heq. apply andb_true_iff in Hc as [Hf Hd]. apply negb_true_iff in Hf.
      unfold kept, lib in *. rewrite Heq in Hf, Hd. destruct Hk; congruence. }
    destruct (the_scm repo) as [b|e]; cbn.
    + specialize (IH (unignore b repo (relpath (path repo) (path x)) (rmtree (path x) fs))
                     (kept_unignore _ _ _ _ (kept_rmtree _ _ _ Hk))).
      destruct (pass rest _) as [[fs2 ev] r]. cbn in *.
      intros [H|[H|H]]; [discriminate|congruence|tauto].
    + intros [H|[H|[]]]; [discriminate|congruence].
  - specialize (IH fs Hk). destruct (pass rest fs) as [[fs2 ev] r].
    destruct ignore; cbn in *; [|tauto].
    intros [H|H]; [discriminate|tauto].
Qed.

Lemma pass_targets (libs : list Repo) (fs : Fs) (p : str) :
  In (Rmtree p) (snd (fst (pass libs fs))) ->
  exists l, In l libs /\ path l = p.
Proof.
  revert fs. induction libs as [|x rest IH]; intros fs; cbn; [tauto|].
  assert (Hrest : forall fs', In (Rmtree p) (snd (fst (pass rest fs'))) ->
                              exists l, (x = l \/ In l rest) /\ path l = p).
  { intros fs' H. destruct (IH fs' H) as (l & Hin & Hp). eauto. }
  destruct (negb (isfile fs (lib x)) && isdir fs (path x)); [|apply Hrest].
  destruct (lr <- fromrepo (path x) ;; can_update lr.1 clean force lr.2)
    as [[[|] msg]|e]; cbn; [| |tauto].
  - destruct (the_scm repo) as [b|e]; cbn.
    + specialize (Hrest (unignore b repo (relpath (path repo) (path x)) (rmtree (path x) fs))).
      destruct (pass rest _) as [[fs2 ev] r]. cbn in *.
      intros [H|[H|H]]; [discriminate| |auto]. injection H as <-. eauto.
    + intros [H|[H|[]]]; [discriminate|]. injection H as <-. eauto.
  - specialize (Hrest fs). destruct (pass rest fs) as [[fs2 ev] r].
    destruct ignore; cbn in *; [|tauto].
    intros [H|H]; [discriminate|auto].
Qed.

Lemma pass_dirs (libs : list Repo) (fs : Fs) (p : str) :
  isdir fs p = true ->
  (forall q, In (Rmtree q) (snd (fst (pass libs fs))) -> inside q p = false) ->
  isdir (fst (fst (pass libs fs))) p = true.
Proof.
  revert fs. induction libs as [|x rest IH]; intros fs Hd; cbn; [auto|].
  destruct (negb (isfile fs (lib x)) && isdir fs (path x)); [|apply IH; exact Hd].
  destruct (lr <- fromrepo (path x) ;; can_update lr.1 clean force lr.2)
    as [[[|] msg]|e]; cbn; [| |auto].
  - destruct (the_scm repo) as [b|e]; cbn.
    + specialize (IH (unignore b repo (relpath (path repo) (path x)) (rmtree (path x) fs))).
      rewrite isdir_unignore, isdir_rmtree, Hd in IH.
      destruct (pass rest _) as [[fs2 ev] r]. cbn in *.
      intros Hq. apply IH; [|auto]. rewrite (Hq (path x)); auto.
    + intros Hq. rewrite isdir_rmtree, Hd, (Hq (path x)); auto.
  - specialize (IH fs Hd). destruct (pass rest fs) as [[fs2 ev] r].
    destruct ignore; cbn in *; [|auto].
    intros Hq. apply IH. auto.
Qed.

(** C6: the obsolescence pass removes the directory of none of the
    libraries whose reference file is on disk: no [rmtree] of the pass is
    aimed at such a library, whatever the gate answers and whatever
    [clean], [force] and [ignore] are; every [rmtree] is aimed at a library
    of the list whose reference file is missing; and the directory is still
    there after the pass unless it lies inside a library that has lost its
    reference. *)
Theorem obsolete_pass_keeps_referenced (libs : list Repo) (fs : Fs) (l : Repo) :
  In l libs ->
  isfile fs (lib l) = true ->
  ~ In (Rmtree (path l)) (snd (fst (pass libs fs)))
  /\ (forall p, In (Rmtree p) (snd (fst (pass libs fs))) ->
        exists l', In l' libs /\ path l' = p /\ isfile fs (lib l') = false)
  /\ (isdir fs (path l) = true ->
      (forall l', In l' libs -> isfile fs (lib l') = false ->
                  inside (path l') (path l) = false) ->
      isdir (fst (fst (pass libs fs))) (path l) = true).
Proof.
  intros Hin Hf.
  assert (Htargets : forall p, In (Rmtree p) (snd (fst (pass libs fs))) ->
            exists l', In l' libs /\ path l' = p /\ isfile fs (lib l') = false).
  { intros p Hp. destruct (pass_targets libs fs p Hp) as (l' & Hin' & <-).
    exists l'. split; [exact Hin'|]. split; [reflexivity|].
    destruct (isfile fs (lib l')) eqn:E; [|reflexivity].
    exfalso. apply (pass_never_targets libs fs l'); [left; exact E|exact Hp]. }
  split; [|split].
  - apply pass_never_targets. left. exact Hf.
  - exact Htargets.
  - intros Hd Hout. apply pass_dirs; [exact Hd|].
    intros q Hq. destruct (Htargets q Hq) as (l' & Hin' & <- & Hf'). auto.
Qed.

End ObsoleteFacts.

Lemma obsolete_pass_keeps_referenced_witness :
  let pass := update_obsolete (L "/w/p") clean_git_checkout false false false
                (git_repo_at (L "/w/p")) in
  let libs := [git_repo_at (L "/w/p/a"); git_repo_at (L "/w/p/b")] in
  In (Rmtree (L "/w/p/b")) (snd (fst (pass libs two_libs_fs)))
  /\ ~ In (Rmtree (L "/w/p/a")) (snd (fst (pass libs two_libs_fs)))
  /\ isdir (fst (fst (pass libs two_libs_fs))) (L "/w/p/a") = true.
Proof.
  intros pass libs.
  destruct (obsolete_pass_keeps_referenced (L "/w/p") clean_git_checkout false false false
              (git_repo_at (L "/w/p")) libs two_libs_fs (git_repo_at (L "/w/p/a")))
    as (H1 & _ & H3).
  - left. reflexivity.
  - vm_compute. reflexivity.
  - split; [vm_compute; tauto|]. split; [exact H1|]. apply H3.
    + vm_compute. reflexivity.
    + intros l' [<-|[<-|[]]] Hf; [vm_compute in Hf; discriminate|vm_compute; reflexivity].
Defined.

(** ** Canonicalization *)


Lemma mbed_sound u m : m_mbed u = Some m ->
  exists sopt w tld ug nm rc r sl e,
    u = L "http" ++ sopt ++ L "://" ++ (w ++ L "mbed." ++ tld) ++ L "/" ++ ug ++ L "/"
          ++ nm ++ L "/" ++ rc ++ L "/" ++ r ++ sl ++ e
    /\ (sopt = [] \/ sopt = L "s")
    /\ forallb cls_mbed_host w = true
    /\ (tld = L "co.uk" \/ tld = L "org" \/ tld = L "com")
    /\ (ug = L "users" \/ ug = L "teams")
    /\ forallb cls_mbed_name nm = true /\ 1 <= length nm <= 32
    /\ (rc = L "repos" \/ rc = L "code")
    /\ forallb cls_mbed_name r = true /\ 1 <= length r
    /\ (sl = [] \/ sl = L "/") /\ (e = [] \/ e = [nl])
    /\ gfmt m 2 = w ++ L "mbed." ++ tld /\ gfmt m 4 = ug /\ gfmt m 5 = nm
    /\ gfmt m 6 = rc /\ gfmt m 7 = r.
Proof.
  intros H. apply rmatch_matched in H as [s' H].
  unfold regex_mbed_url, star, plus in H. cbn [seq matched] in H.
  destruct H as (s1 & c1 & (_ & -> & ->)
    & s2 & c2 & (c3 & g1 & (s3 & c4 & (Hhttp & ->) & Hs) & Hg1 & ->)
    & s4 & c5 & (-> & ->)
    & s5 & c6 & (c7 & g2 & (s6 & c8 & (-> & w & -> & Hfw & _ & _) & s7 & c9 & (-> & ->)
                            & c10 & g3 & Htld & Hg3 & ->) & Hg2 & ->)
    & s8 & c11 & (-> & ->)
    & s9 & c12 & (c13 & g4 & Hug & Hg4 & ->)
    & s10 & c14 & (-> & ->)
    & s11 & c15 & (c16 & g5 & (-> & nm & -> & Hfnm & Hnm1 & Hnm32) & Hg5 & ->)
    & s12 & c17 & (-> & ->)
    & s13 & c18 & (c19 & g6 & Hrc & Hg6 & ->)
    & s14 & c20 & (-> & ->)
    & s15 & c21 & (c22 & g7 & (-> & r & -> & Hfr & Hr1 & _) & Hg7 & ->)
    & s16 & c23 & Hsl & He & -> & ->).
  assert (Htld' : exists tld, s7 = tld ++ L "/" ++ s8
                     /\ (tld = L "co.uk" \/ tld = L "org" \/ tld = L "com")
                     /\ c10 = <[1:=Some g1]> c3).
  { destruct Htld as [[-> ->]|[[-> ->]|[-> ->]]]; eexists; eauto. }
  destruct Htld' as (tld & -> & Htld' & ->). clear Htld.
  assert (Hug' : exists ug, s8 = ug ++ L "/" ++ nm ++ L "/" ++ s12
                   /\ (ug = L "users" \/ ug = L "teams")
                   /\ c13 = <[2:=Some g2]> (<[3:=Some g3]> (<[1:=Some g1]> c3))).
  { destruct Hug as [[-> ->]|[-> ->]]; eexists; eauto. }
  destruct Hug' as (ug & -> & Hug' & ->). clear Hug.
  assert (Hrc' : exists rc, s12 = rc ++ L "/" ++ r ++ s15
                   /\ (rc = L "repos" \/ rc = L "code")
                   /\ c19 = <[5:=Some g5]> (<[4:=Some g4]>
                             (<[2:=Some g2]> (<[3:=Some g3]> (<[1:=Some g1]> c3))))).
  { destruct Hrc as [[-> ->]|[-> ->]]; eexists; eauto. }
  destruct Hrc' as (rc & -> & Hrc' & ->). clear Hrc.
  assert (Hsl' : exists sl, s15 = sl ++ s16 /\ (sl = [] \/ sl = L "/")
                   /\ c23 = <[7:=Some g7]> (<[6:=Some g6]> (<[5:=Some g5]> (<[4:=Some g4]>
                             (<[2:=Some g2]> (<[3:=Some g3]> (<[1:=Some g1]> c3))))))).
  { destruct Hsl as [(a & -> & Ha & ->)|[-> ->]].
    - apply Ascii.eqb_eq in Ha as <-. exists (L "/"). auto.
    - exists []. auto. }
  destruct Hsl' as (sl & -> & Hsl' & ->). clear Hsl.
  assert (Hs' : exists sopt, s3 = sopt ++ L "://" ++ w ++ L "mbed." ++ tld ++ L "/" ++ ug
                        ++ L "/" ++ nm ++ L "/" ++ rc ++ L "/" ++ r ++ sl ++ s16
                  /\ (sopt = [] \/ sopt = L "s") /\ c3 = replicate 8 None).
  { destruct Hs as [(a & -> & Ha & ->)|[<- ->]].
    - apply Ascii.eqb_eq in Ha as <-. exists (L "s"). auto.
    - exists []. auto. }
  destruct Hs' as (sopt & -> & Hs' & ->). clear Hs.
  apply tail_inv in Hg7 as <-. apply tail_inv in Hg5 as <-.
  apply tail_inv in Hg6 as <-. apply tail_inv in Hg4 as <-.
  assert (g2 = w ++ L "mbed." ++ tld) as ->.
  { apply (tail_inv (L "/" ++ ug ++ L "/" ++ nm ++ L "/" ++ rc ++ L "/" ++ r ++ sl ++ s16)).
    rewrite <- Hg2, <- !app_assoc. reflexivity. }
  exists sopt, w, tld, ug, nm, rc, r, sl, s16.
  split; [rewrite Hhttp, <- !app_assoc; reflexivity|].
  cbn in Hnm32. repeat (split; [first [assumption|lia|reflexivity]|]). reflexivity.
Qed.



Lemma mbed_complete sopt w tld ug nm rc r sl e :
  (sopt = [] \/ sopt = L "s") ->
  forallb cls_mbed_host w = true ->
  (tld = L "co.uk" \/ tld = L "org" \/ tld = L "com") ->
  (ug = L "users" \/ ug = L "teams") ->
  forallb cls_mbed_name nm = true -> 1 <= length nm <= 32 ->
  (rc = L "repos" \/ rc = L "code") ->
  forallb cls_mbed_name r = true -> 1 <= length r ->
  (sl = [] \/ sl = L "/") -> (e = [] \/ e = [nl]) ->
  exists m,
    m_mbed (L "http" ++ sopt ++ L "://" ++ (w ++ L "mbed." ++ tld) ++ L "/" ++ ug ++ L "/"
              ++ nm ++ L "/" ++ rc ++ L "/" ++ r ++ sl ++ e) = Some m.
Proof.
  intros Hs Hw Htld Hug Hnm Hnm' Hrc Hr Hr' Hsl He.
  eapply rmatch_some. unfold regex_mbed_url, star, plus. cbn [seq].
  eapply matched_cat; [apply matched_bol; reflexivity|].
  eapply matched_cat.
  { eapply (matched_grp _ 1 _ (L "http" ++ sopt)); [apply app_assoc|].
    eapply matched_cat; [apply matched_lit|]. apply matched_opt_chr. exact Hs. }
  eapply matched_cat; [apply matched_lit|].
  eapply matched_cat.
  { eapply (matched_grp _ 2 _ (w ++ L "mbed." ++ tld)); [reflexivity|].
    rewrite <- !app_assoc.
    eapply matched_cat; [apply matched_rep; [exact Hw|lia|exact I]|].
    eapply matched_cat; [apply matched_lit|].
    eapply (matched_grp _ 3 _ tld); [reflexivity|].
    destruct Htld as [->|[->| ->]].
    - apply matched_alt_l. apply matched_lit.
    - apply matched_alt_r, matched_alt_l. apply matched_lit.
    - apply matched_alt_r, matched_alt_r. apply matched_lit. }
  eapply matched_cat; [apply matched_lit|].
  eapply matched_cat.
  { eapply (matched_grp _ 4 _ ug); [reflexivity|].
    destruct Hug as [->| ->]; [apply matched_alt_l|apply matched_alt_r]; apply matched_lit. }
  eapply matched_cat; [apply matched_lit|].
  eapply matched_cat.
  { eapply (matched_grp _ 5 _ nm); [reflexivity|].
    apply matched_rep; [exact Hnm|lia|cbn; lia]. }
  eapply matched_cat; [apply matched_lit|].
  eapply matched_cat.
  { eapply (matched_grp _ 6 _ rc); [reflexivity|].
    destruct Hrc as [->| ->]; [apply matched_alt_l|apply matched_alt_r]; apply matched_lit. }
  eapply matched_cat; [apply matched_lit|].
  eapply matched_cat.
  { eapply (matched_grp _ 7 _ r); [reflexivity|].
    apply matched_rep; [exact Hr|lia|exact I]. }
  eapply matched_cat; [apply matched_opt_chr; exact Hsl|].
  apply matched_eol. exact He.
Qed.


Lemma formaturl_mbed (u : str) (m : caps) (p : protocol) :
  m_mbed u = Some m ->
  formaturl u p = mbed_scheme p ++ gfmt m 2 ++ L "/" ++ gfmt m 4 ++ L "/" ++ gfmt m 5
                    ++ L "/" ++ gfmt m 6 ++ L "/" ++ gfmt m 7.
Proof. intros H. unfold formaturl. rewrite H. destruct p; reflexivity. Qed.

(** A string of the mbed-hosted shape that carries the scheme of [p] and
    ends neither in a slash nor in a newline is its own canonical form. *)
Lemma formaturl_mbed_fixed (v : str) (m : caps) (p : protocol) :
  m_mbed v = Some m ->
  (exists X, v = mbed_scheme p ++ X) ->
  (forall z, v <> z ++ L "/") -> (forall z, v <> z ++ [nl]) ->
  formaturl v p = v.
Proof.
  intros Hm [X HX] Hslash Hnl. rewrite (formaturl_mbed v m p Hm).
  destruct (mbed_sound v m Hm)
    as (sopt & w & tld & ug & nm & rc & r & sl & e & Hv & Hs & _ & _ & _ & _ & _ & _ & _ & _
        & Hsl & He & -> & -> & -> & -> & ->).
  assert (e = []) as ->.
  { destruct He as [->| ->]; [reflexivity|]. exfalso.
    apply (Hnl (L "http" ++ sopt ++ L "://" ++ (w ++ L "mbed." ++ tld) ++ L "/" ++ ug ++ L "/"
                  ++ nm ++ L "/" ++ rc ++ L "/" ++ r ++ sl)).
    rewrite Hv, <- !app_assoc. reflexivity. }
  assert (sl = []) as ->.
  { destruct Hsl as [->| ->]; [reflexivity|]. exfalso.
    apply (Hslash (L "http" ++ sopt ++ L "://" ++ (w ++ L "mbed." ++ tld) ++ L "/" ++ ug ++ L "/"
                     ++ nm ++ L "/" ++ rc ++ L "/" ++ r)).
    rewrite Hv, <- !app_assoc. reflexivity. }
  rewrite Hv, !app_nil_r. rewrite Hv in HX.
  destruct Hs as [->| ->]; destruct p; cbn in HX |- *; try reflexivity; discriminate.
Qed.

(** Canonicalization is idempotent on locators of the mbed-hosted shape. *)
Lemma formaturl_idem_mbed (u : str) (m : caps) (p : protocol) :
  m_mbed u = Some m -> formaturl (formaturl u p) p = formaturl u p.
Proof.
  intros Hm. rewrite (formaturl_mbed u m p Hm).
  destruct (mbed_sound u m Hm)
    as (sopt & w & tld & ug & nm & rc & r & sl & e & Hu & Hs & Hw & Htld & Hug & Hnm & Hnm'
        & Hrc & Hr & Hr' & Hsl & He & -> & -> & -> & -> & ->).
  set (v := mbed_scheme p ++ (w ++ L "mbed." ++ tld) ++ L "/" ++ ug ++ L "/" ++ nm
              ++ L "/" ++ rc ++ L "/" ++ r).
  assert (Hv : exists so, (so = [] \/ so = L "s") /\
             v = L "http" ++ so ++ L "://" ++ (w ++ L "mbed." ++ tld) ++ L "/" ++ ug ++ L "/"
                   ++ nm ++ L "/" ++ rc ++ L "/" ++ r ++ [] ++ []).
  { rewrite !app_nil_r. unfold v.
    destruct p; [exists (L "s")|exists []|exists (L "s")|exists (L "s")]; auto. }
  destruct Hv as (so & Hso & Hv).
  destruct (mbed_complete so w tld ug nm rc r [] [] Hso Hw Htld Hug Hnm Hnm' Hrc Hr Hr')
    as [m' Hm']; [auto|auto|].
  rewrite <- Hv in Hm'.
  apply (formaturl_mbed_fixed v m' p Hm').
  - eexists. reflexivity.
  - intros z Hz. unfold v in Hz. rewrite !app_assoc in Hz.
    pose proof (last_char cls_mbed_name _ r z "/" Hz Hr' Hr) as H. discriminate.
  - intros z Hz. unfold v in Hz. rewrite !app_assoc in Hz.
    pose proof (last_char cls_mbed_name _ r z nl Hz Hr' Hr) as H. discriminate.
Qed.

Lemma git_sound u m : m_git u = Some m ->
  exists P g2 sep g3 t,
    u = P ++ g2 ++ sep :: g3 ++ t
    /\ forallb cls_host g2 = true /\ 1 <= length g2
    /\ cls_sep sep = true
    /\ forallb dot g3 = true /\ 1 <= length g3
    /\ gfmt m 2 = g2 /\ gfmt m 3 = g3.
Proof.
  intros H. apply rmatch_matched in H as [s' H].
  unfold regex_git_url, plus, lazy_plus in H. cbn [seq matched] in H.
  destruct H as (s1 & c1 & (_ & -> & ->)
    & s2 & c2 & (c3 & g1 & H1 & Hg1 & ->)
    & s3 & c4 & (c5 & g2 & (-> & w2 & -> & Hf2 & Hl2 & _) & Hg2 & ->)
    & s4 & c6 & (sep & -> & Hsep & ->)
    & s5 & c7 & (c8 & g3 & (-> & w3 & -> & Hf3 & Hl3 & _) & Hg3 & ->)
    & s6 & c9 & (c10 & g4 & H4 & Hg4 & ->)
    & _ & -> & ->).
  assert (c3 = replicate 5 None) as ->.
  { destruct H1 as [[_ ->]|[[_ ->]|[[_ ->]|H1]]]; try reflexivity.
    destruct H1 as (sa & ca & (_ & ->) & sb & cb & [(a & _ & _ & ->)|[_ ->]] & _ & ->);
      reflexivity. }
  assert (c10 = <[3:=Some g3]> (<[2:=Some g2]> (<[1:=Some g1]> (replicate 5 None)))) as ->.
  { destruct H4 as [[_ ->]|[(a & _ & _ & ->)|[_ ->]]]; reflexivity. }
  apply tail_inv in Hg3 as <-.
  apply (tail_inv (sep :: w3 ++ s5)) in Hg2 as <-.
  exists g1, w2, sep, w3, s5. auto 10.
Qed.

Lemma ms_grp_rep n0 n g lo hi p s c :
  ms n0 (Grp n (Rep g lo hi p)) s c
  = map (fun x => (x, <[n:=Some (take (length s - length x) s)]> c))
        ((if g then rep_greedy else rep_lazy) p lo hi s).
Proof. cbn [ms]. rewrite map_map. reflexivity. Qed.

(** What [(\.git|\/?)$] accepts. *)
Lemma git_tail_matched n0 s c s' c' :
  matched n0 (Cat (Grp 4 (Alt (Lit (L ".git")) (Opt (Cls (chr "/"))))) Eol) s c s' c' ->
  s = L ".git" \/ s = L ".git" ++ [nl] \/ s = L "/" \/ s = L "/" ++ [nl] \/ s = [] \/ s = [nl].
Proof.
  cbn [matched]. intros (s1 & c1 & (c2 & w & H & _ & _) & He & _ & _).
  destruct H as [[-> _]|[(a & -> & Ha & _)|[-> _]]].
  - destruct He as [->| ->]; auto.
  - apply Ascii.eqb_eq in Ha as <-. destruct He as [->| ->]; auto 6.
  - destruct He as [->| ->]; auto 6.
Qed.

Lemma forallb_app_r (p : ascii -> bool) (z y : str) :
  forallb p (z ++ y) = true -> forallb p y = true.
Proof. rewrite forallb_app, andb_true_iff. tauto. Qed.

(** On a canonical string the git pattern finds the host and the path it
    was built from. *)
Lemma git_first (P g2 g3 S : str) :
  P = L "ssh://" \/ P = L "http://" \/ P = L "https://" ->
  forallb cls_host g2 = true -> 1 <= length g2 ->
  forallb dot g3 = true -> 1 <= length g3 ->
  S = L ".git" \/ (S = [] /\ (forall z, g3 <> z ++ L "/") /\ (forall z, g3 <> z ++ L ".git")) ->
  exists m, m_git (P ++ g2 ++ L "/" ++ g3 ++ S) = Some m
            /\ gfmt m 2 = g2 /\ gfmt m 3 = g3.
Proof.
  intros HP Hg2 Hl2 Hg3 Hl3 HS.
  set (c0 := replicate 5 (None : option str)).
  set (v := P ++ g2 ++ L "/" ++ g3 ++ S).
  assert (H1 : first (length v) (Grp 1 (Alt (Lit (L "git@"))
              (Alt (Lit (L "git://"))
              (Alt (Lit (L "ssh://"))
                   (seq [ Lit (L "http"); Opt (Cls (chr "s")); Lit (L "://") ]))))) v c0
               = Some (g2 ++ L "/" ++ g3 ++ S, <[1:=Some P]> c0)).
  { apply first_grp; [reflexivity|]. unfold v.
    destruct HP as [->|[->| ->]].
    - apply first_alt_r; [reflexivity|]. apply first_alt_r; [reflexivity|].
      apply first_alt_l. apply first_lit.
    - do 3 (apply first_alt_r; [reflexivity|]). cbn [seq].
      eapply first_cat; [apply (first_lit _ (L "http"))|].
      eapply first_cat; [apply first_opt_skip; reflexivity|]. apply (first_lit _ (L "://")).
    - do 3 (apply first_alt_r; [reflexivity|]). cbn [seq].
      eapply first_cat; [apply (first_lit _ (L "http"))|].
      eapply first_cat; [apply first_opt_take; apply first_cls; reflexivity|].
      apply (first_lit _ (L "://")). }
  assert (H2 : first (length v) (Grp 2 (plus cls_host)) (g2 ++ L "/" ++ g3 ++ S) (<[1:=Some P]> c0)
               = Some (L "/" ++ g3 ++ S, <[2:=Some g2]> (<[1:=Some P]> c0))).
  { apply first_grp; [reflexivity|]. apply first_rep_greedy; [exact Hg2|exact Hl2|reflexivity]. }
  set (c2 := <[2:=Some g2]> (<[1:=Some P]> c0)).
  assert (H3 : exists S',
             first (length v)
               (Cat (Grp 3 (lazy_plus dot))
                    (Cat (Grp 4 (Alt (Lit (L ".git")) (Opt (Cls (chr "/"))))) Eol))
               (g3 ++ S) c2
             = Some ([], <[4:=Some S']> (<[3:=Some g3]> c2))).
  { unfold lazy_plus.
    destruct (rep_lazy_split dot g3 1 S Hg3 Hl3) as (l1 & l2 & Hsplit & Hl1).
    exists S. eapply first_cat_skip.
    - rewrite ms_grp_rep, Hsplit, map_app. cbn [map]. rewrite take_consumed. reflexivity.
    - intros a Ha. apply in_map_iff in Ha as (x & <- & Hx). cbn [fst snd].
      destruct (Hl1 x Hx) as (z & y & Hy & -> & ->).
      apply ms_nil. intros s' c' Hm. apply git_tail_matched in Hm.
      pose proof (forallb_app_r _ _ _ Hg3) as Hdy.
      destruct HS as [->|(-> & Hslash & Hgit)].
      + destruct y as [|a [|b y]]; [congruence| |].
        * destruct Hm as [H|[H|[H|[H|[H|H]]]]]; discriminate.
        * destruct Hm as [H|[H|[H|[H|[H|H]]]]];
            apply (f_equal length) in H; cbn in H; rewrite ?length_app in H; cbn in H; lia.
      + rewrite app_nil_r in Hm.
        destruct Hm as [->|[->|[->|[->|[->| ->]]]]];
          try discriminate; try congruence.
    - destruct HS as [->|(-> & _ & _)].
      + eapply first_cat; [|apply first_eol].
        apply (first_grp _ 4 _ (L ".git")); [reflexivity|].
        apply first_alt_l. apply (first_lit _ (L ".git") []).
      + eapply first_cat; [|apply first_eol].
        apply (first_grp _ 4 _ []); [reflexivity|].
        apply first_alt_r; [reflexivity|]. apply first_opt_skip. reflexivity. }
  destruct H3 as [S' H3].
  exists (<[4:=Some S']> (<[3:=Some g3]> c2)). split; [|split; reflexivity].
  apply (rmatch_first 4 _ v []). fold c0. unfold regex_git_url. cbn [seq].
  eapply first_cat; [apply first_bol; reflexivity|].
  eapply first_cat; [exact H1|].
  eapply first_cat; [exact H2|].
  eapply first_cat; [apply first_cls; reflexivity|].
  exact H3.
Qed.

Lemma endswith_false (suf s : str) : endswith suf s = false -> forall z, s <> z ++ suf.
Proof.
  unfold endswith. intros H z ->. rewrite rev_app_distr, startswith_self in H. discriminate.
Qed.

Lemma hg_sound u m : m_hg u = Some m ->
  exists g2 g3,
    forallb cls_host g2 = true /\ 1 <= length g2
    /\ forallb cls_noslash g3 = true /\ 1 <= length g3
    /\ gfmt m 2 = g2 /\ gfmt m 3 = g3.
Proof.
  intros H. apply rmatch_matched in H as [s' H].
  unfold regex_hg_url, plus, lazy_plus in H. cbn [seq matched] in H.
  destruct H as (s1 & c1 & (_ & -> & ->)
    & s2 & c2 & (c3 & g1 & H1 & Hg1 & ->)
    & s3 & c4 & (-> & ->)
    & s4 & c5 & (c6 & g2 & (-> & w2 & -> & Hf2 & Hl2 & _) & Hg2 & ->)
    & s5 & c7 & (-> & ->)
    & s6 & c8 & (c9 & g3 & (-> & w3 & -> & Hf3 & Hl3 & _) & Hg3 & ->)
    & s7 & c10 & Hsl
    & s8 & c11 & H4
    & _ & -> & ->).
  assert (c3 = replicate 5 None) as ->.
  { destruct H1 as [[_ ->]|[[_ ->]|H1]]; try reflexivity.
    destruct H1 as (sa & ca & (_ & ->) & [(a & _ & _ & ->)|[_ ->]]); reflexivity. }
  apply tail_inv in Hg3 as <-.
  apply (tail_inv (L "/" ++ w3 ++ s6)) in Hg2 as <-.
  assert (c10 = <[3:=Some w3]> (<[2:=Some w2]> (<[1:=Some g1]> (replicate 5 None)))) as ->.
  { destruct Hsl as [(a & _ & _ & ->)|[_ ->]]; reflexivity. }
  exists w2, w3.
  destruct H4 as [(c12 & g4 & (-> & _) & _ & ->)|[_ ->]]; auto 10.
Qed.

Lemma mbed_none_ssh (X : str) : m_mbed (L "ssh://" ++ X) = None.
Proof.
  apply rmatch_none. intros s' m H.
  unfold regex_mbed_url in H. cbn [seq matched] in H.
  destruct H as (s1 & c1 & (_ & -> & ->) & s2 & c2 & (c3 & g1 & (s3 & c4 & (H & _) & _) & _) & _).
  discriminate.
Qed.

Lemma formaturl_git (u : str) (m : caps) (p : protocol) :
  m_mbed u = None -> m_git u = Some m ->
  formaturl u p = git_scheme p ++ gfmt m 2 ++ L "/" ++ gfmt m 3 ++ git_suffix p.
Proof.
  intros H1 H2. unfold formaturl. rewrite H1, H2.
  destruct p; cbn [git_scheme git_suffix]; rewrite ?app_nil_r; reflexivity.
Qed.

Lemma formaturl_hg (u : str) (m : caps) (p : protocol) :
  m_mbed u = None -> m_git u = None -> m_hg u = Some m ->
  formaturl u p = git_scheme p ++ gfmt m 2 ++ L "/" ++ gfmt m 3.
Proof.
  intros H1 H2 H3. unfold formaturl. rewrite H1, H2, H3. destruct p; reflexivity.
Qed.

(** A string built from a host and a path, in the scheme of [p], is its
    own canonical form. *)
Lemma formaturl_git_fixed (g2 g3 : str) (p : protocol) :
  forallb cls_host g2 = true -> 1 <= length g2 ->
  forallb dot g3 = true -> 1 <= length g3 ->
  p = Pssh \/ (endswith (L "/") g3 = false /\ endswith (L ".git") g3 = false) ->
  formaturl (git_scheme p ++ g2 ++ L "/" ++ g3 ++ git_suffix p) p
  = git_scheme p ++ g2 ++ L "/" ++ g3 ++ git_suffix p.
Proof.
  intros Hg2 Hl2 Hg3 Hl3 Hside.
  set (v := git_scheme p ++ g2 ++ L "/" ++ g3 ++ git_suffix p).
  assert (Hgit : exists m, m_git v = Some m /\ gfmt m 2 = g2 /\ gfmt m 3 = g3).
  { apply git_first; try assumption.
    - destruct p; cbn; auto.
    - destruct Hside as [->|[H1 H2]]; [left; reflexivity|].
      destruct p; [left; reflexivity|right..]; cbn;
        (split; [reflexivity|split; apply endswith_false; assumption]). }
  destruct Hgit as (m & Hm & E2 & E3).
  destruct (m_mbed v) as [m'|] eqn:Hmbed.
  - assert (Hp : p <> Pssh).
    { intros ->. unfold v in Hmbed. cbn [git_scheme] in Hmbed.
      rewrite mbed_none_ssh in Hmbed. discriminate. }
    destruct Hside as [->|[H1 H2]]; [congruence|].
    assert (Hv : v = git_scheme p ++ g2 ++ L "/" ++ g3).
    { unfold v. destruct p; cbn [git_suffix]; rewrite ?app_nil_r; congruence. }
    apply (formaturl_mbed_fixed v m' p Hmbed).
    + exists (g2 ++ L "/" ++ g3). rewrite Hv. destruct p; [congruence|reflexivity..].
    + intros z Hz. rewrite Hv, !app_assoc in Hz.
      destruct g3 as [|b g3] using rev_ind; [cbn in Hl3; lia|].
      rewrite app_assoc in Hz. apply app_inj_tail in Hz as [_ ->].
      apply (endswith_false _ _ H1 g3). reflexivity.
    + intros z Hz. rewrite Hv, !app_assoc in Hz.
      pose proof (last_char dot _ g3 z nl Hz Hl3 Hg3) as H. discriminate.
  - rewrite (formaturl_git v m p Hmbed Hm), E2, E3. reflexivity.
Qed.

Lemma noslash_endswith (g3 : str) :
  forallb cls_noslash g3 = true -> endswith (L "/") g3 = false.
Proof.
  intros H. unfold endswith. destruct g3 as [|b g3 _] using rev_ind; [reflexivity|].
  rewrite rev_app_distr. rewrite forallb_app in H.
  apply andb_true_iff in H as [_ H].
  change (forallb cls_noslash [b]) with (cls_noslash b && true) in H.
  rewrite andb_true_r in H. unfold cls_noslash, chr in H. apply negb_true_iff in H.
  change (startswith (rev (L "/")) (rev [b] ++ rev g3)) with (Ascii.eqb "/" b && true).
  rewrite H. reflexivity.
Qed.

(** C3, where [formaturl] departs from it: the suffix group of
    [regex_git_url] takes one of [.git] and [/] off the path, so a git
    locator whose path ends in [.git/] loses only the slash at the first
    https canonicalization and the [.git] at the second, and the result of
    one canonicalization is not canonical; an hg locator with the [file]
    scheme becomes, in ssh form, a string that the git grammar then takes
    and extends with [.git]. *)
Lemma formaturl_not_idempotent :
  (is_some (m_git (L "https://github.com/ARMmbed/mbed-os.git/")) = true
   /\ formaturl (L "https://github.com/ARMmbed/mbed-os.git/") Phttps
      = L "https://github.com/ARMmbed/mbed-os.git"
   /\ formaturl (formaturl (L "https://github.com/ARMmbed/mbed-os.git/") Phttps) Phttps
      = L "https://github.com/ARMmbed/mbed-os"
   /\ formaturl (formaturl (L "https://github.com/ARMmbed/mbed-os.git/") Phttps) Phttps
      <> formaturl (L "https://github.com/ARMmbed/mbed-os.git/") Phttps)
  /\ (is_some (m_hg (L "file://host/repo")) = true
      /\ formaturl (L "file://host/repo") Pssh = L "ssh://host/repo"
      /\ formaturl (formaturl (L "file://host/repo") Pssh) Pssh = L "ssh://host/repo.git"
      /\ formaturl (formaturl (L "file://host/repo") Pssh) Pssh
         <> formaturl (L "file://host/repo") Pssh).
Proof.
  vm_compute. split; (split; [reflexivity|]; split; [reflexivity|]; split; [reflexivity|]);
    discriminate.
Qed.

(** The locators on which [formaturl] does reach a fixed point at once:
    every locator of the mbed-hosted shape; a locator of the git shape when
    the target is ssh, and for the other targets when the path found in it
    ends neither in a slash nor in [.git]; and a locator that only the hg
    grammar takes when the target is not ssh and its first path segment has
    no newline and does not end in [.git]. *)
Theorem formaturl_idempotent (u : str) (p : protocol) :
  (forall m, m_mbed u = Some m -> formaturl (formaturl u p) p = formaturl u p)
  /\ (forall m, m_mbed u = None -> m_git u = Some m ->
        p = Pssh \/ (endswith (L "/") (gfmt m 3) = false
                     /\ endswith (L ".git") (gfmt m 3) = false) ->
        formaturl (formaturl u p) p = formaturl u p)
  /\ (forall m, m_mbed u = None -> m_git u = None -> m_hg u = Some m ->
        p <> Pssh -> forallb dot (gfmt m 3) = true ->
        endswith (L ".git") (gfmt m 3) = false ->
        formaturl (formaturl u p) p = formaturl u p).
Proof.
  split; [|split].
  - intros m Hm. exact (formaturl_idem_mbed u m p Hm).
  - intros m Hmbed Hgit Hside. rewrite (formaturl_git u m p Hmbed Hgit).
    destruct (git_sound u m Hgit) as (P & g2 & sep & g3 & t & _ & Hg2 & Hl2 & _ & Hg3 & Hl3 & E2 & E3).
    rewrite E2, E3 in *. apply formaturl_git_fixed; assumption.
  - intros m Hmbed Hgit Hhg Hp Hdot Hside. rewrite (formaturl_hg u m p Hmbed Hgit Hhg).
    destruct (hg_sound u m Hhg) as (g2 & g3 & Hg2 & Hl2 & Hg3 & Hl3 & E2 & E3).
    rewrite E2, E3 in *.
    assert (Hs : git_suffix p = []) by (destruct p; [congruence|reflexivity..]).
    pose proof (formaturl_git_fixed g2 g3 p Hg2 Hl2 Hdot Hl3) as H.
    rewrite Hs, !app_nil_r in H. apply H. right. split; [|exact Hside].
    apply noslash_endswith. exact Hg3.
Qed.

Lemma formaturl_idempotent_witness :
  formaturl (formaturl (L "https://developer.mbed.org/users/mbed_official/code/mbed/") Phttp) Phttp
    = formaturl (L "https://developer.mbed.org/users/mbed_official/code/mbed/") Phttp
  /\ formaturl (formaturl (L "git@github.com:ARMmbed/mbed-os.git") Pssh) Pssh
     = formaturl (L "git@github.com:ARMmbed/mbed-os.git") Pssh
  /\ formaturl (formaturl (L "https://github.com/ARMmbed/mbed-os.git") Phttps) Phttps
     = formaturl (L "https://github.com/ARMmbed/mbed-os.git") Phttps
  /\ formaturl (formaturl (L "file://host/repo") Phttp) Phttp
     = formaturl (L "file://host/repo") Phttp.
Proof.
  split; [|split; [|split]].
  - eapply (proj1 (formaturl_idempotent _ Phttp)). vm_compute. reflexivity.
  - eapply (proj1 (proj2 (formaturl_idempotent _ Pssh)));
      [vm_compute; reflexivity | vm_compute; reflexivity | left; reflexivity].
  - eapply (proj1 (proj2 (formaturl_idempotent _ Phttps)));
      [vm_compute; reflexivity | vm_compute; reflexivity | right; split; vm_compute; reflexivity].
  - eapply (proj2 (proj2 (formaturl_idempotent _ Phttp)));
      [vm_compute; reflexivity | vm_compute; reflexivity | vm_compute; reflexivity
      | discriminate | vm_compute; reflexivity | vm_compute; reflexivity].
Defined.

(** ** Reference files *)

Lemma word_name a : word a = true -> cls_name a = true.
Proof. unfold cls_name. intros ->. reflexivity. Qed.

Lemma name_plain a :
  cls_name a = true ->
  dot a = true /\ is_space a = false /\ chr "/" a = false /\ chr "\" a = false
  /\ chr "#" a = false /\ chr "." a = false /\ cls_local_tail a = true.
Proof. destruct a as [[] [] [] [] [] [] [] []]; vm_compute; intros; repeat split; congruence. Qed.

Lemma word_plain a :
  word a = true ->
  dot a = true /\ is_space a = false /\ chr "/" a = false /\ chr "\" a = false
  /\ chr "#" a = false /\ cls_local_tail a = true.
Proof. destruct a as [[] [] [] [] [] [] [] []]; vm_compute; intros; repeat split; congruence. Qed.

Lemma url_char_plain a :
  url_char a = true ->
  dot a = true /\ is_space a = false /\ chr "\" a = false /\ chr "#" a = false.
Proof. destruct a as [[] [] [] [] [] [] [] []]; vm_compute; intros; repeat split; congruence. Qed.

Lemma rev_char_plain a :
  rev_char a = true ->
  dot a = true /\ is_space a = false /\ chr "\" a = false /\ chr "/" a = false.
Proof. destruct a as [[] [] [] [] [] [] [] []]; vm_compute; intros; repeat split; congruence. Qed.

Lemma head_tail a : cls_local_head a = true -> cls_local_tail a = true.
Proof. destruct a as [[] [] [] [] [] [] [] []]; vm_compute; intros; congruence. Qed.

Lemma forallb_imp (p q : ascii -> bool) (l : str) :
  (forall a, p a = true -> q a = true) -> forallb p l = true -> forallb q l = true.
Proof.
  intros H. induction l as [|a l IH]; cbn; [reflexivity|].
  rewrite !andb_true_iff. intros [Ha Hl]. auto.
Qed.

Lemma existsb_forallb (p : ascii -> bool) (l k : str) :
  existsb (fun a => negb (p a)) l = true -> forallb p (l ++ k) = true -> False.
Proof.
  induction l as [|a l IH]; cbn; [discriminate|].
  rewrite orb_true_iff, andb_true_iff. intros [Ha|Hl] [Hpa Hp]; [|auto].
  rewrite Hpa in Ha. discriminate.
Qed.

Lemma lstrip_keep (p : ascii -> bool) (a : ascii) (s : str) :
  p a = false -> lstrip p (a :: s) = a :: s.
Proof. cbn. intros ->. reflexivity. Qed.

Lemma rstrip_snoc_drop (p : ascii -> bool) (s : str) (a : ascii) :
  p a = true -> rstrip p (s ++ [a]) = rstrip p s.
Proof. unfold rstrip. rewrite rev_app_distr. cbn. intros ->. reflexivity. Qed.

Lemma rstrip_snoc_keep (p : ascii -> bool) (s : str) (a : ascii) :
  p a = false -> rstrip p (s ++ [a]) = s ++ [a].
Proof.
  unfold rstrip. rewrite rev_app_distr. cbn. intros ->. cbn. rewrite rev_involutive. reflexivity.
Qed.

Lemma unbackslash_keep (s : str) :
  forallb (fun a => negb (chr "\" a)) s = true -> unbackslash s = s.
Proof.
  unfold unbackslash. induction s as [|a s IH]; [reflexivity|]. intros H.
  change (negb (chr "\" a) && forallb (fun a => negb (chr "\" a)) s = true) in H.
  apply andb_true_iff in H as [Ha Hs].
  rewrite map_cons, IH by exact Hs. f_equal.
  destruct (Ascii.eqb_spec a "\") as [->|_]; [|reflexivity].
  unfold chr in Ha. rewrite Ascii.eqb_refl in Ha. discriminate.
Qed.

(** Two ways to cut a string at a delimiter, the first at its first
    occurrence. *)
Lemma split_first (d : ascii) (N : str) : forall (y R H : str),
  forallb (fun a => negb (chr d a)) N = true ->
  y ++ d :: R = N ++ d :: H ->
  (y = N /\ R = H) \/ (exists k, y = N ++ d :: k /\ H = k ++ d :: R).
Proof.
  induction N as [|n N IH]; intros y R H HN E.
  - destruct y as [|b y]; inversion E; subst; [left; auto|right; eauto].
  - change (negb (chr d n) && forallb (fun a => negb (chr d a)) N = true) in HN.
    apply andb_true_iff in HN as [Hn HN]. destruct y as [|b y]; inversion E; subst.
    + unfold chr in Hn. rewrite Ascii.eqb_refl in Hn. discriminate.
    + destruct (IH y R H HN H2) as [[-> ->]|(k & -> & ->)]; [left; auto|right; eauto].
Qed.

Lemma no_delim (d : ascii) (Z k R : str) :
  forallb (fun a => negb (chr d a)) Z = true -> Z <> k ++ d :: R.
Proof.
  intros H ->. rewrite forallb_app in H. apply andb_true_iff in H as [_ H]. cbn in H.
  unfold chr in H. rewrite Ascii.eqb_refl in H. discriminate.
Qed.

(** What "/?(?:#(.* ))?$" accepts. *)
Lemma ref_tail_matched n0 g s c s' c' :
  matched n0 (Cat (Opt (Cls (chr "/")))
                  (Cat (Opt (Cat (Lit (L "#")) (Grp g (star dot)))) Eol)) s c s' c' ->
  s = [] \/ s = [nl] \/ s = L "/" \/ s = L "/" ++ [nl]
  \/ (exists x, s = L "#" ++ x) \/ (exists x, s = L "/#" ++ x).
Proof.
  cbn [matched]. intros (s1 & c1 & Hsl & s2 & c2 & Hh & He & _ & _).
  assert (Hs1 : s1 = [] \/ s1 = [nl] \/ exists x, s1 = L "#" ++ x).
  { destruct Hh as [(s3 & c3 & (-> & _) & _)|[-> _]]; [eauto|].
    destruct He as [->| ->]; auto. }
  destruct Hsl as [(a & -> & Ha & _)|[-> _]].
  - apply Ascii.eqb_eq in Ha as <-.
    destruct Hs1 as [->|[->|[x ->]]]; eauto 10.
  - destruct Hs1 as [->|[->|[x ->]]]; eauto 10.
Qed.

Section RoundTrip.

Variables (base nm ext : str) (rev0 : option str).

Hypothesis Hbase : forallb url_char base = true.
Hypothesis Hremote : existsb (fun a => negb (cls_local_tail a)) base = true.
Hypothesis Hnm : forallb cls_name nm = true.
Hypothesis Hnm1 : 1 <= length nm.
Hypothesis Hext : is_ext ext.
Hypothesis Hrev :
  match rev0 with
  | Some h => forallb rev_char h = true /\ 1 <= length h
  | None => True
  end.

Abbreviation the_url := (ref_url base nm ext).
Abbreviation the_line := (ref_line base nm ext rev0).

Lemma hash_part_cases :
  (hash_part rev0 = [] /\ rev0 = None)
  \/ exists h, rev0 = Some h /\ hash_part rev0 = L "#" ++ h
               /\ forallb rev_char h = true /\ 1 <= length h.
Proof.
  destruct rev0 as [[|a h]|]; [destruct Hrev as [_ H]; cbn in H; lia| |left; auto].
  right. exists (a :: h). destruct Hrev. auto.
Qed.

Lemma ext_chars (p : ascii -> bool) :
  p "." = true -> (forall a, word a = true -> p a = true) -> forallb p ext = true.
Proof.
  intros Hdot Hw. destruct Hext as [->|(e & -> & He & _)]; [reflexivity|].
  cbn. rewrite Hdot. cbn. apply (forallb_imp word); assumption.
Qed.

Lemma the_line_not_local : m_local the_line = None.
Proof.
  apply rmatch_none. intros s' m H.
  unfold regex_local_ref, lazy_star, star in H. cbn [seq] in H.
  destruct H as (s1 & c1 & (_ & -> & ->) & s2 & c2 & (c3 & w & Hin & _ & _) & Htail).
  destruct Hin as (s3 & c4 & (a & Ha & Hhead & _) & _ & w0 & -> & Hw0 & _).
  apply ref_tail_matched in Htail.
  assert (Hpre : forallb cls_local_tail (a :: w0) = true).
  { cbn. rewrite (head_tail a Hhead). exact Hw0. }
  change (the_line = (a :: w0) ++ s2) in Ha. unfold ref_line, ref_url in Ha.
  rewrite <- !app_assoc in Ha. symmetry in Ha.
  apply app_eq_app in Ha as [k [[Hk _]|[Hk Hs2]]].
  - rewrite Hk in Hpre. exact (existsb_forallb _ _ _ Hremote Hpre).
  - assert (Hku : forallb url_char k = true).
    { rewrite Hk in Hbase. exact (forallb_app_r _ _ _ Hbase). }
    destruct nm as [|n1 nm']; [cbn in Hnm1; lia|].
    cbn in Hnm. apply andb_true_iff in Hnm as [Hn1 _].
    destruct (name_plain n1 Hn1) as (E1 & _ & _ & _ & E2 & _).
    rewrite Hs2 in Htail.
    destruct Htail as [H|[H|[H|[H|[[x H]|[x H]]]]]].
    + destruct k; discriminate.
    + destruct k as [|b [|b' k]]; discriminate.
    + destruct k as [|b [|b' k]]; discriminate.
    + destruct k as [|b [|b' [|b'' k]]]; try discriminate.
      injection H as -> _. vm_compute in E1. discriminate.
    + destruct k as [|b k]; [discriminate|].
      injection H as -> _. vm_compute in Hku. discriminate.
    + destruct k as [|b [|b' k]]; try discriminate.
      * injection H as -> _. vm_compute in E2. discriminate.
      * injection H as -> -> _. vm_compute in Hku. discriminate.
Qed.

Lemma name_ext_noslash : forallb (fun a => negb (chr "/" a)) (nm ++ ext) = true.
Proof.
  rewrite forallb_app. apply andb_true_iff. split.
  - apply (forallb_imp cls_name); [|exact Hnm].
    intros a Ha. destruct (name_plain a Ha) as (_ & _ & -> & _). reflexivity.
  - apply ext_chars; [reflexivity|].
    intros a Ha. destruct (word_plain a Ha) as (_ & _ & -> & _). reflexivity.
Qed.

Lemma the_url_dot : forallb dot base = true.
Proof.
  apply (forallb_imp url_char); [|exact Hbase].
  intros a Ha. destruct (url_char_plain a Ha) as (-> & _). reflexivity.
Qed.

Lemma stops_after_name (p : ascii -> bool) (X : str) :
  p "." = false -> p "/" = false -> stops p (ext ++ L "/" ++ X).
Proof.
  intros Hd Hs. destruct Hext as [->|(e & -> & _)]; cbn; assumption.
Qed.

(** The pattern of [.*] takes the url up to its last slash: nothing that
    comes later can start the name. *)
Lemma url_ref_inner_skip n0 (x y : str) (c : caps) :
  y <> [] ->
  L "/" ++ (nm ++ ext) ++ L "/" ++ hash_part rev0 = y ++ x ->
  ms n0 (Cat (Lit (L "/"))
             (Cat (Grp 2 (plus cls_name)) (Opt (Cat (Lit (L ".")) (plus word))))) x c = [].
Proof.
  intros Hy E. apply ms_nil. intros s' c' H. unfold plus in H. cbn [matched] in H.
  destruct H as (s1 & c1 & (-> & _) & s2 & c2
                 & (c3 & w2 & (_ & w & -> & Hw & Hw1 & _) & _) & _).
  destruct y as [|b y]; [congruence|]. injection E as _ E.
  destruct w as [|n w]; [cbn in Hw1; lia|].
  cbn in Hw. apply andb_true_iff in Hw as [Hn _].
  destruct (name_plain n Hn) as (_ & _ & _ & _ & Hhash & _).
  symmetry in E.
  apply (split_first "/" (nm ++ ext)) in E; [|exact name_ext_noslash].
  destruct hash_part_cases as [[Hp _]|(h & _ & Hp & Hh & _)]; rewrite Hp in E.
  - destruct E as [[_ E]|(k & _ & E)]; [discriminate|]. destruct k; discriminate.
  - destruct E as [[_ E]|(k & _ & E)].
    + injection E as -> _. vm_compute in Hhash. discriminate.
    + revert E. apply no_delim.
      change (negb (chr "/" "#") && forallb (fun a => negb (chr "/" a)) h = true).
      apply andb_true_iff; split; [reflexivity|].
      apply (forallb_imp rev_char); [|exact Hh].
      intros a Ha. destruct (rev_char_plain a Ha) as (_ & _ & _ & ->). reflexivity.
Qed.

Lemma url_ref_inner n0 (c : caps) :
  first n0 (seq [ star dot; Lit (L "/"); Grp 2 (plus cls_name);
                  Opt (Cat (Lit (L ".")) (plus word)) ]) the_line c
  = Some (L "/" ++ hash_part rev0, <[2:=Some nm]> c).
Proof.
  cbn [seq]. unfold star.
  set (S := L "/" ++ (nm ++ ext) ++ L "/" ++ hash_part rev0).
  assert (Hline : the_line = base ++ S).
  { unfold ref_line, ref_url, S. rewrite <- !app_assoc. reflexivity. }
  rewrite Hline.
  destruct (rep_greedy_split dot base 0 S the_url_dot ltac:(lia)) as (l1 & l2 & Hsplit & Hl1).
  eapply first_cat_skip.
  - cbn [ms]. rewrite Hsplit, map_app. cbn [map]. reflexivity.
  - intros a Ha. apply in_map_iff in Ha as (x & <- & Hx). cbn [fst snd].
    destruct (Hl1 x Hx) as (y & Hy & E). apply (url_ref_inner_skip n0 x y c Hy E).
  - unfold S. rewrite <- app_assoc.
    eapply first_cat; [apply (first_lit _ (L "/"))|].
    eapply first_cat.
    + apply (first_grp _ 2 _ nm); [reflexivity|].
      apply first_rep_greedy; [exact Hnm|exact Hnm1|].
      apply stops_after_name; reflexivity.
    + destruct Hext as [->|(e & -> & He & He1)].
      * apply first_opt_skip. reflexivity.
      * apply first_opt_take. rewrite <- app_assoc.
        eapply first_cat; [apply (first_lit _ (L "."))|].
        apply first_rep_greedy; [exact He|exact He1|reflexivity].
Qed.

Lemma first_star_dot_all n0 g (h : str) (c : caps) :
  forallb dot h = true ->
  first n0 (Grp g (star dot)) h c = Some ([], <[g:=Some h]> c).
Proof.
  intros Hh. apply first_grp; [symmetry; apply app_nil_r|].
  pose proof (first_rep_greedy n0 0 dot h [] c Hh ltac:(lia) I) as H.
  rewrite app_nil_r in H. exact H.
Qed.

(** The reference grammar finds the url and the revision in the line. *)
Lemma the_line_url_ref :
  exists m, m_url_ref the_line = Some m
            /\ group m 1 = Some the_url /\ group m 3 = rev0.
Proof.
  set (c0 := replicate 4 (None : option str)).
  set (c1 := <[1:=Some the_url]> (<[2:=Some nm]> c0)).
  assert (H1 : first (length the_line)
                 (Grp 1 (seq [ star dot; Lit (L "/"); Grp 2 (plus cls_name);
                               Opt (Cat (Lit (L ".")) (plus word)) ])) the_line c0
               = Some (L "/" ++ hash_part rev0, c1)).
  { apply first_grp; [reflexivity|]. apply url_ref_inner. }
  assert (H2 : exists m, first (length the_line)
                 (Cat (Opt (Cat (Lit (L "#")) (Grp 3 (star dot)))) Eol) (hash_part rev0) c1
               = Some ([], m) /\ group m 1 = Some the_url /\ group m 3 = rev0).
  { destruct hash_part_cases as [[Hp ->]|(h & -> & Hp & Hh & _)]; rewrite Hp.
    - exists c1. split; [|split; reflexivity].
      eapply first_cat; [apply first_opt_skip; reflexivity|apply first_eol].
    - exists (<[3:=Some h]> c1). split; [|split; reflexivity].
      eapply first_cat; [|apply first_eol]. apply first_opt_take.
      eapply first_cat; [apply (first_lit _ (L "#"))|].
      apply first_star_dot_all. apply (forallb_imp rev_char); [|exact Hh].
      intros a Ha. destruct (rev_char_plain a Ha) as (-> & _). reflexivity. }
  destruct H2 as (m & H2 & G1 & G3). exists m. split; [|split; assumption].
  apply (rmatch_first 3 _ the_line []). fold c0. unfold regex_url_ref. cbn [seq].
  eapply first_cat; [apply first_bol; reflexivity|].
  eapply first_cat; [exact H1|].
  eapply first_cat; [apply first_opt_take; apply first_cls; reflexivity|].
  exact H2.
Qed.

Lemma rstrip_keep (p : ascii -> bool) (s : str) :
  (forall z a, s = z ++ [a] -> p a = false) -> rstrip p s = s.
Proof.
  destruct s as [|a s _] using rev_ind; [reflexivity|].
  intros H. apply rstrip_snoc_keep. apply (H s a). reflexivity.
Qed.

Lemma the_url_rstrip : rstrip (chr "/") the_url = the_url.
Proof.
  apply rstrip_keep. intros z a E. unfold ref_url in E. rewrite !app_assoc in E.
  rewrite <- (app_assoc _ nm ext) in E.
  assert (Hl : 1 <= length (nm ++ ext)) by (rewrite length_app; lia).
  pose proof (last_char _ _ _ z a E Hl name_ext_noslash) as H.
  apply negb_true_iff in H. exact H.
Qed.

Lemma the_url_truthy : truthy (Some the_url) = true.
Proof.
  unfold ref_url. destruct base as [|b0 b]; [discriminate Hremote|]. reflexivity.
Qed.

Lemma the_line_strip : strip (the_line ++ [nl]) = the_line.
Proof.
  unfold strip.
  assert (Hl : lstrip is_space (the_line ++ [nl]) = the_line ++ [nl]).
  { unfold ref_line, ref_url. destruct base as [|b0 b]; [discriminate Hremote|].
    apply lstrip_keep. cbn in Hbase. apply andb_true_iff in Hbase as [Hb _].
    destruct (url_char_plain b0 Hb) as (_ & -> & _). reflexivity. }
  rewrite Hl, rstrip_snoc_drop by reflexivity.
  apply rstrip_keep. intros z a E. unfold ref_line in E.
  destruct hash_part_cases as [[Hp _]|(h & _ & Hp & Hh & Hh1)]; rewrite Hp in E.
  - rewrite app_nil_r in E. apply app_inj_tail in E as [_ <-]. reflexivity.
  - rewrite !app_assoc in E.
    assert (Hns : forallb (fun a => negb (is_space a)) h = true).
    { apply (forallb_imp rev_char); [|exact Hh].
      intros c Hc. destruct (rev_char_plain c Hc) as (_ & -> & _). reflexivity. }
    pose proof (last_char _ _ _ z a E Hh1 Hns) as H.
    apply negb_true_iff in H. exact H.
Qed.

Lemma the_line_unbackslash : unbackslash the_line = the_line.
Proof.
  apply unbackslash_keep. unfold ref_line, ref_url.
  rewrite !forallb_app, !andb_true_iff. repeat split.
  - apply (forallb_imp url_char); [|exact Hbase].
    intros a Ha. destruct (url_char_plain a Ha) as (_ & _ & -> & _). reflexivity.
  - apply (forallb_imp cls_name); [|exact Hnm].
    intros a Ha. destruct (name_plain a Ha) as (_ & _ & _ & -> & _). reflexivity.
  - apply ext_chars; [reflexivity|].
    intros a Ha. destruct (word_plain a Ha) as (_ & _ & _ & -> & _). reflexivity.
  - destruct hash_part_cases as [[-> _]|(h & _ & -> & Hh & _)]; [reflexivity|].
    change (negb (chr "\" "#") && forallb (fun a => negb (chr "\" a)) h = true).
    apply andb_true_iff; split; [reflexivity|].
    apply (forallb_imp rev_char); [|exact Hh].
    intros a Ha. destruct (rev_char_plain a Ha) as (_ & _ & -> & _). reflexivity.
Qed.

Lemma the_line_fullurl (self : Repo) :
  url self = Some the_url -> hash self = rev0 -> fullurl self = Some the_line.
Proof.
  intros Hu Hh. unfold fullurl. rewrite Hu, Hh, the_url_truthy.
  assert (Hpor : por (Some the_url) [] = the_url).
  { pose proof the_url_truthy as H. unfold truthy in H. unfold por.
    destruct the_url; [discriminate|reflexivity]. }
  rewrite Hpor, the_url_rstrip. unfold ref_line. do 2 f_equal.
  destruct rev0 as [[|a h]|]; reflexivity.
Qed.

Lemma the_line_fromurl (cwd : str) :
  formaturl the_url Pdefault = the_url ->
  exists r, fromurl cwd (the_line ++ [nl]) None = Ok r
            /\ url r = Some the_url /\ hash r = rev0 /\ is_local r = false.
Proof.
  intros Hcanon. unfold fromurl.
  rewrite the_line_strip, the_line_unbackslash, the_line_not_local.
  destruct the_line_url_ref as (m & -> & G1 & G3).
  eexists. split; [reflexivity|]. cbn [url hash is_local].
  unfold gfmt. rewrite G1, Hcanon. auto.
Qed.

End RoundTrip.

(** C4, where the code departs from it: [Repo.write] emits, for the
    canonical url [https://github.com/socketio/socket.io-client], whose last
    segment is not of the shape [name] or [name.ext], a reference line that
    [Repo.fromurl] rejects as an invalid repository, and the next
    [Repo.write] of the same repository exits on the file it wrote itself;
    and a revision that holds a slash is written after the [#] and read back
    as part of the url, with no revision. *)
Lemma reference_roundtrip_fails :
  let self := {| name := L "socket.io-client"; path := L "/w/socket.io-client";
                 url := Some (L "https://github.com/socketio/socket.io-client");
                 hash := Some (L "0123456789ab"); is_local := false; scm := Some git |} in
  let content := L "https://github.com/socketio/socket.io-client/#0123456789ab" ++ [nl] in
  let branch := {| name := L "mbed-os"; path := L "/w/mbed-os";
                   url := Some (L "https://github.com/ARMmbed/mbed-os");
                   hash := Some (L "feature/x"); is_local := false; scm := Some git |} in
  let branch_content := L "https://github.com/ARMmbed/mbed-os/#feature/x" ++ [nl] in
  (formaturl (L "https://github.com/socketio/socket.io-client") Pdefault
     = L "https://github.com/socketio/socket.io-client"
   /\ write (L "/w") self None = (Some content, Ok tt)
   /\ fromurl (L "/w") content None
      = Exn (SystemExit (-1)
               (L "Invalid repository (https://github.com/socketio/socket.io-client/#0123456789ab)"))
   /\ ~ (exists r, fromurl (L "/w") content None = Ok r
                   /\ url r = url self /\ hash r = hash self))
  /\ write (L "/w") self (Some content)
     = (Some content,
        Exn (SystemExit (-1)
               (L "Invalid repository (https://github.com/socketio/socket.io-client/#0123456789ab)")))
  /\ (formaturl (L "https://github.com/ARMmbed/mbed-os") Pdefault
        = L "https://github.com/ARMmbed/mbed-os"
      /\ write (L "/w") branch None = (Some branch_content, Ok tt)
      /\ exists r, fromurl (L "/w") branch_content None = Ok r
                   /\ url r = Some (L "https://github.com/ARMmbed/mbed-os/#feature/x")
                   /\ hash r = None).
Proof.
  intros self content branch branch_content.
  assert (H : fromurl (L "/w") content None
              = Exn (SystemExit (-1)
                  (L "Invalid repository (https://github.com/socketio/socket.io-client/#0123456789ab)")))
    by (vm_compute; reflexivity).
  split; [|split].
  - split; [vm_compute; reflexivity|]. split; [vm_compute; reflexivity|]. split; [exact H|].
    intros (r & Hr & _). rewrite H in Hr. discriminate.
  - vm_compute. reflexivity.
  - split; [vm_compute; reflexivity|]. split; [vm_compute; reflexivity|].
    eexists. split; [vm_compute; reflexivity|]. split; reflexivity.
Qed.

(** References that do come back as written: for a repository whose url
    is canonical and of the shape [base/name] or [base/name.ext] of the
    reference grammar, with a base that is not a local path, and whose
    revision is absent or a non-empty string without white space, backslash
    or slash, [Repo.write] makes the reference file [fullurl] and a newline,
    and [Repo.fromurl] reads the same url and the same revision from it;
    without a revision the line is the url and a slash, and the revision
    read is absent. *)
Theorem reference_roundtrip (cwd : str) (self : Repo) (base nm ext : str) :
  url self = Some (ref_url base nm ext) ->
  formaturl (ref_url base nm ext) Pdefault = ref_url base nm ext ->
  forallb url_char base = true ->
  existsb (fun a => negb (cls_local_tail a)) base = true ->
  forallb cls_name nm = true -> 1 <= length nm ->
  is_ext ext ->
  match hash self with
  | Some h => forallb rev_char h = true /\ 1 <= length h
  | None => True
  end ->
  fullurl self = Some (ref_line base nm ext (hash self))
  /\ write cwd self None = (Some (ref_line base nm ext (hash self) ++ [nl]), Ok tt)
  /\ (hash self = None -> ref_line base nm ext (hash self) = ref_url base nm ext ++ L "/")
  /\ exists r, fromurl cwd (ref_line base nm ext (hash self) ++ [nl]) None = Ok r
               /\ url r = url self /\ hash r = hash self /\ is_local r = false.
Proof.
  intros Hu Hcanon Hbase Hremote Hnm Hnm1 Hext Hrev.
  pose proof (the_line_fullurl base nm ext (hash self) Hbase Hremote Hnm Hnm1 Hext Hrev
                self Hu eq_refl) as Hfull.
  split; [exact Hfull|]. split; [|split].
  - unfold write. rewrite Hfull. reflexivity.
  - intros ->. reflexivity.
  - rewrite Hu.
    apply (the_line_fromurl base nm ext (hash self) Hbase Hremote Hnm Hnm1 Hext Hrev cwd Hcanon).
Qed.

Lemma reference_roundtrip_witness :
  let self := {| name := L "mbed-os"; path := L "/w/mbed-os";
                 url := Some (L "https://github.com/ARMmbed/mbed-os");
                 hash := Some (L "0123456789ab"); is_local := false; scm := Some git |} in
  write (L "/w") self None
    = (Some (L "https://github.com/ARMmbed/mbed-os/#0123456789ab" ++ [nl]), Ok tt)
  /\ exists r, fromurl (L "/w") (L "https://github.com/ARMmbed/mbed-os/#0123456789ab" ++ [nl]) None
                 = Ok r
               /\ url r = url self /\ hash r = hash self /\ is_local r = false.
Proof.
  intros self.
  destruct (reference_roundtrip (L "/w") self (L "https://github.com/ARMmbed") (L "mbed-os") [])
    as (_ & Hw & _ & Hr).
  - reflexivity.
  - vm_compute. reflexivity.
  - vm_compute. reflexivity.
  - vm_compute. reflexivity.
  - vm_compute. reflexivity.
  - cbn. lia.
  - left. reflexivity.
  - split; [vm_compute; reflexivity | cbn; lia].
  - split; [exact Hw | exact Hr].
Defined.

(** * Further properties *)

(** ** Lines *)

Lemma noeol_cons a l : noeol (a :: l) = negb (is_eol a) && noeol l.
Proof. reflexivity. Qed.

Lemma noeol_app l1 l2 : noeol (l1 ++ l2) = noeol l1 && noeol l2.
Proof. apply forallb_app. Qed.

Lemma not_eol a : is_eol a = false -> Ascii.eqb a nl = false /\ Ascii.eqb a cr = false.
Proof. unfold is_eol. intros H. apply orb_false_iff in H. exact H. Qed.

Lemma splitlines_aux_line (l : str) : forall cur rest,
  noeol l = true ->
  splitlines_aux cur (l ++ nl :: rest) = (cur ++ l) :: splitlines_aux [] rest.
Proof.
  induction l as [|a l IH]; intros cur rest H.
  - rewrite app_nil_r. reflexivity.
  - rewrite noeol_cons in H. apply andb_true_iff in H as [Ha Hl].
    apply negb_true_iff, not_eol in Ha as [Hn Hc].
    change ((a :: l) ++ nl :: rest) with (a :: (l ++ nl :: rest)).
    cbn [splitlines_aux]. rewrite Hn, Hc, IH by exact Hl.
    rewrite <- app_assoc. reflexivity.
Qed.

Lemma splitlines_aux_end (l : str) : forall cur,
  noeol l = true ->
  splitlines_aux cur l = match cur ++ l with [] => [] | _ => [cur ++ l] end.
Proof.
  induction l as [|a l IH]; intros cur H.
  - rewrite app_nil_r. reflexivity.
  - rewrite noeol_cons in H. apply andb_true_iff in H as [Ha Hl].
    apply negb_true_iff, not_eol in Ha as [Hn Hc].
    cbn [splitlines_aux]. rewrite Hn, Hc, IH by exact Hl.
    rewrite <- app_assoc. reflexivity.
Qed.

(** Lines written with ['\n'.join(lines) + '\n'] are read back by
    [splitlines]. *)
Lemma splitlines_join (ls : list str) :
  ls <> [] -> Forall (fun l => noeol l = true) ls ->
  splitlines (join_lines ls ++ [nl]) = ls.
Proof.
  unfold splitlines. induction ls as [|l ls IH]; [congruence|]. intros _ H.
  apply Forall_cons in H as [Hl Hls]. destruct ls as [|l2 ls].
  - cbn [join_lines]. rewrite splitlines_aux_line by exact Hl. reflexivity.
  - change (join_lines (l :: l2 :: ls)) with (l ++ nl :: join_lines (l2 :: ls)).
    rewrite <- app_assoc. change ((nl :: join_lines (l2 :: ls)) ++ [nl])
      with (nl :: (join_lines (l2 :: ls) ++ [nl])).
    rewrite splitlines_aux_line by exact Hl. rewrite IH; [reflexivity|discriminate|exact Hls].
Qed.

(** No line that [splitlines] returns holds a line break. *)
Lemma splitlines_aux_noeol (n : nat) : forall s cur,
  length s <= n -> noeol cur = true ->
  Forall (fun l => noeol l = true) (splitlines_aux cur s).
Proof.
  induction n as [|n IH]; intros s cur Hlen Hcur.
  - destruct s; [|cbn in Hlen; lia]. cbn. destruct cur; repeat constructor. exact Hcur.
  - destruct s as [|a s]; [cbn; destruct cur; repeat constructor; exact Hcur|].
    cbn in Hlen. cbn [splitlines_aux].
    destruct (Ascii.eqb a nl) eqn:Hn.
    { constructor; [exact Hcur|]. apply IH; [lia|reflexivity]. }
    destruct (Ascii.eqb a cr) eqn:Hc.
    { destruct s as [|b s]; [repeat constructor; exact Hcur|].
      cbn in Hlen. destruct (Ascii.eqb b nl).
      - constructor; [exact Hcur|]. apply IH; [lia|reflexivity].
      - constructor; [exact Hcur|]. apply IH; [cbn; lia|reflexivity]. }
    apply IH; [lia|]. rewrite noeol_app, Hcur. cbn. unfold is_eol. rewrite Hn, Hc. reflexivity.
Qed.

Lemma splitlines_noeol (s : str) : Forall (fun l => noeol l = true) (splitlines s).
Proof. apply (splitlines_aux_noeol (length s)); [lia|reflexivity]. Qed.

(** ** The configuration store, file to file *)

(** A line whose key is [var] starts with [var=]. *)
Lemma cfg_key_is_prefix (var line : str) :
  cfg_key_is var line = true -> exists v, line = var ++ L "=" ++ v.
Proof.
  unfold cfg_key_is, m_cfg. destruct (rmatch 2 regex_cfg line) as [m|] eqn:E; [|discriminate].
  intros Hk. apply rmatch_matched in E as [s' H].
  unfold regex_cfg, star, plus in H. cbn [seq matched] in H.
  destruct H as (s1 & c1 & (_ & -> & ->)
    & s2 & c2 & (c3 & g1 & (-> & w & Hw & _) & Hg1 & ->)
    & s3 & c4 & (-> & ->)
    & s4 & c5 & Hopt & _ & _ & Em).
  assert (G : group m 1 = Some g1).
  { rewrite Em. destruct Hopt as [(c6 & g2 & (-> & _) & _ & ->)|[_ ->]]; reflexivity. }
  rewrite G in Hk. unfold opt_str_eqb in Hk. apply bool_decide_eq_true_1 in Hk.
  injection Hk as ->. exists s3. exact Hg1.
Qed.

Lemma startswith_true (pre s : str) : startswith pre s = true <-> exists r, s = pre ++ r.
Proof.
  revert s. induction pre as [|a pre IH]; intros s; cbn.
  - split; [eauto|reflexivity].
  - destruct s as [|b s]; [split; [discriminate|intros [r [=]]]|].
    rewrite andb_true_iff, IH. split.
    + intros [Hab [r ->]]. apply Ascii.eqb_eq in Hab as ->. eauto.
    + intros [r [= -> ->]]. split; [apply Ascii.eqb_refl|eauto].
Qed.

Lemma get_cfg_loop_none (var : str) (lines : list str) :
  Forall (fun l => cfg_key_is var l = false) lines -> get_cfg_loop var lines = None.
Proof.
  induction 1 as [|l ls Hl _ IH]; [reflexivity|]. cbn [get_cfg_loop].
  unfold cfg_key_is in Hl. destruct (m_cfg l) as [m|]; [|exact IH]. rewrite Hl. exact IH.
Qed.

Lemma name_noeol (a : ascii) : cls_name a = true -> is_eol a = false.
Proof.
  intros H. unfold is_eol.
  destruct (Ascii.eqb_spec a nl) as [->|_]; [discriminate H|].
  destruct (Ascii.eqb_spec a cr) as [->|_]; [discriminate H|]. reflexivity.
Qed.

Lemma noeol_dot (val : str) : noeol val = true -> forallb dot val = true.
Proof.
  unfold noeol. apply forallb_imp. intros a H. apply negb_true_iff, not_eol in H as [H _].
  unfold dot. rewrite H. reflexivity.
Qed.

Lemma cfg_line_noeol (var val : str) :
  forallb cls_name var = true -> noeol val = true -> noeol (var ++ L "=" ++ val) = true.
Proof.
  intros Hvar Hval. rewrite !noeol_app, Hval.
  assert (H : noeol var = true); [|rewrite H; reflexivity].
  revert Hvar. apply forallb_imp. intros a H. rewrite (name_noeol _ H). reflexivity.
Qed.

Lemma cfg_line_key (var val : str) :
  forallb cls_name var = true -> 1 <= length var -> noeol val = true ->
  cfg_key_is var (var ++ L "=" ++ val) = true.
Proof.
  intros Hvar Hvar1 Hval.
  destruct (cfg_line_match var val Hvar Hvar1 (noeol_dot _ Hval)) as (m & E & G1 & _).
  unfold cfg_key_is. rewrite E, G1. apply bool_decide_eq_true_2. reflexivity.
Qed.

Lemma list_remove_first_Forall (P : str -> Prop) x lines :
  Forall P lines -> Forall P (list_remove_first x lines).
Proof.
  induction 1 as [|y ys Hy Hys IH]; cbn; [constructor|].
  destruct (str_eqb x y); [exact Hys|constructor; assumption].
Qed.

Lemma set_cfg_loop_Forall (P : str -> Prop) (fuel : nat) (var : str) : forall i lines,
  Forall P lines -> Forall P (set_cfg_loop fuel var i lines).
Proof.
  induction fuel as [|fuel IH]; intros i lines H; [exact H|]. cbn [set_cfg_loop].
  destruct (lines !! i) as [line|]; [|exact H]. apply IH.
  destruct (cfg_key_is var line); [apply list_remove_first_Forall|]; exact H.
Qed.

(** What [set_cfg] writes is read back, line by line, as the lines the
    loop left and the new one. *)
Lemma set_cfg_lines (var val : str) (file : option str) :
  forallb cls_name var = true -> noeol val = true ->
  splitlines (set_cfg var val file)
  = set_cfg_loop (length (file_lines file)) var 0 (file_lines file) ++ [var ++ L "=" ++ val].
Proof.
  intros Hvar Hval. unfold set_cfg. fold (file_lines file).
  apply splitlines_join; [intros E; apply app_eq_nil in E as [_ [=]]|].
  apply Forall_app. split.
  - apply set_cfg_loop_Forall. destruct file; [apply splitlines_noeol|constructor].
  - repeat constructor. apply cfg_line_noeol; assumption.
Qed.

Lemma set_cfg_loop_no_key (fuel : nat) (var : str) : forall i lines,
  Forall (fun l => cfg_key_is var l = false) lines -> set_cfg_loop fuel var i lines = lines.
Proof.
  induction fuel as [|fuel IH]; intros i lines H; [reflexivity|]. cbn [set_cfg_loop].
  destruct (lines !! i) as [line|] eqn:E; [|reflexivity].
  apply list_elem_of_lookup_2 in E. rewrite Forall_forall in H. rewrite (H _ E).
  apply IH. apply Forall_forall. exact H.
Qed.

Lemma key_lines_nil (var : str) (lines : list str) :
  key_lines var lines = [] -> Forall (fun l => cfg_key_is var l = false) lines.
Proof.
  unfold key_lines. induction lines as [|l ls IH]; [constructor|].
  rewrite filter_cons. destruct (decide (cfg_key_is var l = true)) as [E|E]; [discriminate|].
  intros H. constructor; [destruct (cfg_key_is var l); congruence|auto].
Qed.

Lemma key_lines_remove (var x : str) (lines : list str) :
  cfg_key_is var x = true -> x ∈ lines ->
  length (key_lines var lines) = S (length (key_lines var (list_remove_first x lines))).
Proof.
  intros Hx. unfold key_lines. induction lines as [|y ys IH]; [intros H; inversion H|].
  intros Hin. cbn [list_remove_first]. unfold str_eqb.
  destruct (bool_decide_reflect (x = y)) as [<-|Hne].
  - rewrite filter_cons_True by exact Hx. reflexivity.
  - apply elem_of_cons in Hin as [->|Hin]; [congruence|].
    rewrite !filter_cons. destruct (decide (cfg_key_is var y = true)); cbn; rewrite (IH Hin); reflexivity.
Qed.

(** With at most one line of the key, the loop of [set_cfg] leaves none. *)
Lemma set_cfg_loop_one_key (fuel : nat) (var : str) : forall i lines,
  length lines <= i + fuel ->
  Forall (fun l => cfg_key_is var l = false) (take i lines) ->
  length (key_lines var lines) <= 1 ->
  Forall (fun l => cfg_key_is var l = false) (set_cfg_loop fuel var i lines).
Proof.
  induction fuel as [|fuel IH]; intros i lines Hlen Hpre Hone.
  - cbn. rewrite take_ge in Hpre by lia. exact Hpre.
  - cbn [set_cfg_loop]. destruct (lines !! i) as [line|] eqn:E.
    2:{ apply lookup_ge_None_1 in E. rewrite take_ge in Hpre by lia. exact Hpre. }
    destruct (cfg_key_is var line) eqn:K.
    + pose proof (key_lines_remove var line lines K (list_elem_of_lookup_2 _ _ _ E)) as Hk.
      assert (Hnil : key_lines var (list_remove_first line lines) = []).
      { apply length_zero_iff_nil. lia. }
      rewrite set_cfg_loop_no_key; apply key_lines_nil; exact Hnil.
    + apply IH; [lia| |exact Hone].
      rewrite (take_S_r _ _ _ E). apply Forall_app. split; [exact Hpre|]. repeat constructor. exact K.
Qed.

(** X1 (Program.get_cfg): a key that heads no line of the config file,
    or any key when the file cannot be read, reads as [None]. *)
Theorem get_cfg_missing_key (var : str) (file : option str) :
  Forall (fun l => startswith (var ++ L "=") l = false) (file_lines file) ->
  get_cfg var file = None.
Proof.
  intros H. unfold get_cfg. fold (file_lines file). apply get_cfg_loop_none.
  eapply Forall_impl; [exact H|]. intros l Hl. cbn beta in Hl.
  destruct (cfg_key_is var l) eqn:K; [|reflexivity].
  apply cfg_key_is_prefix in K as [v ->].
  rewrite app_assoc, startswith_self in Hl. discriminate.
Qed.

Lemma get_cfg_missing_key_witness :
  get_cfg (L "TARGET") (Some (L "TOOLCHAIN=GCC_ARM" ++ [nl] ++ L "# TARGET=K64F" ++ [nl])) = None.
Proof. apply get_cfg_missing_key. vm_compute. repeat constructor. Defined.

(** X2 (Program.set_cfg): setting a key leaves every line of the other
    keys in the file, in the same order. *)
Theorem set_cfg_keeps_other_keys (var val : str) (file : option str) :
  forallb cls_name var = true -> 1 <= length var -> noeol val = true ->
  other_keys var (splitlines (set_cfg var val file)) = other_keys var (file_lines file).
Proof.
  intros Hvar Hvar1 Hval. rewrite set_cfg_lines by assumption.
  unfold other_keys. rewrite filter_app, set_cfg_loop_others.
  rewrite filter_cons_False, filter_nil, app_nil_r; [reflexivity|].
  rewrite cfg_line_key by assumption. discriminate.
Qed.

Lemma set_cfg_keeps_other_keys_witness :
  let file := Some (L "TARGET=K64F" ++ [nl] ++ L "TOOLCHAIN=GCC_ARM" ++ [nl]
                    ++ L "TARGET=LPC1768" ++ [nl] ++ L "note" ++ [nl]) in
  other_keys (L "TARGET") (splitlines (set_cfg (L "TARGET") (L "NRF51822") file))
  = [L "TOOLCHAIN=GCC_ARM"; L "note"].
Proof.
  intros file.
  refine (eq_trans (set_cfg_keeps_other_keys (L "TARGET") (L "NRF51822") file _ _ _) _).
  - reflexivity.
  - cbn. lia.
  - reflexivity.
  - vm_compute. reflexivity.
Defined.

(** X3 (Program.set_cfg, Program.get_cfg): for a key of one or more
    characters of [[\w+-]] and a value without line break (LF or CR), when
    the config file holds at most one line of the key, or cannot be read,
    the value set is the value read back from the written file. *)
Theorem set_cfg_then_get_cfg (var val : str) (file : option str) :
  forallb cls_name var = true -> 1 <= length var -> noeol val = true ->
  length (key_lines var (file_lines file)) <= 1 ->
  get_cfg var (Some (set_cfg var val file)) = Some val.
Proof.
  intros Hvar Hvar1 Hval Hone. unfold get_cfg. rewrite set_cfg_lines by assumption.
  apply get_cfg_loop_appended; [assumption|assumption|apply noeol_dot; assumption|].
  apply set_cfg_loop_one_key; [lia|constructor|exact Hone].
Qed.

Lemma set_cfg_then_get_cfg_witness :
  get_cfg (L "TARGET")
    (Some (set_cfg (L "TARGET") (L "NRF51822")
             (Some (L "TOOLCHAIN=GCC_ARM" ++ [nl] ++ L "TARGET=K64F" ++ [nl]))))
  = Some (L "NRF51822").
Proof.
  apply set_cfg_then_get_cfg.
  - reflexivity.
  - cbn. lia.
  - reflexivity.
  - vm_compute. lia.
Defined.

(** ** Revisions *)

Lemma hashtype_rev_matches (h : str) :
  hashtype (Some h) false = L "rev" <-> h <> [] /\ matches 1 regex_hash h = true.
Proof.
  unfold hashtype. destruct h as [|a h]; [split; [discriminate|intros [[] _]; reflexivity]|].
  destruct (matches 1 regex_hash (a :: h)); split; try discriminate; auto.
  intros [_ [=]].
Qed.

Lemma regex_hash_sound (h : str) :
  matches 1 regex_hash h = true ->
  exists w e, h = w ++ e /\ is_rev w /\ (e = [] \/ e = [nl]).
Proof.
  unfold matches. intros H. destruct (rmatch 1 regex_hash h) as [m|] eqn:E; [|discriminate].
  apply rmatch_matched in E as [s' E]. unfold regex_hash in E. cbn [seq matched] in E.
  destruct E as (s1 & c1 & (_ & -> & ->)
    & s2 & c2 & (c3 & g & (_ & w & -> & Hw & Hlo & Hhi) & _ & _)
    & He & _ & _).
  exists w, s2. split; [reflexivity|]. split; [|exact He].
  split; [exact Hw|]. cbn in Hhi. lia.
Qed.

Lemma regex_hash_complete (w e : str) :
  is_rev w -> e = [] \/ e = [nl] -> matches 1 regex_hash (w ++ e) = true.
Proof.
  intros [Hw Hlen] He. unfold matches.
  assert (M : matched (length (w ++ e)) regex_hash (w ++ e) (replicate 2 None) e
                (<[1:=Some w]> (replicate 2 None))).
  { unfold regex_hash. cbn [seq].
    eapply matched_cat; [apply matched_bol; reflexivity|].
    eapply matched_cat; [|apply matched_eol; exact He].
    apply (matched_grp _ 1 _ w); [reflexivity|].
    apply matched_rep; [exact Hw|lia|cbn; lia]. }
  apply rmatch_some in M as [m' ->]. reflexivity.
Qed.

(** X4 (Repo.hashtype): called without [ret_hash], [hashtype] answers
    [rev] exactly when the hash is 12 to 40 letters and digits, followed by
    nothing or by one newline; [branch] exactly when the hash is not empty
    and not of that shape; and [latest] exactly when the hash is empty, as
    it does when the hash is absent. *)
Theorem hashtype_rev (h : str) :
  (hashtype (Some h) false = L "rev"
   <-> exists w e, h = w ++ e /\ is_rev w /\ (e = [] \/ e = [nl]))
  /\ (hashtype (Some h) false = L "branch" <-> h <> [] /\ ~ rev_shape h)
  /\ (hashtype (Some h) false = L "latest" <-> h = [])
  /\ hashtype None false = L "latest".
Proof.
  assert (Hrev : hashtype (Some h) false = L "rev" <-> rev_shape h).
  { rewrite hashtype_rev_matches. split.
    - intros [_ H]. apply regex_hash_sound. exact H.
    - intros (w & e & -> & Hw & He). split.
      { destruct Hw as [_ Hlen]. destruct w; [cbn in Hlen; lia|discriminate]. }
      apply regex_hash_complete; assumption. }
  split; [exact Hrev|]. split; [|split; [|reflexivity]].
  - split.
    + intros Hb. split.
      * intros ->. discriminate Hb.
      * intros Hs. apply Hrev in Hs. rewrite Hs in Hb. discriminate Hb.
    + intros [Hne Hs]. destruct h as [|a h]; [contradiction|].
      unfold hashtype in *. destruct (matches 1 regex_hash (a :: h)); [|reflexivity].
      exfalso. apply Hs, Hrev. reflexivity.
  - split.
    + destruct h as [|a h]; [reflexivity|]. unfold hashtype.
      destruct (matches 1 regex_hash (a :: h)); discriminate.
    + intros ->. reflexivity.
Qed.

Lemma hex2_alnum (a : ascii) : forallb cls_alnum (hex2 a) = true.
Proof. destruct a as [[] [] [] [] [] [] [] []]; reflexivity. Qed.

Lemma flat_map_hex2_alnum (l : str) : forallb cls_alnum (flat_map hex2 l) = true.
Proof.
  induction l as [|a l IH]; [reflexivity|]. cbn [flat_map].
  rewrite forallb_app, hex2_alnum, IH. reflexivity.
Qed.

Lemma flat_map_hex2_length (l : str) : length (flat_map hex2 l) = 2 * length l.
Proof.
  induction l as [|a l IH]; [reflexivity|]. cbn [flat_map]. rewrite length_app, IH. cbn. lia.
Qed.

Lemma hex2_unhex (a : ascii) (r : str) :
  unhex (hex2 a ++ r) = match unhex r with Some r' => Some (a :: r') | None => None end.
Proof. destruct a as [[] [] [] [] [] [] [] []]; reflexivity. Qed.

Lemma flat_map_hex2_unhex (l : str) : unhex (flat_map hex2 l) = Some l.
Proof.
  induction l as [|a l IH]; [reflexivity|]. cbn [flat_map]. rewrite hex2_unhex, IH. reflexivity.
Qed.

(** X5 (Hg.gethash, Repo.hashtype): where the dirstate file of a Mercurial
    checkout exists, the hash read from it is the first six bytes of the
    file, fewer when the file is shorter, each as two hex digits in lower
    case: it spells those bytes back, and is twice as long as they are
    many; [hashtype] takes it for a revision exactly when the dirstate
    holds at least six bytes. *)
Theorem hg_gethash_is_rev (fs : Fs) (repo : Repo) (content : str) :
  files fs !! join (join (path repo) (L ".hg")) (L "dirstate") = Some content ->
  unhex (Hg_gethash fs repo) = Some (take 6 content)
  /\ length (Hg_gethash fs repo) = 2 * Nat.min 6 (length content)
  /\ (hashtype (Some (Hg_gethash fs repo)) false = L "rev" <-> 6 <= length content).
Proof.
  intros E. unfold Hg_gethash. rewrite E.
  assert (Hlen : length (flat_map hex2 (take 6 content)) = 2 * Nat.min 6 (length content)).
  { rewrite flat_map_hex2_length, length_take. reflexivity. }
  split; [apply flat_map_hex2_unhex|].
  split; [exact Hlen|]. rewrite hashtype_rev_matches. split.
  - intros [_ H]. apply regex_hash_sound in H as (w & e & Hh & [_ Hw] & _).
    apply (f_equal length) in Hh. rewrite length_app, Hlen in Hh. lia.
  - intros H6. split.
    { intros Hnil. rewrite Hnil in Hlen. cbn [length] in Hlen. lia. }
    rewrite <- (app_nil_r (flat_map hex2 _)). apply regex_hash_complete; [|left; reflexivity].
    split; [apply flat_map_hex2_alnum|]. rewrite Hlen. lia.
Qed.

Lemma hg_gethash_is_rev_witness :
  let fs := {| files := {[ L "/w/lib/.hg/dirstate" := L "0123456789" ]}; dirs := ∅ |} in
  let repo := mkRepo (L "lib") (L "/w/lib") None None false (Some hg) in
  Hg_gethash fs repo = L "303132333435"
  /\ unhex (Hg_gethash fs repo) = Some (L "012345")
  /\ hashtype (Some (Hg_gethash fs repo)) false = L "rev".
Proof.
  intros fs repo. split; [reflexivity|].
  pose proof (hg_gethash_is_rev fs repo (L "0123456789") eq_refl) as (H0 & H1 & H2).
  split; [exact H0|]. apply H2. cbn. lia.
Defined.

(** ** Switching the protocol of a canonical locator *)

(** The canonical form of an mbed-hosted locator is again of that shape. *)
Lemma formaturl_mbed_again (u : str) (m : caps) (q : protocol) :
  m_mbed u = Some m -> exists m', m_mbed (formaturl u q) = Some m'.
Proof.
  intros Hm. rewrite (formaturl_mbed u m q Hm).
  destruct (mbed_sound u m Hm)
    as (sopt & w & tld & ug & nm & rc & r & sl & e & Hu & Hs & Hw & Htld & Hug & Hnm & Hnm'
        & Hrc & Hr & Hr' & Hsl & He & -> & -> & -> & -> & ->).
  assert (Hv : exists so, (so = [] \/ so = L "s") /\
             mbed_scheme q ++ (w ++ L "mbed." ++ tld) ++ L "/" ++ ug ++ L "/" ++ nm
               ++ L "/" ++ rc ++ L "/" ++ r
             = L "http" ++ so ++ L "://" ++ (w ++ L "mbed." ++ tld) ++ L "/" ++ ug ++ L "/"
                 ++ nm ++ L "/" ++ rc ++ L "/" ++ r ++ [] ++ []).
  { rewrite !app_nil_r.
    destruct q; [exists (L "s")|exists []|exists (L "s")|exists (L "s")]; auto. }
  destruct Hv as (so & Hso & ->).
  apply mbed_complete; auto.
Qed.

(** X6 (formaturl): for an mbed-hosted locator the canonical form for one
    protocol can be taken from its canonical form for any other, and a
    request for ssh gives the https form. *)
Theorem formaturl_mbed_switch (u : str) (m : caps) (q p : protocol) :
  m_mbed u = Some m ->
  formaturl (formaturl u q) p = formaturl u p
  /\ formaturl u Pssh = formaturl u Phttps.
Proof.
  intros Hm. split; [|rewrite !(formaturl_mbed u m _ Hm); reflexivity].
  destruct (formaturl_mbed_again u m q Hm) as [m' Hm'].
  pose proof (formaturl_idem_mbed u m q Hm) as Hidem.
  rewrite (formaturl_mbed _ m' q Hm') in Hidem.
  rewrite (formaturl_mbed u m q Hm) in Hidem at 1.
  apply app_inv_head in Hidem.
  rewrite (formaturl_mbed _ m' p Hm'), Hidem. symmetry. apply formaturl_mbed. exact Hm.
Qed.

Lemma formaturl_mbed_switch_witness :
  formaturl (formaturl (L "http://mbed.org/users/a/code/lib/") Pssh) Phttp
  = formaturl (L "http://mbed.org/users/a/code/lib/") Phttp
  /\ formaturl (L "http://mbed.org/users/a/code/lib/") Pssh
     = formaturl (L "http://mbed.org/users/a/code/lib/") Phttps.
Proof.
  apply (formaturl_mbed_switch _ (the_match (m_mbed (L "http://mbed.org/users/a/code/lib/")))).
  vm_compute. reflexivity.
Defined.

(** X7 (formaturl): for a locator of the git shape the ssh form loses
    nothing: the canonical form for any protocol can be taken from it. *)
Theorem formaturl_git_via_ssh (u : str) (m : caps) (p : protocol) :
  m_mbed u = None -> m_git u = Some m ->
  formaturl (formaturl u Pssh) p = formaturl u p.
Proof.
  intros Hmb Hg. rewrite !(formaturl_git u m _ Hmb Hg).
  destruct (git_sound u m Hg) as (P & g2 & sep & g3 & t & _ & H2 & H2' & _ & H3 & H3' & -> & ->).
  destruct (git_first (L "ssh://") g2 g3 (L ".git")) as (m' & Hm' & G2 & G3); auto.
  cbn [git_scheme git_suffix].
  rewrite (formaturl_git _ m' p (mbed_none_ssh _) Hm'), G2, G3. reflexivity.
Qed.

Lemma formaturl_git_via_ssh_witness :
  formaturl (formaturl (L "https://github.com/ARMmbed/mbed-os.git/") Pssh) Phttps
  = formaturl (L "https://github.com/ARMmbed/mbed-os.git/") Phttps.
Proof.
  apply (formaturl_git_via_ssh _
           (the_match (m_git (L "https://github.com/ARMmbed/mbed-os.git/")))).
  - vm_compute. reflexivity.
  - vm_compute. reflexivity.
Defined.

(** ** Local references *)

Lemma forallb_rev (p : ascii -> bool) (s : str) : forallb p (rev s) = forallb p s.
Proof.
  induction s as [|a s IH]; [reflexivity|]. cbn [rev]. rewrite forallb_app, IH. cbn.
  rewrite andb_true_r. apply andb_comm.
Qed.

Lemma lstrip_nospace (s : str) :
  forallb (fun a => negb (is_space a)) s = true -> lstrip is_space s = s.
Proof.
  destruct s as [|a s]; [reflexivity|]. cbn. intros H. apply andb_true_iff in H as [H _].
  apply negb_true_iff in H. rewrite H. reflexivity.
Qed.

Lemma strip_nospace (s : str) :
  forallb (fun a => negb (is_space a)) s = true -> strip s = s.
Proof.
  intros H. unfold strip, rstrip. rewrite (lstrip_nospace s H).
  rewrite lstrip_nospace by (rewrite forallb_rev; exact H). apply rev_involutive.
Qed.

Lemma plain_keep (s : str) :
  forallb plain_char s = true -> unbackslash (strip s) = s.
Proof.
  intros H. rewrite strip_nospace.
  - apply unbackslash_keep. revert H. apply forallb_imp. intros a Ha.
    apply andb_true_iff in Ha as [_ Ha]. exact Ha.
  - revert H. apply forallb_imp. intros a Ha. apply andb_true_iff in Ha as [Ha _]. exact Ha.
Qed.

Lemma local_tail_plain a :
  cls_local_tail a = true ->
  plain_char a = true /\ chr "#" a = false /\ Ascii.eqb a nl = false.
Proof. destruct a as [[] [] [] [] [] [] [] []]; vm_compute; intros; repeat split; congruence. Qed.

Lemma plain_dot a : plain_char a = true -> dot a = true.
Proof. destruct a as [[] [] [] [] [] [] [] []]; vm_compute; intros; congruence. Qed.

Lemma ms_grp_cls_rep n0 n (p q : ascii -> bool) g lo hi a s c :
  p a = true ->
  ms n0 (Grp n (Cat (Cls p) (Rep g lo hi q))) (a :: s) c
  = map (fun x => (x, <[n:=Some (take (length (a :: s) - length x) (a :: s))]> c))
        ((if g then rep_greedy else rep_lazy) q lo hi s).
Proof.
  intros Ha. cbn [ms flat_map]. rewrite Ha. cbn [flat_map fst snd ms].
  rewrite app_nil_r, map_map. reflexivity.
Qed.

(** On a line [d], [d/], [d#rev] or [d/#rev] with a local path [d], the
    pattern of local references finds [d] and the revision. *)
Lemma local_first (d sl : str) (rev0 : option str) :
  is_local_path d -> sl = [] \/ sl = L "/" ->
  match rev0 with Some h => forallb dot h = true | None => True end ->
  exists m, m_local (d ++ sl ++ hash_suffix rev0) = Some m
            /\ group m 1 = Some d /\ group m 2 = rev0.
Proof.
  intros Hd Hsl Hrev. destruct d as [|a t]; [destruct Hd|]. destruct Hd as (Ha & Ht & Hend).
  set (c0 := replicate 3 (None : option str)).
  set (rest := sl ++ hash_suffix rev0).
  set (v := (a :: t) ++ rest).
  set (c1 := <[1:=Some (a :: t)]> c0).
  assert (Htail : exists c2,
             first (length v)
               (Cat (Opt (Cls (chr "/")))
                    (Cat (Opt (Cat (Lit (L "#")) (Grp 2 (star dot)))) Eol)) rest c1
             = Some ([], c2) /\ group c2 1 = Some (a :: t) /\ group c2 2 = rev0).
  { assert (Hh : exists c2,
               first (length v) (Cat (Opt (Cat (Lit (L "#")) (Grp 2 (star dot)))) Eol)
                 (hash_suffix rev0) c1 = Some ([], c2)
               /\ group c2 1 = Some (a :: t) /\ group c2 2 = rev0).
    { destruct rev0 as [h|]; cbn [hash_suffix].
      - exists (<[2:=Some h]> c1). split; [|split; reflexivity].
        eapply first_cat; [|apply first_eol]. apply first_opt_take.
        eapply first_cat; [apply (first_lit _ (L "#"))|].
        apply first_grp; [symmetry; apply app_nil_r|].
        pose proof (first_rep_greedy (length v) 0 dot h [] c1 Hrev ltac:(lia) I) as H.
        rewrite app_nil_r in H. exact H.
      - exists c1. split; [|split; reflexivity].
        eapply first_cat; [|apply first_eol]. apply first_opt_skip. reflexivity. }
    destruct Hh as (c2 & Hh & G). exists c2. split; [|exact G]. unfold rest.
    destruct Hsl as [->| ->].
    - eapply first_cat; [|exact Hh]. apply first_opt_skip.
      destruct rev0; reflexivity.
    - eapply first_cat; [|exact Hh]. apply first_opt_take. apply first_cls. reflexivity. }
  destruct Htail as (c2 & Htail & G1 & G2).
  exists c2. split; [|split; assumption].
  apply (rmatch_first 2 _ v []). fold c0. unfold regex_local_ref, lazy_star. cbn [seq].
  eapply first_cat; [apply first_bol; reflexivity|].
  destruct (rep_lazy_split cls_local_tail t 0 rest Ht ltac:(lia)) as (l1 & l2 & Hsplit & Hl1).
  eapply first_cat_skip.
  - unfold v. change ((a :: t) ++ rest) with (a :: (t ++ rest)).
    rewrite ms_grp_cls_rep by exact Ha. rewrite Hsplit, map_app. cbn [map].
    change (a :: t ++ rest) with ((a :: t) ++ rest). rewrite take_consumed. reflexivity.
  - intros x Hx. apply in_map_iff in Hx as (x0 & <- & Hx). cbn [fst snd].
    destruct (Hl1 x0 Hx) as (z & y & Hy & -> & ->).
    apply ms_nil. intros s' c' Hm. apply ref_tail_matched in Hm.
    pose proof (forallb_app_r _ _ _ Ht) as Hty.
    destruct y as [|b y]; [congruence|].
    cbn in Hty. apply andb_true_iff in Hty as [Hb Hty].
    destruct (local_tail_plain b Hb) as (_ & Hb1 & Hb2).
    assert (Hy1 : y = [] -> False).
    { intros ->. destruct (Ascii.eqb_spec b "/") as [->|Hne].
      - apply (endswith_false _ _ Hend (a :: z)). reflexivity.
      - destruct Hm as [H|[H|[H|[H|[[x H]|[x H]]]]]]; try discriminate;
          injection H as ->; try congruence; vm_compute in Hb1; discriminate. }
    destruct y as [|b' y]; [exact (Hy1 eq_refl)|].
    cbn in Hty. apply andb_true_iff in Hty as [Hb' _].
    destruct (local_tail_plain b' Hb') as (_ & Hb1' & Hb2').
    destruct Hm as [H|[H|[H|[H|[[x H]|[x H]]]]]]; try discriminate.
    + injection H as -> ->. vm_compute in Hb2'. discriminate.
    + injection H as -> _. vm_compute in Hb1. discriminate.
    + injection H as -> -> _. vm_compute in Hb1'. discriminate.
  - exact Htail.
Qed.

Lemma lstrip_all (p : ascii -> bool) (ws s : str) :
  forallb p ws = true -> lstrip p (ws ++ s) = lstrip p s.
Proof.
  induction ws as [|a ws IH]; [reflexivity|]. cbn. intros H.
  apply andb_true_iff in H as [-> H]. auto.
Qed.

(** [strip] takes the whitespace around a string that holds none. *)
Lemma strip_around (ws1 s ws2 : str) :
  forallb is_space ws1 = true -> forallb is_space ws2 = true ->
  forallb (fun a => negb (is_space a)) s = true ->
  strip (ws1 ++ s ++ ws2) = s.
Proof.
  intros H1 H2 Hs. unfold strip, rstrip.
  rewrite lstrip_all by exact H1. destruct s as [|a s].
  - cbn [app]. rewrite <- (app_nil_r ws2), lstrip_all by exact H2. reflexivity.
  - pose proof Hs as Hs'. cbn in Hs'. apply andb_true_iff in Hs' as [Ha _].
    apply negb_true_iff in Ha.
    change ((a :: s) ++ ws2) with (a :: (s ++ ws2)). rewrite lstrip_keep by exact Ha.
    change (a :: (s ++ ws2)) with ((a :: s) ++ ws2).
    rewrite rev_app_distr, lstrip_all by (rewrite forallb_rev; exact H2).
    rewrite lstrip_nospace by (rewrite forallb_rev; exact Hs). apply rev_involutive.
Qed.

Lemma local_line_plain (d sl : str) (rev0 : option str) :
  is_local_path d -> sl = [] \/ sl = L "/" ->
  match rev0 with Some h => forallb plain_char h = true | None => True end ->
  forallb plain_char (d ++ sl ++ hash_suffix rev0) = true.
Proof.
  intros Hd Hsl Hrev. destruct d as [|a t]; [destruct Hd|]. destruct Hd as (Ha & Ht & _).
  rewrite !forallb_app, !andb_true_iff. split; [|split].
  - apply (forallb_imp cls_local_tail); [intros b Hb; apply (local_tail_plain b Hb)|].
    cbn. rewrite (head_tail a Ha). exact Ht.
  - destruct Hsl as [->| ->]; reflexivity.
  - destruct rev0 as [h|]; [|reflexivity]. unfold hash_suffix.
    rewrite forallb_app, Hrev. reflexivity.
Qed.

Lemma fromurl_local_line (cwd ws1 d sl ws2 : str) (rev0 path0 : option str) :
  is_local_path d -> sl = [] \/ sl = L "/" ->
  match rev0 with Some h => forallb plain_char h = true | None => True end ->
  forallb is_space ws1 = true -> forallb is_space ws2 = true ->
  fromurl cwd (ws1 ++ (d ++ sl ++ hash_suffix rev0) ++ ws2) path0
  = Ok {| name := basename (por path0 d);
          path := abspath cwd (por path0 (join cwd d));
          url := Some d; hash := rev0; is_local := true; scm := None |}.
Proof.
  intros Hd Hsl Hrev H1 H2.
  pose proof (local_line_plain d sl rev0 Hd Hsl Hrev) as Hplain.
  assert (Hu : unbackslash (strip (ws1 ++ (d ++ sl ++ hash_suffix rev0) ++ ws2))
               = d ++ sl ++ hash_suffix rev0).
  { rewrite strip_around; [|exact H1|exact H2|].
    - apply unbackslash_keep. revert Hplain. apply forallb_imp.
      intros a Ha. apply andb_true_iff in Ha as [_ Ha]. exact Ha.
    - revert Hplain. apply forallb_imp.
      intros a Ha. apply andb_true_iff in Ha as [Ha _]. exact Ha. }
  destruct (local_first d sl rev0 Hd Hsl) as (m & Hm & G1 & G2).
  { destruct rev0 as [h|]; [|exact I]. revert Hrev. apply forallb_imp. exact plain_dot. }
  unfold fromurl. rewrite Hu, Hm. unfold gfmt. rewrite G1, G2. reflexivity.
Qed.

(** X8 (Repo.fromurl): a line [d], [d/], [d#rev] or [d/#rev] with a local
    path [d] (a first character of [[\w.+-]], then characters of
    [[\w./+-]], no slash at the end) and a revision without white space or
    backslash, whatever white space surrounds the line, is read as a local
    repository with url [d] and the revision [rev], absent when the line
    has no [#]; its name is the last segment of the given path, or of [d]
    when no path is given, and its path is the given path, or [d] joined to
    the working directory, made absolute and normalised. *)
Theorem fromurl_local (cwd ws1 d sl ws2 : str) (rev0 path0 : option str) :
  is_local_path d -> sl = [] \/ sl = L "/" ->
  match rev0 with Some h => forallb plain_char h = true | None => True end ->
  forallb is_space ws1 = true -> forallb is_space ws2 = true ->
  fromurl cwd (ws1 ++ (d ++ sl ++ hash_suffix rev0) ++ ws2) path0
  = Ok {| name := basename (por path0 d);
          path := abspath cwd (por path0 (join cwd d));
          url := Some d; hash := rev0; is_local := true; scm := None |}.
Proof. apply fromurl_local_line. Qed.

Lemma fromurl_local_witness :
  fromurl (L "/tmp/w") (L "../libs/rtos/#0123456789ab" ++ [nl]) None
  = Ok {| name := L "rtos"; path := L "/tmp/libs/rtos"; url := Some (L "../libs/rtos");
          hash := Some (L "0123456789ab"); is_local := true; scm := None |}.
Proof.
  apply (fromurl_local (L "/tmp/w") [] (L "../libs/rtos") (L "/") [nl]
           (Some (L "0123456789ab")) None).
  - vm_compute. auto.
  - right. reflexivity.
  - reflexivity.
  - reflexivity.
  - reflexivity.
Defined.

Lemma strip_blank (s : str) : forallb is_space s = true -> strip s = [].
Proof.
  intros H. unfold strip. rewrite <- (app_nil_r s), lstrip_all by exact H. reflexivity.
Qed.

(** X9 (Repo.fromurl): a locator of nothing but whitespace, the content
    of an empty reference file among them, is refused as an invalid
    repository with exit status -1. *)
Theorem fromurl_blank (cwd s : str) (path0 : option str) :
  forallb is_space s = true ->
  fromurl cwd s path0 = Exn (SystemExit (-1) (L "Invalid repository ()")).
Proof.
  intros H. unfold fromurl. rewrite (strip_blank s H). reflexivity.
Qed.

Lemma fromurl_blank_witness :
  fromurl (L "/w") (L "  " ++ [nl]) (Some (L "/w/lib"))
  = Exn (SystemExit (-1) (L "Invalid repository ()")).
Proof. apply fromurl_blank. reflexivity. Defined.

(** ** Local references, written and read *)

(** X10 (Repo.write, Repo.fromlib, Repo.fullurl): a local repository whose
    url is a local path (a first character of [[\w.+-]], then characters
    of [[\w./+-]], no slash at the end) and whose revision is absent or a
    non-empty string without white space or backslash is written, where no
    reference file stands yet, as [url/] or [url/#rev]; and as long as that
    line is shorter than 200 characters, so that [fromlib] reads it whole,
    the file is read back as a local repository with the same url and
    revision, named by the last segment of the path of the reference file
    without its [.lib] and placed at that path, made absolute and
    normalised; were that path empty, the url would stand in for it. *)
Theorem local_reference_roundtrip (cwd : str) (self : Repo) (d : str) :
  url self = Some d -> is_local_path d ->
  match hash self with
  | Some h => forallb plain_char h = true /\ 1 <= length h
  | None => True
  end ->
  length (d ++ L "/" ++ hash_suffix (hash self)) < 200 ->
  write cwd self None = (Some (d ++ L "/" ++ hash_suffix (hash self) ++ [nl]), Ok tt)
  /\ fromlib cwd (lib self) (d ++ L "/" ++ hash_suffix (hash self) ++ [nl])
     = Ok {| name := basename (por (Some (path self)) d);
             path := abspath cwd (por (Some (path self)) (join cwd d));
             url := url self; hash := hash self; is_local := true; scm := None |}.
Proof.
  intros Hu Hd Hh Hlen. split.
  - unfold write, fullurl. rewrite Hu.
    destruct d as [|a t] eqn:Ed; [destruct Hd|]. rewrite <- Ed in *.
    assert (Ht : truthy (Some d) = true) by (rewrite Ed; reflexivity). rewrite Ht.
    assert (Hp : por (Some d) [] = d) by (rewrite Ed; reflexivity). rewrite Hp.
    rewrite rstrip_keep.
    2:{ intros z b E. destruct (Ascii.eqb_spec "/" b) as [<-|Hne]; [|exact (proj2 (Ascii.eqb_neq _ _) Hne)].
        exfalso. rewrite Ed in Hd, E. destruct Hd as (_ & _ & Hend).
        exact (endswith_false _ _ Hend z E). }
    destruct (hash self) as [[|b h]|]; [destruct Hh as [_ Hh]; cbn in Hh; lia| |].
    + cbn [truthy por hash_suffix]. rewrite <- !app_assoc. reflexivity.
    + cbn [truthy hash_suffix]. rewrite <- !app_assoc. reflexivity.
  - unfold fromlib, lib.
    rewrite take_ge by (rewrite !length_app in *; cbn [length] in *; lia).
    assert (Hk : startswith (L "!<arch>") (d ++ L "/" ++ hash_suffix (hash self) ++ [nl]) = false).
    { destruct d as [|a t]; [destruct Hd|]. destruct Hd as (Ha & _).
      assert (Hne : Ascii.eqb "!" a = false).
      { destruct (Ascii.eqb_spec "!" a) as [<-|_]; [discriminate Ha|reflexivity]. }
      change (L "!<arch>") with ("!"%char :: L "<arch>").
      cbn [app startswith]. rewrite Hne. reflexivity. }
    rewrite Hk.
    replace (take (length (path self ++ L ".lib") - 4) (path self ++ L ".lib")) with (path self).
    2:{ rewrite length_app. change (length (L ".lib")) with 4.
        rewrite Nat.add_sub, take_app_length. reflexivity. }
    rewrite Hu.
    pose proof (fromurl_local_line cwd [] d (L "/") [nl] (hash self) (Some (path self)) Hd
                  (or_intror eq_refl)) as H.
    cbn [app] in H. rewrite <- !app_assoc in H. apply H; [|reflexivity|reflexivity].
    destruct (hash self); [apply Hh|exact I].
Qed.

Lemma local_reference_roundtrip_witness :
  let self := {| name := L "rtos"; path := L "sub/../rtos"; url := Some (L "../libs/rtos");
                 hash := Some (L "0123456789ab"); is_local := true; scm := Some git |} in
  write (L "/w") self None = (Some (L "../libs/rtos/#0123456789ab" ++ [nl]), Ok tt)
  /\ fromlib (L "/w") (L "sub/../rtos.lib") (L "../libs/rtos/#0123456789ab" ++ [nl])
     = Ok {| name := L "rtos"; path := L "/w/rtos"; url := Some (L "../libs/rtos");
             hash := Some (L "0123456789ab"); is_local := true; scm := None |}.
Proof.
  intros self. apply (local_reference_roundtrip (L "/w") self (L "../libs/rtos")).
  - reflexivity.
  - vm_compute. auto.
  - split; [reflexivity|cbn; lia].
  - cbn. lia.
Defined.

(** ** The url of a checkout *)

Lemma last_cons_default {A} (x : A) (l : list A) :
  last (x :: l) = Some (default x (last l)).
Proof.
  revert x. induction l as [|y l IH]; intros x; [reflexivity|].
  change (last (x :: y :: l)) with (last (y :: l)). rewrite IH.
  destruct l; reflexivity.
Qed.

Lemma Git_geturl_loop_spec (lines : list str) : forall url,
  Forall (fun r => is_fetch r = true -> 2 <= length r) (map split_space lines) ->
  Git_geturl_loop lines url
  = Returns (match preferred_remote (map split_space lines) with
             | Some r => nth 1 r []
             | None => url
             end).
Proof.
  unfold preferred_remote.
  induction lines as [|line rest IH]; intros url H; [reflexivity|].
  rewrite map_cons in H. apply Forall_cons in H as [Hr Hrest].
  cbn [Git_geturl_loop map List.find List.filter].
  destruct (is_fetch (split_space line)) eqn:Ef; cbn [andb].
  - specialize (Hr eq_refl).
    destruct (split_space line) as [|r0 [|r1 rs]] eqn:Er; cbn in Hr; try lia.
    cbn [lookup list_lookup]. change ((r0 :: r1 :: rs) !! 1) with (Some r1).
    destruct (is_origin (r0 :: r1 :: rs)); [reflexivity|].
    rewrite (IH r1 Hrest).
    destruct (List.find _ (map split_space rest)); [reflexivity|].
    rewrite last_cons_default.
    destruct (last (List.filter is_fetch (map split_space rest))); reflexivity.
  - apply IH. exact Hrest.
Qed.

(** X11 (Git.geturl): among the lines of [git remote -v] the url is taken
    from the first fetch line of [origin], without one from the last fetch
    line of any remote, and it is empty when there is no fetch line; the
    result is its canonical form. *)
Theorem git_geturl_prefers_origin (run : runner) (out : str) :
  pquery run [git_cmd; L "remote"; L "-v"] = Ok out ->
  Forall (fun r => is_fetch r = true -> 2 <= length r)
         (map split_space (splitlines (strip out))) ->
  Git_geturl run
  = Returns (formaturl
               (match preferred_remote (map split_space (splitlines (strip out))) with
                | Some r => nth 1 r []
                | None => []
                end) Pdefault).
Proof.
  intros Hq H. unfold Git_geturl. rewrite Hq, (Git_geturl_loop_spec _ [] H). reflexivity.
Qed.

Lemma git_geturl_prefers_origin_witness :
  let out := L "fork" ++ [tab] ++ L "https://github.com/me/mbed-os (fetch)" ++ [nl]
             ++ L "fork" ++ [tab] ++ L "https://github.com/me/mbed-os (push)" ++ [nl]
             ++ L "origin" ++ [tab] ++ L "git@github.com:ARMmbed/mbed-os.git (fetch)" ++ [nl]
             ++ L "origin" ++ [tab] ++ L "git@github.com:ARMmbed/mbed-os.git (push)" ++ [nl]
             ++ L "zed" ++ [tab] ++ L "https://github.com/zed/mbed-os (fetch)" ++ [nl] in
  Git_geturl (fun _ => mkProc 0 out) = Returns (L "https://github.com/ARMmbed/mbed-os").
Proof.
  intros out.
  refine (eq_trans (git_geturl_prefers_origin (fun _ => mkProc 0 out) out eq_refl _) _).
  - vm_compute. repeat constructor.
  - vm_compute. reflexivity.
Defined.

Lemma list_index_app (x : str) (pre rest : list str) :
  x ∉ pre -> list_index x (pre ++ x :: rest) = length pre.
Proof.
  induction pre as [|y pre IH]; intros H; cbn [app list_index length].
  - unfold str_eqb. rewrite bool_decide_eq_true_2 by reflexivity. reflexivity.
  - apply not_elem_of_cons in H as [Hne H]. unfold str_eqb.
    rewrite bool_decide_eq_false_2 by congruence. rewrite IH by exact H. reflexivity.
Qed.

Lemma space_not_word a : is_space a = true -> word a = false.
Proof. destruct a as [[] [] [] [] [] [] [] []]; vm_compute; intros; congruence. Qed.

(** A line [key = value] of an hgrc is read as the key and the value. *)
Lemma hgrc_line_match (key ws1 ws2 v : str) :
  forallb word key = true -> 1 <= length key ->
  forallb is_space ws1 = true -> forallb is_space ws2 = true ->
  forallb dot v = true -> match v with a :: _ => is_space a = false | [] => True end ->
  exists m, rmatch 2 regex_hgrc_path (key ++ ws1 ++ L "=" ++ ws2 ++ v) = Some m
            /\ group m 1 = Some key /\ group m 2 = Some v.
Proof.
  intros Hkey Hkey1 Hws1 Hws2 Hv Hv1.
  set (c0 := replicate 3 (None : option str)).
  exists (<[2:=Some v]> (<[1:=Some key]> c0)). split; [|split; reflexivity].
  apply (rmatch_first 2 _ _ []). fold c0. unfold regex_hgrc_path. cbn [seq].
  eapply first_cat; [apply first_bol; reflexivity|].
  eapply first_cat.
  { apply (first_grp _ 1 _ key); [reflexivity|].
    apply first_rep_greedy; [exact Hkey|exact Hkey1|].
    destruct ws1 as [|a ws1]; [reflexivity|]. cbn in Hws1 |- *.
    apply andb_true_iff in Hws1 as [Ha _]. apply space_not_word. exact Ha. }
  eapply first_cat; [apply first_rep_greedy; [exact Hws1|lia|reflexivity]|].
  eapply first_cat; [apply (first_lit _ (L "="))|].
  eapply first_cat; [apply first_rep_greedy; [exact Hws2|lia|]|].
  { destruct v; [exact I|exact Hv1]. }
  eapply first_cat; [|apply first_eol].
  apply first_opt_take. apply first_grp; [symmetry; apply app_nil_r|].
  pose proof (first_rep_greedy (length (key ++ ws1 ++ L "=" ++ ws2 ++ v)) 0 dot v []
                (<[1:=Some key]> c0) Hv ltac:(lia) I) as H.
  rewrite app_nil_r in H. exact H.
Qed.

(** X12 (Hg.geturl): when the line that follows the first [[paths]] line
    of the hgrc is [key = value], with a key of one or more word characters
    (letters, digits, underscore), any white space around the [=], and a
    value that is not empty once the white space after the [=] is taken
    off, the url is the canonical form of that value, whether the key is
    [default] or not and whatever the later lines hold, and it does not
    depend on the outcome of any command. *)
Theorem hg_geturl_first_path (fs : Fs) (run : runner) (repo : Repo)
    (content : str) (pre post : list str) (key ws1 ws2 v : str) :
  files fs !! join (path repo) (L ".hg/hgrc") = Some content ->
  splitlines content = pre ++ L "[paths]" :: (key ++ ws1 ++ L "=" ++ ws2 ++ v) :: post ->
  L "[paths]" ∉ pre ->
  forallb word key = true -> 1 <= length key ->
  forallb is_space ws1 = true -> forallb is_space ws2 = true ->
  match v with a :: _ => is_space a = false | [] => False end ->
  Hg_geturl fs run repo = Returns (formaturl v Pdefault).
Proof.
  intros Hf Hlines Hpre Hkey Hkey1 Hws1 Hws2 Hv1.
  assert (Hv : forallb dot v = true).
  { pose proof (splitlines_noeol content) as Hall. rewrite Hlines in Hall.
    apply Forall_app in Hall as [_ Hall]. apply Forall_cons in Hall as [_ Hall].
    apply Forall_cons in Hall as [Hline _]. rewrite !noeol_app in Hline.
    apply noeol_dot. do 4 (apply andb_true_iff in Hline as [_ Hline]). exact Hline. }
  unfold Hg_geturl. rewrite Hf, Hlines.
  rewrite bool_decide_eq_true_2 by (apply elem_of_app; right; left).
  rewrite list_index_app by exact Hpre.
  replace ((pre ++ L "[paths]" :: (key ++ ws1 ++ L "=" ++ ws2 ++ v) :: post) !! (length pre + 1))
    with (Some (key ++ ws1 ++ L "=" ++ ws2 ++ v)).
  2:{ symmetry. rewrite lookup_app_r by lia.
      replace (length pre + 1 - length pre) with 1 by lia. reflexivity. }
  destruct (hgrc_line_match key ws1 ws2 v Hkey Hkey1 Hws1 Hws2 Hv) as (m & -> & G1 & G2).
  { destruct v; [destruct Hv1|exact Hv1]. }
  rewrite G1, G2. destruct v as [|a v]; [destruct Hv1|].
  destruct (opt_str_eqb (Some key) (Some (L "default"))); reflexivity.
Qed.

Lemma hg_geturl_first_path_witness :
  let content := L "[ui]" ++ [nl] ++ L "username = me" ++ [nl] ++ L "[paths]" ++ [nl]
                 ++ L "upstream = https://developer.mbed.org/users/a/code/lib/" ++ [nl]
                 ++ L "default = https://developer.mbed.org/users/b/code/lib/" ++ [nl] in
  let fs := {| files := {[ L "/w/lib/.hg/hgrc" := content ]}; dirs := ∅ |} in
  let repo := mkRepo (L "lib") (L "/w/lib") None None false (Some hg) in
  Hg_geturl fs (fun _ => mkProc 0 (L "https://developer.mbed.org/users/b/code/lib/")) repo
  = Returns (L "https://developer.mbed.org/users/a/code/lib").
Proof.
  intros content fs repo.
  refine (eq_trans (hg_geturl_first_path fs _ repo content [L "[ui]"; L "username = me"]
                      [L "default = https://developer.mbed.org/users/b/code/lib/"]
                      (L "upstream") (L " ") (L " ")
                      (L "https://developer.mbed.org/users/a/code/lib/")
                      eq_refl _ _ _ _ _ _ _) _).
  - vm_compute. reflexivity.
  - intros H. apply elem_of_cons in H as [H|H]; [discriminate|].
    apply elem_of_cons in H as [H|H]; [discriminate|]. inversion H.
  - reflexivity.
  - cbn. lia.
  - reflexivity.
  - reflexivity.
  - reflexivity.
  - vm_compute. reflexivity.
Defined.

(** X13 (Hg.geturl): an hgrc whose first [[paths]] line is its last line
    makes [geturl] read past the end of the lines: it raises IndexError
    and never asks Mercurial for the default path. *)
Theorem hg_geturl_paths_last (fs : Fs) (run : runner) (repo : Repo)
    (content : str) (pre : list str) :
  files fs !! join (path repo) (L ".hg/hgrc") = Some content ->
  splitlines content = pre ++ [L "[paths]"] ->
  L "[paths]" ∉ pre ->
  Hg_geturl fs run repo = Raises IndexError.
Proof.
  intros Hf Hlines Hpre. unfold Hg_geturl. rewrite Hf, Hlines.
  rewrite bool_decide_eq_true_2 by (apply elem_of_app; right; left).
  rewrite list_index_app by exact Hpre.
  rewrite lookup_ge_None_2; [reflexivity|]. rewrite length_app. cbn. lia.
Qed.

Lemma hg_geturl_paths_last_witness :
  let fs := {| files := {[ L "/w/lib/.hg/hgrc" := L "[ui]" ++ [nl] ++ L "[paths]" ++ [nl] ]};
               dirs := ∅ |} in
  let repo := mkRepo (L "lib") (L "/w/lib") None None false (Some hg) in
  Hg_geturl fs (fun _ => mkProc 0 (L "https://developer.mbed.org/users/b/code/lib/")) repo
  = Raises IndexError.
Proof.
  intros fs repo.
  apply (hg_geturl_paths_last fs _ repo (L "[ui]" ++ [nl] ++ L "[paths]" ++ [nl]) [L "[ui]"]).
  - reflexivity.
  - vm_compute. reflexivity.
  - intros H. apply elem_of_cons in H as [H|H]; [discriminate|]. inversion H.
Defined.

(** ** The ignore lists *)

Lemma splitlines_aux_cut (n : nat) : forall c cur d,
  length c <= n ->
  splitlines_aux cur (c ++ nl :: d) = splitlines_aux cur (c ++ [nl]) ++ splitlines_aux [] d.
Proof.
  induction n as [|n IH]; intros c cur d Hlen.
  - destruct c; [reflexivity|cbn in Hlen; lia].
  - destruct c as [|a c]; [reflexivity|]. cbn in Hlen.
    change ((a :: c) ++ nl :: d) with (a :: (c ++ nl :: d)).
    change ((a :: c) ++ [nl]) with (a :: (c ++ [nl])).
    cbn [splitlines_aux].
    destruct (Ascii.eqb a nl); [rewrite IH by lia; reflexivity|].
    destruct (Ascii.eqb a cr); [|apply IH; lia].
    destruct c as [|b c]; [reflexivity|]. cbn in Hlen.
    change ((b :: c) ++ nl :: d) with (b :: (c ++ nl :: d)).
    change ((b :: c) ++ [nl]) with (b :: (c ++ [nl])).
    cbv beta iota. destruct (Ascii.eqb b nl).
    + rewrite IH by lia. reflexivity.
    + change (b :: (c ++ nl :: d)) with ((b :: c) ++ nl :: d).
      change (b :: (c ++ [nl])) with ((b :: c) ++ [nl]).
      rewrite IH by (cbn; lia). reflexivity.
Qed.

(** A line appended to a file of whole lines is one more line. *)
Lemma splitlines_append (c f : str) :
  whole_lines c -> noeol f = true -> splitlines (c ++ f ++ [nl]) = splitlines c ++ [f].
Proof.
  intros [->|[c' ->]] Hf; unfold splitlines.
  - cbn [app]. rewrite splitlines_aux_line by exact Hf. reflexivity.
  - rewrite <- app_assoc. cbn [app].
    rewrite (splitlines_aux_cut (length c') c' [] (f ++ [nl])) by lia.
    rewrite (splitlines_aux_line f [] []) by exact Hf. reflexivity.
Qed.

Lemma whole_lines_default (o : option str) :
  match o with Some c => whole_lines c | None => True end -> whole_lines (default [] o).
Proof. destruct o; [auto|]. intros _. left. reflexivity. Qed.

Lemma listed_append (p x f : str) (fs : Fs) :
  match files fs !! p with Some c => whole_lines c | None => True end ->
  noeol f = true ->
  listed p x (append_file p (f ++ [nl]) fs)
  = bool_decide (x ∈ splitlines (default [] (files fs !! p)) ++ [f]).
Proof.
  intros Hc Hf. unfold listed, append_file, write_file. cbn [files].
  rewrite lookup_insert_eq. rewrite splitlines_append; [reflexivity| |exact Hf].
  apply whole_lines_default. exact Hc.
Qed.

Lemma noeol_unbackslash (f : str) : noeol f = true -> noeol (unbackslash f) = true.
Proof.
  unfold noeol, unbackslash. induction f as [|a f IH]; [reflexivity|]. cbn [map forallb].
  rewrite !andb_true_iff. intros [Ha Hf]. split; [|auto].
  destruct (Ascii.eqb a "\"); [reflexivity|exact Ha].
Qed.

Lemma join_suffix (a b : str) : exists x, join a b = x ++ b.
Proof.
  unfold join. destruct (isabs b); [exists []; reflexivity|].
  destruct (rev a) as [|c r]; [exists []; reflexivity|].
  destruct (Ascii.eqb c "/"); [exists a; reflexivity|].
  exists (a ++ L "/"). rewrite <- app_assoc. reflexivity.
Qed.

Lemma hgrc_not_exclude (repo : Repo) : hg_hgrc repo <> hg_exclude repo.
Proof.
  unfold hg_hgrc, hg_exclude.
  destruct (join_suffix (join (path repo) (L ".hg")) (L "hgrc")) as [x ->].
  destruct (join_suffix (path repo) (L ".hg/hgignore")) as [y ->].
  intros E. apply (f_equal (@rev ascii)) in E. rewrite !rev_app_distr in E. discriminate E.
Qed.

Lemma Hg_hook_listed (repo : Repo) (fs fs1 : Fs) :
  Hg_hook repo fs = Returns fs1 ->
  listed (hg_hgrc repo) hg_hook fs1 = true
  /\ files fs1 !! hg_exclude repo = files fs !! hg_exclude repo
  /\ dirs fs1 = dirs fs.
Proof.
  unfold Hg_hook.
  destruct (listed (hg_hgrc repo) hg_hook fs) eqn:El; [intros [= <-]; auto|].
  destruct (can_open fs (hg_hgrc repo)); [|discriminate]. intros [= <-].
  split; [|split; [|reflexivity]].
  - unfold listed, append_file, write_file. cbn [files]. rewrite lookup_insert_eq.
    rewrite (app_assoc _ (L "[ui]" ++ [nl]) (hg_hook ++ [nl])).
    rewrite splitlines_append; [| |reflexivity].
    + apply bool_decide_eq_true_2, elem_of_app. right. left.
    + right. exists (default [] (files fs !! hg_hgrc repo) ++ L "[ui]").
      rewrite <- !app_assoc. reflexivity.
  - unfold append_file, write_file. cbn [files].
    apply lookup_insert_ne. apply hgrc_not_exclude.
Qed.

(** X14 (Git.ignore, Hg.ignore): when the ignore file is absent, empty or
    ended by a newline, and the path holds no line break (LF or CR), a path
    that [ignore] has taken without raising is listed in the file, and
    ignoring it again changes nothing.  For git this needs a path without
    a backslash. *)
Theorem ignore_idempotent (n : scm_name) (repo : Repo) (file : str) (fs fs1 : Fs) :
  whole_lines_at (exclude_of n repo) fs ->
  (n = git -> unbackslash file = file) ->
  noeol file = true ->
  scm_ignore n repo file fs = Returns fs1 ->
  listed (exclude_of n repo) file fs1 = true
  /\ scm_ignore n repo file fs1 = Returns fs1.
Proof.
  intros Hc Hbs Hf. destruct n; cbn [scm_ignore].
  - change (exclude_of hg repo) with (hg_exclude repo) in *.
    unfold Hg_ignore. destruct (Hg_hook repo fs) as [fs0|e] eqn:Eh; [|discriminate].
    destruct (Hg_hook_listed repo fs fs0 Eh) as (Hl & Hsame & Hd).
    assert (Hhook : forall fs2, listed (hg_hgrc repo) hg_hook fs2 = true ->
                                Hg_hook repo fs2 = Returns fs2).
    { intros fs2 H2. unfold Hg_hook. rewrite H2. reflexivity. }
    destruct (listed (hg_exclude repo) file fs0) eqn:El.
    + intros [= <-]. split; [exact El|]. rewrite (Hhook fs0 Hl), El. reflexivity.
    + destruct (can_open fs0 (hg_exclude repo)); [|discriminate]. intros [= <-].
      assert (Hl1 : listed (hg_exclude repo) file
                      (append_file (hg_exclude repo) (file ++ [nl]) fs0) = true).
      { rewrite listed_append; [| |exact Hf].
        - apply bool_decide_eq_true_2, elem_of_app. right. left.
        - unfold whole_lines_at in Hc. rewrite Hsame. exact Hc. }
      split; [exact Hl1|]. rewrite Hhook, Hl1; [reflexivity|].
      unfold listed, append_file, write_file in Hl |- *. cbn [files].
      rewrite lookup_insert_ne by (intros E; exact (hgrc_not_exclude repo (eq_sym E))).
      exact Hl.
  - change (exclude_of git repo) with (git_exclude repo) in *. intros Hi.
    assert (Hl : listed (git_exclude repo) file fs1 = true).
    { unfold Git_ignore in Hi.
      destruct (listed (git_exclude repo) file fs) eqn:El; [injection Hi as <-; exact El|].
      destruct (can_open fs (git_exclude repo)); [|discriminate]. injection Hi as <-.
      rewrite listed_append; [|exact Hc|apply noeol_unbackslash; exact Hf].
      apply bool_decide_eq_true_2, elem_of_app. right. rewrite (Hbs eq_refl). left. }
    split; [exact Hl|]. unfold Git_ignore. rewrite Hl. reflexivity.
Qed.

Lemma whole_lines_join (ls : list str) : whole_lines (join_lines ls ++ [nl]).
Proof. right. eexists. reflexivity. Qed.

Lemma whole_lines_at_join (p : str) (fs : Fs) (ls : list str) :
  files fs !! p = Some (join_lines ls ++ [nl]) -> whole_lines_at p fs.
Proof. unfold whole_lines_at. intros ->. right. eexists. reflexivity. Qed.

Lemma ignore_idempotent_witness :
  exists fs1, scm_ignore git (program_repo git) (L "libs/rtos") git_checkout_fs = Returns fs1
    /\ listed (L "/w/p/.git/info/exclude") (L "libs/rtos") fs1 = true
    /\ scm_ignore git (program_repo git) (L "libs/rtos") fs1 = Returns fs1.
Proof.
  eexists. split; [vm_compute; reflexivity|].
  apply (ignore_idempotent git (program_repo git) (L "libs/rtos") git_checkout_fs).
  - apply (whole_lines_at_join _ _ ignores). reflexivity.
  - reflexivity.
  - reflexivity.
  - vm_compute. reflexivity.
Defined.

Lemma list_remove_first_last (x : str) (ls : list str) :
  x ∉ ls -> list_remove_first x (ls ++ [x]) = ls.
Proof.
  induction ls as [|y ls IH]; intros H; cbn [app list_remove_first]; unfold str_eqb.
  - rewrite bool_decide_eq_true_2 by reflexivity. reflexivity.
  - apply not_elem_of_cons in H as [Hne H].
    rewrite bool_decide_eq_false_2 by exact Hne. rewrite IH by exact H. reflexivity.
Qed.


(** The exclude file after [file] has been appended to the lines [ls], and
    what [unignore] makes of it. *)
Lemma unignore_appended (b : Scm) (repo : Repo) (file : str) (fs : Fs) (ls : list str) :
  files fs !! join (path repo) (exclude_file b) = Some (join_lines ls ++ [nl]) ->
  ls <> [] -> Forall (fun l => noeol l = true) ls -> file ∉ ls -> noeol file = true ->
  unignore b repo file (append_file (join (path repo) (exclude_file b)) (file ++ [nl]) fs) = fs.
Proof.
  intros Hc Hne Hls Hnot Hf. unfold unignore, append_file, write_file. cbn [files dirs].
  rewrite lookup_insert_eq, Hc. cbn [from_option id].
  rewrite splitlines_append by (apply whole_lines_join || exact Hf).
  rewrite splitlines_join by assumption.
  rewrite bool_decide_eq_true_2 by (apply elem_of_app; right; left).
  rewrite list_remove_first_last by exact Hnot.
  rewrite insert_insert_eq, insert_id by exact Hc. destruct fs; reflexivity.
Qed.

(** Where the ignore file can be opened, [unignore] does not raise. *)
Lemma scm_unignore_open (n : scm_name) (repo : Repo) (file : str) (fs : Fs) :
  can_open fs (exclude_of n repo) = true ->
  scm_unignore n repo file fs = Returns (unignore (scms n) repo file fs).
Proof.
  unfold scm_unignore, unignore, exclude_of. intros ->.
  destruct (bool_decide (file ∈ _)); reflexivity.
Qed.

(** X15 (Git.ignore, Hg.ignore, Git.unignore, Hg.unignore): on an ignore
    file in an existing directory that holds one or more lines, each ended
    by LF and none with a CR, and that does not list the path yet, and for
    a path without line break, [ignore] followed by [unignore] gives the
    file system back as it was.  For git this needs a path without a
    backslash, for hg the hook in the hgrc. *)
Theorem ignore_unignore_roundtrip (n : scm_name) (repo : Repo) (file : str) (fs : Fs)
    (ls : list str) :
  files fs !! exclude_of n repo = Some (join_lines ls ++ [nl]) ->
  ls <> [] -> Forall (fun l => noeol l = true) ls ->
  file ∉ ls -> noeol file = true ->
  can_open fs (exclude_of n repo) = true ->
  (n = git -> unbackslash file = file) ->
  (n = hg -> listed (hg_hgrc repo) hg_hook fs = true) ->
  exists fs1, scm_ignore n repo file fs = Returns fs1
              /\ listed (exclude_of n repo) file fs1 = true
              /\ unignore (scms n) repo file fs1 = fs
              /\ scm_unignore n repo file fs1 = Returns fs.
Proof.
  intros Hc Hne Hls Hnot Hf Hopen Hbs Hhook.
  assert (Hl : listed (exclude_of n repo) file fs = false).
  { unfold listed. rewrite Hc, splitlines_join by assumption.
    apply bool_decide_eq_false_2. exact Hnot. }
  assert (Hback : unignore (scms n) repo file
                    (append_file (exclude_of n repo) (file ++ [nl]) fs) = fs)
    by (apply (unignore_appended (scms n) repo file fs ls); assumption).
  exists (append_file (exclude_of n repo) (file ++ [nl]) fs). split; [|split; [|split]].
  4:{ rewrite scm_unignore_open by exact Hopen. rewrite Hback. reflexivity. }
  3:{ exact Hback. }
  - destruct n; cbn [scm_ignore].
    + unfold Hg_ignore, Hg_hook. rewrite (Hhook eq_refl).
      change (hg_exclude repo) with (exclude_of hg repo). rewrite Hl, Hopen. reflexivity.
    + unfold Git_ignore. change (git_exclude repo) with (exclude_of git repo).
      rewrite Hl, Hopen, (Hbs eq_refl). reflexivity.
  - rewrite listed_append; [| |exact Hf].
    + apply bool_decide_eq_true_2, elem_of_app. right. left.
    + rewrite Hc. apply (whole_lines_join ls).
Qed.

Lemma ignore_unignore_roundtrip_witness :
  exists fs1, scm_ignore git (program_repo git) (L "libs/rtos") git_checkout_fs = Returns fs1
    /\ listed (L "/w/p/.git/info/exclude") (L "libs/rtos") fs1 = true
    /\ unignore Git (program_repo git) (L "libs/rtos") fs1 = git_checkout_fs
    /\ scm_unignore git (program_repo git) (L "libs/rtos") fs1 = Returns git_checkout_fs.
Proof.
  apply (ignore_unignore_roundtrip git (program_repo git) (L "libs/rtos") git_checkout_fs ignores).
  - reflexivity.
  - discriminate.
  - vm_compute. repeat constructor.
  - vm_compute. intros H. repeat (apply elem_of_cons in H as [H|H]; [discriminate|]). inversion H.
  - reflexivity.
  - vm_compute. reflexivity.
  - reflexivity.
  - discriminate.
Defined.

(** X16 (Git.ignore, Git.unignore): a path with a backslash is listed under
    its form with slashes, so the path as given is still not found in the
    file: the same call appends the line once more, and [unignore] of that
    path leaves the file as it is. *)
Theorem git_ignore_backslash (repo : Repo) (file : str) (fs : Fs) :
  whole_lines_at (git_exclude repo) fs ->
  noeol file = true -> unbackslash file <> file ->
  listed (git_exclude repo) file fs = false ->
  can_open fs (git_exclude repo) = true ->
  let fs1 := append_file (git_exclude repo) (unbackslash file ++ [nl]) fs in
  Git_ignore repo file fs = Returns fs1
  /\ listed (git_exclude repo) file fs1 = false
  /\ Git_ignore repo file fs1
     = Returns (append_file (git_exclude repo) (unbackslash file ++ [nl]) fs1)
  /\ unignore Git repo file fs1 = fs1.
Proof.
  intros Hc Hf Hbs Hl Hopen fs1.
  assert (Hl1 : listed (git_exclude repo) file fs1 = false).
  { unfold fs1. rewrite listed_append; [|exact Hc|apply noeol_unbackslash; exact Hf].
    apply bool_decide_eq_false_2. intros H. apply elem_of_app in H as [H|H].
    - unfold listed in Hl. destruct (files fs !! git_exclude repo) as [c|]; cbn [from_option id] in H.
      + apply bool_decide_eq_false_1 in Hl. exact (Hl H).
      + inversion H.
    - apply list_elem_of_singleton in H. congruence. }
  assert (Hopen1 : can_open fs1 (git_exclude repo) = true) by exact Hopen.
  split; [|split; [exact Hl1|split]].
  - unfold Git_ignore. rewrite Hl, Hopen. reflexivity.
  - unfold Git_ignore. rewrite Hl1, Hopen1. reflexivity.
  - unfold unignore. change (join (path repo) (exclude_file Git)) with (git_exclude repo).
    unfold listed in Hl1. destruct (files fs1 !! git_exclude repo) as [c|].
    + rewrite Hl1. reflexivity.
    + rewrite bool_decide_eq_false_2; [reflexivity|]. intros H. inversion H.
Qed.

Lemma git_ignore_backslash_witness :
  let fs1 := append_file (L "/w/p/.git/info/exclude") (L "libs/rtos" ++ [nl]) git_checkout_fs in
  Git_ignore (program_repo git) (L "libs\rtos") git_checkout_fs = Returns fs1
  /\ listed (L "/w/p/.git/info/exclude") (L "libs\rtos") fs1 = false
  /\ Git_ignore (program_repo git) (L "libs\rtos") fs1
     = Returns (append_file (L "/w/p/.git/info/exclude") (L "libs/rtos" ++ [nl]) fs1)
  /\ unignore Git (program_repo git) (L "libs\rtos") fs1 = fs1.
Proof.
  apply (git_ignore_backslash (program_repo git) (L "libs\rtos") git_checkout_fs).
  - apply (whole_lines_at_join _ _ ignores). reflexivity.
  - reflexivity.
  - discriminate.
  - vm_compute. reflexivity.
  - vm_compute. reflexivity.
Defined.

(** ** Untracked files *)

Lemma join_lines_head (p l : str) (ls : list str) :
  join_lines ((p ++ l) :: ls) = p ++ join_lines (l :: ls).
Proof. destruct ls; cbn [join_lines]; [reflexivity|]. rewrite <- app_assoc. reflexivity. Qed.

(** X17 (Hg.untracked): when [hg status -u] lists several files, the
    marker [? ] is taken from the first line only: every later file keeps
    it in front of its name. *)
Theorem hg_untracked_first_only (run : runner) (f : str) (fs : list str) :
  pquery run [hg_cmd; L "status"; L "-u"]
    = Ok (join_lines (map (app (L "? ")) (f :: fs)) ++ [nl]) ->
  Forall (fun l => noeol l = true) (f :: fs) ->
  Hg_untracked run = Ok (f :: map (app (L "? ")) fs).
Proof.
  intros Hq Hn. unfold Hg_untracked. rewrite Hq. rewrite map_cons, join_lines_head.
  rewrite <- app_assoc, startswith_self.
  change (drop 2 (L "? " ++ join_lines (f :: map (app (L "? ")) fs) ++ [nl]))
    with (join_lines (f :: map (app (L "? ")) fs) ++ [nl]).
  rewrite splitlines_join; [reflexivity|discriminate|].
  apply Forall_cons in Hn as [Hf Hfs]. constructor; [exact Hf|].
  apply Forall_map. eapply Forall_impl; [exact Hfs|]. intros l Hl. cbn beta in *.
  rewrite noeol_app, Hl. reflexivity.
Qed.

Lemma hg_untracked_first_only_witness :
  Hg_untracked (fun _ => mkProc 0 (L "? a.lib" ++ [nl] ++ L "? b.lib" ++ [nl]))
  = Ok [L "a.lib"; L "? b.lib"].
Proof.
  apply (hg_untracked_first_only _ (L "a.lib") [L "b.lib"]).
  - reflexivity.
  - repeat constructor.
Defined.

Lemma regex_lib_sound (file : str) :
  matches 1 regex_lib file = true ->
  exists x e, file = x ++ L ".lib" ++ e /\ 1 <= length x /\ (e = [] \/ e = [nl]).
Proof.
  unfold matches. destruct (rmatch 1 regex_lib file) as [m|] eqn:E; [|discriminate]. intros _.
  apply rmatch_matched in E as [s' E]. unfold regex_lib, plus in E. cbn [seq matched] in E.
  destruct E as (s1 & c1 & (c2 & g & (_ & w & -> & _ & Hw & _) & _ & _)
    & s2 & c3 & (-> & _) & He & _ & _).
  exists w, s2. auto.
Qed.

Lemma rm_untracked_loop_files (cwd : str) (untracked : list str) : forall (fs : Fs) (p : str),
  files (fst (rm_untracked_loop cwd untracked fs)) !! p <> files fs !! p ->
  exists file, file ∈ untracked /\ p = join cwd file /\ matches 1 regex_lib file = true
               /\ files (fst (rm_untracked_loop cwd untracked fs)) !! p = None.
Proof.
  induction untracked as [|file rest IH]; intros fs p Hp; [cbn in Hp; congruence|].
  cbn [rm_untracked_loop] in *.
  destruct (matches 1 regex_lib file && isfile fs (join cwd file)) eqn:Et.
  - apply andb_true_iff in Et as [Em _].
    destruct (rm_untracked_loop cwd rest _) as [fs1 ev] eqn:Er. cbn [fst] in *.
    pose proof (IH {| files := delete (join cwd file) (files fs); dirs := dirs fs |} p) as IH'.
    rewrite Er in IH'. cbn [fst files] in IH'.
    destruct (decide (files fs1 !! p = delete (join cwd file) (files fs) !! p)) as [Eq|Ne].
    + exists file. destruct (decide (p = join cwd file)) as [->|Hne].
      * rewrite lookup_delete_eq in Eq. repeat split; [left|exact Em|exact Eq].
      * rewrite lookup_delete_ne in Eq by congruence. contradiction.
    + destruct (IH' Ne) as (f & Hin & -> & Hm & Hnone). exists f.
      repeat split; [right; exact Hin|exact Hm|exact Hnone].
  - destruct (IH fs p Hp) as (f & Hin & -> & Hm & Hnone). exists f.
    repeat split; [right; exact Hin|exact Hm|exact Hnone].
Qed.

(** X18 (Repo.rm_untracked): no directory is touched, and every file
    that is not as it was has been deleted and is one of the files reported
    untracked, with a name that is something non-empty followed by
    [.lib] and at most a final newline; when the list of untracked files
    cannot be had, nothing changes. *)
Theorem rm_untracked_only_references (cwd : str) (untracked : res (list str)) (fs : Fs) :
  dirs (fst (fst (rm_untracked cwd untracked fs))) = dirs fs
  /\ forall p,
       files (fst (fst (rm_untracked cwd untracked fs))) !! p <> files fs !! p ->
       files (fst (fst (rm_untracked cwd untracked fs))) !! p = None
       /\ exists l x e, untracked = Ok l /\ x ++ L ".lib" ++ e ∈ l
                        /\ p = join cwd (x ++ L ".lib" ++ e)
                        /\ 1 <= length x /\ (e = [] \/ e = [nl]).
Proof.
  destruct untracked as [l|e0]; cbn [rm_untracked fst]; [|split; [reflexivity|congruence]].
  split.
  - revert fs. induction l as [|file rest IH]; intros fs; [reflexivity|].
    cbn [rm_untracked_loop]. destruct (matches 1 regex_lib file && isfile fs (join cwd file)).
    + specialize (IH {| files := delete (join cwd file) (files fs); dirs := dirs fs |}).
      destruct (rm_untracked_loop cwd rest _) as [fs1 ev]. exact IH.
    + apply IH.
  - intros p Hp.
    destruct (rm_untracked_loop_files cwd l fs p Hp) as (f & Hin & -> & Hm & Hnone).
    split; [exact Hnone|].
    destruct (regex_lib_sound f Hm) as (x & e & -> & Hx & He). exists l, x, e. auto.
Qed.

Lemma rm_untracked_only_references_witness :
  let fs := {| files := {[ L "/w/p/a.lib" := L "x"; L "/w/p/main.cpp" := L "y" ]};
               dirs := {[ L "/w/p" ]} |} in
  let fs1 := fst (fst (rm_untracked (L "/w/p") (Ok [L "a.lib"; L "main.cpp"]) fs)) in
  dirs fs1 = dirs fs /\ files fs1 !! L "/w/p/a.lib" = None
  /\ files fs1 !! L "/w/p/main.cpp" = Some (L "y").
Proof.
  intros fs fs1.
  destruct (rm_untracked_only_references (L "/w/p") (Ok [L "a.lib"; L "main.cpp"]) fs)
    as (Hd & Hp).
  split; [exact Hd|]. split; [|vm_compute; reflexivity].
  apply (Hp (L "/w/p/a.lib")). vm_compute. discriminate.
Defined.

(** ** A reference file that is up to date *)

Lemma lstrip_idem (p : ascii -> bool) (s : str) : lstrip p (lstrip p s) = lstrip p s.
Proof.
  induction s as [|a s IH]; [reflexivity|]. cbn. destruct (p a) eqn:E; [exact IH|].
  cbn. rewrite E. reflexivity.
Qed.

Lemma lstrip_snoc_keep (p : ascii -> bool) (r : str) (a : ascii) :
  p a = false -> lstrip p (r ++ [a]) = lstrip p r ++ [a].
Proof.
  intros Ha. induction r as [|b r IH]; cbn; [rewrite Ha; reflexivity|].
  destruct (p b); [exact IH|reflexivity].
Qed.

Lemma rstrip_cons_keep (p : ascii -> bool) (a : ascii) (t : str) :
  p a = false -> rstrip p (a :: t) = a :: rstrip p t.
Proof.
  intros Ha. unfold rstrip. cbn [rev]. rewrite lstrip_snoc_keep by exact Ha.
  rewrite rev_app_distr. reflexivity.
Qed.

Lemma rstrip_idem (p : ascii -> bool) (s : str) : rstrip p (rstrip p s) = rstrip p s.
Proof. unfold rstrip. rewrite rev_involutive, lstrip_idem. reflexivity. Qed.

(** [strip] has nothing to take from what it returns. *)
Lemma strip_idem (s : str) : strip (strip s) = strip s.
Proof.
  unfold strip. set (t := lstrip is_space s).
  assert (Ht : lstrip is_space (rstrip is_space t) = rstrip is_space t).
  { assert (Hhead : match t with a :: _ => is_space a = false | [] => True end).
    { unfold t. clear t. induction s as [|a s IH]; [exact I|]. cbn.
      destruct (is_space a) eqn:E; [exact IH|exact E]. }
    destruct t as [|a t']; [reflexivity|].
    rewrite rstrip_cons_keep by exact Hhead. apply lstrip_keep. exact Hhead. }
  rewrite Ht. apply rstrip_idem.
Qed.

(** [Repo.fromurl] reads its locator through [strip] only. *)
Lemma fromurl_strip (cwd a b : str) (p : option str) :
  strip a = strip b -> fromurl cwd a p = fromurl cwd b p.
Proof. intros H. unfold fromurl. rewrite H. reflexivity. Qed.

(** X19 (Repo.write): for a repository whose url is canonical and of the
    shape [base/name] or [base/name.ext] that the reference grammar reads
    (a name of one or more characters of [[\w+-]], an extension of word
    characters, a base without white space, backslash or [#] that holds a
    character outside [[\w./+-]], so that it is no local path), a reference
    file made of that url, a slash, the revision part and a newline is up
    to date, and [write] leaves it as it is: the revision part being empty
    when the repository has no revision, or [#] and the revision of the
    repository or a beginning of it, non-empty and without white space,
    backslash or slash. *)
Theorem write_keeps_current_reference (cwd : str) (self : Repo) (base nm ext : str)
    (rev0 : option str) :
  url self = Some (ref_url base nm ext) ->
  formaturl (ref_url base nm ext) Pdefault = ref_url base nm ext ->
  forallb url_char base = true ->
  existsb (fun a => negb (cls_local_tail a)) base = true ->
  forallb cls_name nm = true -> 1 <= length nm ->
  is_ext ext ->
  match rev0 with
  | Some h => forallb rev_char h = true /\ 1 <= length h
  | None => True
  end ->
  (rev0 = hash self \/ exists h0 t, rev0 = Some h0 /\ hash self = Some (h0 ++ t)) ->
  write cwd self (Some (ref_line base nm ext rev0 ++ [nl]))
  = (Some (ref_line base nm ext rev0 ++ [nl]), Ok tt).
Proof.
  intros Hu Hcanon Hbase Hremote Hnm Hnm1 Hext Hrev Hsame.
  destruct (the_line_fromurl base nm ext rev0 Hbase Hremote Hnm Hnm1 Hext Hrev cwd Hcanon)
    as (r & Hr & Hur & Hhr & _).
  unfold write.
  rewrite (fromurl_strip cwd _ (ref_line base nm ext rev0 ++ [nl]) None (strip_idem _)), Hr.
  assert (Hs : same_reference r self = true); [|rewrite Hs; reflexivity].
  unfold same_reference. rewrite Hur, Hu, Hhr. unfold str_eqb at 1.
  rewrite bool_decide_eq_true_2 by reflexivity. cbn [andb].
  destruct Hsame as [->|(h0 & t & -> & Hh)].
  - unfold opt_str_eqb. rewrite bool_decide_eq_true_2 by reflexivity. reflexivity.
  - rewrite Hh. apply orb_true_iff. right. destruct Hrev as [_ Hlen].
    destruct h0 as [|a h0]; [cbn in Hlen; lia|].
    cbn [truthy por andb]. unfold str_eqb. apply bool_decide_eq_true_2.
    change (match (a :: h0) ++ t with [] => [] | _ :: _ => (a :: h0) ++ t end)
      with ((a :: h0) ++ t).
    rewrite take_app_length. reflexivity.
Qed.

Lemma write_keeps_current_reference_witness :
  let self := {| name := L "mbed-os"; path := L "/w/mbed-os";
                 url := Some (L "https://github.com/ARMmbed/mbed-os");
                 hash := Some (L "0123456789abcdef0123456789abcdef01234567");
                 is_local := false; scm := Some git |} in
  write (L "/w") self (Some (L "https://github.com/ARMmbed/mbed-os/#0123456789ab" ++ [nl]))
  = (Some (L "https://github.com/ARMmbed/mbed-os/#0123456789ab" ++ [nl]), Ok tt).
Proof.
  intros self.
  apply (write_keeps_current_reference (L "/w") self (L "https://github.com/ARMmbed")
           (L "mbed-os") [] (Some (L "0123456789ab"))).
  - reflexivity.
  - vm_compute. reflexivity.
  - vm_compute. reflexivity.
  - vm_compute. reflexivity.
  - vm_compute. reflexivity.
  - cbn. lia.
  - left. reflexivity.
  - split; [vm_compute; reflexivity | cbn; lia].
  - right. exists (L "0123456789ab"), (L "cdef0123456789abcdef01234567"). split; reflexivity.
Defined.

(** ** What [update] removes *)

(** Where the gate allows, its three conditions hold. *)
Lemma gate_allows (lr : Repo) (clean force : bool) (run : runner) (msg : str) :
  can_update lr clean force run = Ok (true, msg) -> removable lr run clean force.
Proof.
  intros H. unfold can_update, can_update_err in H.
  destruct ((is_local lr || negb (is_some (url lr))) && negb force) eqn:E1; [discriminate H|].
  destruct (if negb clean
            then (b <- the_scm lr ;; out <- dirty b run ;; Ok (truthy (Some out)))%res
            else Ok false) as [[|]|e] eqn:E2; cbn in H; try discriminate H.
  destruct (if negb force then (b <- the_scm lr ;; outgoing b run)%res else Ok false)
    as [[|]|e] eqn:E3; cbn in H; try discriminate H.
  clear H. unfold removable, has_remote, tree_clean, nothing_outgoing. split; [|split].
  - destruct (is_local lr), (url lr), force; cbn in E1; try discriminate E1;
      try (right; reflexivity); left; (split; [reflexivity|discriminate]).
  - destruct clean; [right; reflexivity|left]. cbn in E2.
    destruct (the_scm lr) as [b|e]; cbn in E2; [|discriminate E2].
    destruct (dirty b run) as [[|a o]|e] eqn:Ed; cbn in E2; try discriminate E2.
    exists b. auto.
  - destruct force; [right; reflexivity|left]. cbn in E3.
    destruct (the_scm lr) as [b|e]; cbn in E3; [|discriminate E3].
    exists b. auto.
Qed.

Section UpdateFacts.

Variable cwd_root : str.
Variable fromrepo : str -> res (Repo * runner).
Variables (clean force ignore : bool).
Variable repo : Repo.

Abbreviation obsolete := (update_obsolete cwd_root fromrepo clean force ignore repo).
Abbreviation drift := (update_drift cwd_root fromrepo clean force ignore repo).

Lemma obsolete_removals (libs : list Repo) (fs : Fs) (p : str) :
  In (Rmtree p) (snd (fst (obsolete libs fs))) ->
  exists l lr run, In l libs /\ path l = p /\ fromrepo p = Ok (lr, run)
                   /\ removable lr run clean force.
Proof.
  revert fs. induction libs as [|x rest IH]; intros fs; cbn; [tauto|].
  assert (Hrest : forall fs', In (Rmtree p) (snd (fst (obsolete rest fs'))) ->
                    exists l lr run, (x = l \/ In l rest) /\ path l = p
                                     /\ fromrepo p = Ok (lr, run)
                                     /\ removable lr run clean force).
  { intros fs' H. destruct (IH fs' H) as (l & lr & run & Hin & Hp & Hf & Hg).
    exists l, lr, run. auto. }
  destruct (negb (isfile fs (lib x)) && isdir fs (path x)); [|apply Hrest].
  destruct (fromrepo (path x)) as [[lr run]|e] eqn:Ef; cbn; [|tauto].
  destruct (can_update lr clean force run) as [[[|] msg]|e] eqn:Eg; cbn; [| |tauto].
  - assert (Hx : exists l lr0 run0, (x = l \/ In l rest) /\ path l = path x
                   /\ fromrepo (path x) = Ok (lr0, run0) /\ removable lr0 run0 clean force).
    { exists x, lr, run. split; [auto|]. split; [reflexivity|]. split; [exact Ef|].
      exact (gate_allows _ _ _ _ _ Eg). }
    destruct (the_scm repo) as [b|e]; cbn.
    + specialize (Hrest (unignore b repo (relpath (path repo) (path x)) (rmtree (path x) fs))).
      destruct (obsolete rest _) as [[fs2 ev] r]. cbn in *.
      intros [H|[H|H]]; [discriminate| |auto]. injection H as <-. exact Hx.
    + intros [H|[H|[]]]; [discriminate|]. injection H as <-. exact Hx.
  - specialize (Hrest fs). destruct (obsolete rest fs) as [[fs2 ev] r].
    destruct ignore; cbn in *; [|tauto].
    intros [H|H]; [discriminate|auto].
Qed.

Lemma drift_removals (libs : list Repo) (fs : Fs) (p : str) :
  In (Rmtree p) (snd (fst (drift libs fs))) ->
  exists l lr run, In l libs /\ path l = p /\ fromrepo p = Ok (lr, run)
                   /\ url l <> url lr /\ removable lr run clean force.
Proof.
  revert fs. induction libs as [|x rest IH]; intros fs; cbn; [tauto|].
  assert (Hrest : forall fs', In (Rmtree p) (snd (fst (drift rest fs'))) ->
                    exists l lr run, (x = l \/ In l rest) /\ path l = p
                                     /\ fromrepo p = Ok (lr, run)
                                     /\ url l <> url lr /\ removable lr run clean force).
  { intros fs' H. destruct (IH fs' H) as (l & lr & run & Hin & Hp & Hf & Hg).
    exists l, lr, run. auto. }
  destruct (isdir fs (path x) && isrepo fs (path x)); [|apply Hrest].
  destruct (fromrepo (path x)) as [[lr run]|e] eqn:Ef; cbn; [|tauto].
  unfold opt_str_eqb. destruct (bool_decide_reflect (url x = url lr)) as [Heq|Hne]; cbn;
    [apply Hrest|].
  destruct (can_update lr clean force run) as [[[|] msg]|e] eqn:Eg; cbn; [| |tauto].
  - assert (Hx : exists l lr0 run0, (x = l \/ In l rest) /\ path l = path x
                   /\ fromrepo (path x) = Ok (lr0, run0) /\ url l <> url lr0
                   /\ removable lr0 run0 clean force).
    { exists x, lr, run. split; [auto|]. split; [reflexivity|]. split; [exact Ef|].
      split; [exact Hne|]. exact (gate_allows _ _ _ _ _ Eg). }
    destruct (the_scm repo) as [b|e]; cbn.
    + specialize (Hrest (unignore b repo (relpath (path repo) (path x)) (rmtree (path x) fs))).
      destruct (drift rest _) as [[fs2 ev] r]. cbn in *.
      intros [H|[H|H]]; [discriminate| |auto]. injection H as <-. exact Hx.
    + intros [H|[H|[]]]; [discriminate|]. injection H as <-. exact Hx.
  - specialize (Hrest fs). destruct (drift rest fs) as [[fs2 ev] r].
    destruct ignore; cbn in *; [|tauto].
    intros [H|H]; [discriminate|auto].
Qed.


End UpdateFacts.


(** ** Where the passes stop *)

Lemma scm_unignore_returns (n : scm_name) (repo : Repo) (file : str) (fs fs2 : Fs) :
  scm_unignore n repo file fs = Returns fs2 -> fs2 = unignore (scms n) repo file fs.
Proof.
  unfold scm_unignore, unignore.
  destruct (bool_decide (file ∈ _)); [|intros [= <-]; reflexivity].
  destruct (can_open fs _); [intros [= <-]; reflexivity|destruct n; discriminate].
Qed.

(** With [ignore] set, a pass in which the gate refuses every library
    returns, and leaves the file system as it is. *)
Lemma obsolete_io_refused (cwd_root : str) (fromrepo : str -> res (Repo * runner))
    (rmtree_fails : str -> Fs -> option Fs) (clean force : bool) (repo : Repo)
    (libs : list Repo) (fs : Fs) :
  all_refused fromrepo clean force libs ->
  snd (update_obsolete_io cwd_root fromrepo rmtree_fails clean force true repo libs fs)
    = Returns tt
  /\ fst (fst (update_obsolete_io cwd_root fromrepo rmtree_fails clean force true repo libs fs))
     = fs.
Proof.
  induction libs as [|x rest IH]; intros Hall; [split; reflexivity|].
  assert (Hrest : all_refused fromrepo clean force rest).
  { intros l Hl. apply Hall. right. exact Hl. }
  specialize (IH Hrest). cbn [update_obsolete_io].
  destruct (negb (isfile fs (lib x)) && isdir fs (path x)); [|exact IH].
  destruct (Hall x (or_introl eq_refl)) as (lr & run & msg & -> & ->).
  destruct (update_obsolete_io _ _ _ _ _ _ _ rest fs) as [[fs2 ev] r]. exact IH.
Qed.

Lemma drift_io_refused (cwd_root : str) (fromrepo : str -> res (Repo * runner))
    (rmtree_fails : str -> Fs -> option Fs) (clean force : bool) (repo : Repo)
    (libs : list Repo) (fs : Fs) :
  all_refused fromrepo clean force libs ->
  snd (update_drift_io cwd_root fromrepo rmtree_fails clean force true repo libs fs)
    = Returns tt
  /\ fst (fst (update_drift_io cwd_root fromrepo rmtree_fails clean force true repo libs fs))
     = fs.
Proof.
  induction libs as [|x rest IH]; intros Hall; [split; reflexivity|].
  assert (Hrest : all_refused fromrepo clean force rest).
  { intros l Hl. apply Hall. right. exact Hl. }
  specialize (IH Hrest). cbn [update_drift_io].
  destruct (isdir fs (path x) && isrepo fs (path x)); [|exact IH].
  destruct (Hall x (or_introl eq_refl)) as (lr & run & msg & -> & ->).
  destruct (negb (opt_str_eqb (url x) (url lr))); [|exact IH].
  destruct (update_drift_io _ _ _ _ _ _ _ rest fs) as [[fs2 ev] r]. exact IH.
Qed.

Section PassFacts.

Variable cwd_root : str.
Variable fromrepo : str -> res (Repo * runner).
Variable rmtree_fails : str -> Fs -> option Fs.
Variables (clean force ignore : bool).
Variable repo : Repo.

Abbreviation obsolete_io :=
  (update_obsolete_io cwd_root fromrepo rmtree_fails clean force ignore repo).
Abbreviation drift_io :=
  (update_drift_io cwd_root fromrepo rmtree_fails clean force ignore repo).
Abbreviation stops_for := (stop_cause fromrepo rmtree_fails clean force ignore repo).

Lemma stop_cause_cons (x : Repo) (rest : list Repo) (e : pyexn) :
  stops_for rest e -> stops_for (x :: rest) e.
Proof. intros (l & Hin & H). exists l. split; [right; exact Hin|exact H]. Qed.

(** The removal of a library stops for one of the causes of
    [removal_fails], or where the rest of the pass stops. *)
Lemma remove_library_stops (act : event) (x : Repo) (fs : Fs)
    (continue_ : Fs -> Fs * list event * outcome unit) (e : pyexn) :
  snd (remove_library rmtree_fails repo act x fs continue_) = Raises e ->
  removal_fails rmtree_fails repo x e \/ exists fs2, snd (continue_ fs2) = Raises e.
Proof.
  unfold remove_library, rmtree_readonly.
  destruct (rmtree_fails (path x) fs) as [rest|] eqn:Er.
  { cbn. intros [= <-]. left. left. exists fs. rewrite Er. split; [eexists|]; reflexivity. }
  destruct (scm repo) as [n|] eqn:Es.
  2:{ cbn. intros [= <-]. left. right. left. split; [exact Es|reflexivity]. }
  destruct (scm_unignore n repo (relpath (path repo) (path x)) (rmtree (path x) fs))
    as [fs2|e0] eqn:Eu.
  - intros H. right. exists fs2. destruct (continue_ fs2) as [[fs3 ev] r]. exact H.
  - cbn. intros [= <-]. left. right. right. exists n, (rmtree (path x) fs). split; [exact Es|].
    exact Eu.
Qed.

Lemma obsolete_io_stops (libs : list Repo) (fs : Fs) (e : pyexn) :
  snd (obsolete_io libs fs) = Raises e -> stops_for libs e.
Proof.
  revert fs. induction libs as [|x rest IH]; intros fs; cbn [update_obsolete_io];
    [discriminate|].
  assert (Hrest : forall fs', snd (obsolete_io rest fs') = Raises e -> stops_for (x :: rest) e).
  { intros fs' H. apply stop_cause_cons. exact (IH fs' H). }
  assert (Hx : stops_at fromrepo rmtree_fails clean force ignore repo x e ->
               stops_for (x :: rest) e).
  { intros H. exists x. split; [left; reflexivity|exact H]. }
  destruct (negb (isfile fs (lib x)) && isdir fs (path x)); [|apply Hrest].
  destruct (fromrepo (path x)) as [[lr run]|e0] eqn:Ef.
  2:{ cbn. intros [= <-]. apply Hx. left. exists e0. split; [exact Ef|reflexivity]. }
  destruct (can_update lr clean force run) as [[[|] msg]|e0] eqn:Eg.
  - intros H. apply remove_library_stops in H as [H|[fs2 H]]; [|exact (Hrest fs2 H)].
    apply Hx. right. exists lr, run. split; [exact Ef|]. right. right. exists msg.
    split; [exact Eg|exact H].
  - specialize (Hrest fs). destruct (obsolete_io rest fs) as [[fs2 ev] r].
    destruct ignore eqn:Ei; cbn; [exact Hrest|].
    intros [= <-]. apply Hx. right. exists lr, run. split; [exact Ef|]. right. left.
    exists msg. split; [exact Eg|]. split; reflexivity.
  - cbn. intros [= <-]. apply Hx. right. exists lr, run. split; [exact Ef|]. left.
    exists e0. split; [exact Eg|reflexivity].
Qed.

Lemma drift_io_stops (libs : list Repo) (fs : Fs) (e : pyexn) :
  snd (drift_io libs fs) = Raises e -> stops_for libs e.
Proof.
  revert fs. induction libs as [|x rest IH]; intros fs; cbn [update_drift_io];
    [discriminate|].
  assert (Hrest : forall fs', snd (drift_io rest fs') = Raises e -> stops_for (x :: rest) e).
  { intros fs' H. apply stop_cause_cons. exact (IH fs' H). }
  assert (Hx : stops_at fromrepo rmtree_fails clean force ignore repo x e ->
               stops_for (x :: rest) e).
  { intros H. exists x. split; [left; reflexivity|exact H]. }
  destruct (isdir fs (path x) && isrepo fs (path x)); [|apply Hrest].
  destruct (fromrepo (path x)) as [[lr run]|e0] eqn:Ef.
  2:{ cbn. intros [= <-]. apply Hx. left. exists e0. split; [exact Ef|reflexivity]. }
  destruct (negb (opt_str_eqb (url x) (url lr))); [|apply Hrest].
  destruct (can_update lr clean force run) as [[[|] msg]|e0] eqn:Eg.
  - intros H. apply remove_library_stops in H as [H|[fs2 H]]; [|exact (Hrest fs2 H)].
    apply Hx. right. exists lr, run. split; [exact Ef|]. right. right. exists msg.
    split; [exact Eg|exact H].
  - specialize (Hrest fs). destruct (drift_io rest fs) as [[fs2 ev] r].
    destruct ignore eqn:Ei; cbn; [exact Hrest|].
    intros [= <-]. apply Hx. right. exists lr, run. split; [exact Ef|]. right. left.
    exists msg. split; [exact Eg|]. split; reflexivity.
  - cbn. intros [= <-]. apply Hx. right. exists lr, run. split; [exact Ef|]. left.
    exists e0. split; [exact Eg|reflexivity].
Qed.

(** A pass that returns has done what the pass without failing removals
    does. *)
Lemma obsolete_io_returns (libs : list Repo) (fs fs' : Fs) (ev : list event) :
  obsolete_io libs fs = (fs', ev, Returns tt) ->
  update_obsolete cwd_root fromrepo clean force ignore repo libs fs = (fs', ev, Ok tt).
Proof.
  revert fs fs' ev. induction libs as [|x rest IH]; intros fs fs' ev;
    cbn [update_obsolete_io update_obsolete]; [intros [= <- <-]; reflexivity|].
  destruct (negb (isfile fs (lib x)) && isdir fs (path x)); [|apply IH].
  destruct (fromrepo (path x)) as [[lr run]|e0]; cbn; [|discriminate].
  destruct (can_update lr clean force run) as [[[|] msg]|e0]; cbn; [| |discriminate].
  - unfold remove_library, rmtree_readonly, the_scm.
    destruct (rmtree_fails (path x) fs); [discriminate|].
    destruct (scm repo) as [n|]; [|discriminate].
    destruct (scm_unignore n repo (relpath (path repo) (path x)) (rmtree (path x) fs))
      as [fs2|e0] eqn:Eu; [|discriminate].
    apply scm_unignore_returns in Eu. rewrite <- Eu.
    destruct (obsolete_io rest fs2) as [[fs3 ev3] r] eqn:Er. intros [= <- <- ->].
    rewrite (IH _ _ _ Er). reflexivity.
  - destruct ignore; [|discriminate].
    destruct (update_obsolete_io _ _ _ _ _ _ _ rest fs) as [[fs3 ev3] r] eqn:Er.
    intros [= <- <- ->]. rewrite (IH _ _ _ Er). reflexivity.
Qed.

Lemma drift_io_returns (libs : list Repo) (fs fs' : Fs) (ev : list event) :
  drift_io libs fs = (fs', ev, Returns tt) ->
  update_drift cwd_root fromrepo clean force ignore repo libs fs = (fs', ev, Ok tt).
Proof.
  revert fs fs' ev. induction libs as [|x rest IH]; intros fs fs' ev;
    cbn [update_drift_io update_drift]; [intros [= <- <-]; reflexivity|].
  destruct (isdir fs (path x) && isrepo fs (path x)); [|apply IH].
  destruct (fromrepo (path x)) as [[lr run]|e0]; [|discriminate].
  destruct (negb (opt_str_eqb (url x) (url lr))); [|apply IH].
  destruct (can_update lr clean force run) as [[[|] msg]|e0]; [| |discriminate].
  - unfold remove_library, rmtree_readonly, the_scm.
    destruct (rmtree_fails (path x) fs); [discriminate|].
    destruct (scm repo) as [n|]; [|discriminate].
    destruct (scm_unignore n repo (relpath (path repo) (path x)) (rmtree (path x) fs))
      as [fs2|e0] eqn:Eu; [|discriminate].
    apply scm_unignore_returns in Eu. rewrite <- Eu.
    destruct (drift_io rest fs2) as [[fs3 ev3] r] eqn:Er. intros [= <- <- ->].
    rewrite (IH _ _ _ Er). reflexivity.
  - destruct ignore; [|discriminate].
    destruct (update_drift_io _ _ _ _ _ _ _ rest fs) as [[fs3 ev3] r] eqn:Er.
    intros [= <- <- ->]. rewrite (IH _ _ _ Er). reflexivity.
Qed.

(** X21 (update): a clean-up pass of [update] stops only at a library for
    which [Repo.fromrepo] raises, its own exit included, or [can_update]
    raises; which the gate refuses while [ignore] is not set, then with
    exit status 1 and the message of the gate; or which the gate lets go
    and whose removal fails, because [rmtree_readonly] raises, the program
    has no backend to take the library off its ignore list, or [unignore]
    cannot write the ignore file.  With [ignore] set a refusal stops
    nothing: where the gate refuses every library, both passes return and
    leave the file system as it is. *)
Theorem update_pass_stops (libs : list Repo) (fs : Fs) :
  (forall e, snd (obsolete_io libs fs) = Raises e \/ snd (drift_io libs fs) = Raises e ->
             stops_for libs e)
  /\ (ignore = true -> all_refused fromrepo clean force libs ->
      (snd (obsolete_io libs fs) = Returns tt /\ fst (fst (obsolete_io libs fs)) = fs)
      /\ (snd (drift_io libs fs) = Returns tt /\ fst (fst (drift_io libs fs)) = fs)).
Proof.
  split.
  - intros e [H|H]; [exact (obsolete_io_stops libs fs e H)|exact (drift_io_stops libs fs e H)].
  - intros Hi Hall. rewrite Hi. split.
    + apply obsolete_io_refused. exact Hall.
    + apply drift_io_refused. exact Hall.
Qed.

End PassFacts.

Lemma update_pass_stops_witness :
  stop_cause local_checkout (fun _ _ => None) false false false (git_repo_at (L "/w/p"))
    [git_repo_at (L "/w/p/a")]
    (Exc (SystemExit 1 (msg_local_library (local_repo_at (L "/w/p/a")))))
  /\ snd (update_drift_io (L "/w/p") local_checkout (fun _ _ => None) false false true
            (git_repo_at (L "/w/p")) [git_repo_at (L "/w/p/a")] moved_lib_fs) = Returns tt.
Proof.
  split.
  - apply (proj1 (update_pass_stops (L "/w/p") local_checkout (fun _ _ => None) false false false
                    (git_repo_at (L "/w/p")) [git_repo_at (L "/w/p/a")] moved_lib_fs)).
    right. vm_compute. reflexivity.
  - apply (proj2 (update_pass_stops (L "/w/p") local_checkout (fun _ _ => None) false false true
                    (git_repo_at (L "/w/p")) [git_repo_at (L "/w/p/a")] moved_lib_fs)).
    + reflexivity.
    + intros l [<-|[]]. exists (local_repo_at (L "/w/p/a")), (const_runner 0 []).
      eexists. split; [reflexivity|]. vm_compute. reflexivity.
Defined.

(** ** Finding the enclosing repository *)

Lemma lstrip_suffix (p : ascii -> bool) (s : str) : exists x, s = x ++ lstrip p s.
Proof.
  induction s as [|a s [x IH]]; [exists []; reflexivity|]. cbn.
  destruct (p a); [|exists []; reflexivity]. exists (a :: x). cbn. rewrite <- IH. reflexivity.
Qed.

Lemma rstrip_prefix (p : ascii -> bool) (s : str) : exists x, s = rstrip p s ++ x.
Proof.
  unfold rstrip. destruct (lstrip_suffix p (rev s)) as [x Hx]. exists (rev x).
  rewrite <- rev_app_distr, <- Hx, rev_involutive. reflexivity.
Qed.

(** [os.path.split(p)[0]] is a beginning of [p]. *)
Lemma dirname_prefix (p : str) : exists x, p = dirname p ++ x.
Proof.
  unfold dirname. destruct (rstrip_prefix (fun a => negb (chr "/" a)) p) as [x Hx].
  fold (rstrip (fun a => negb (chr "/" a)) p).
  destruct (forallb (chr "/") (rstrip (fun a => negb (chr "/" a)) p)); [exists x; exact Hx|].
  destruct (rstrip_prefix (chr "/") (rstrip (fun a => negb (chr "/" a)) p)) as [y Hy].
  exists (y ++ x). rewrite app_assoc, <- Hy. exact Hx.
Qed.

Lemma lstrip_first (p : ascii -> bool) (s : str) :
  match lstrip p s with a :: _ => p a = false | [] => True end.
Proof.
  induction s as [|a s IH]; [exact I|]. cbn. destruct (p a) eqn:E; [exact IH|exact E].
Qed.

(** It is shorter than [p], unless [p] is empty or made of slashes. *)
Lemma dirname_shorter (p : str) : dirname p = p \/ length (dirname p) < length p.
Proof.
  destruct (dirname_prefix p) as [x Hx]. destruct x as [|a x].
  - left. rewrite app_nil_r in Hx. symmetry. exact Hx.
  - right. rewrite Hx at 2. rewrite length_app. cbn. lia.
Qed.

Lemma up_succ (k : nat) (p : str) : up (S k) p = up k (dirname p).
Proof. unfold up. apply Nat.iter_succ_r. Qed.

Lemma up_fixed (p : str) : dirname p = p -> forall k, up k p = p.
Proof. intros H k. induction k as [|k IH]; [reflexivity|]. rewrite up_succ, H. exact IH. Qed.

Lemma up_prefix (k : nat) : forall p, exists x, p = up k p ++ x.
Proof.
  induction k as [|k IH]; intros p; [exists []; symmetry; apply app_nil_r|].
  rewrite up_succ. destruct (dirname_prefix p) as [x Hx]. destruct (IH (dirname p)) as [y Hy].
  exists (y ++ x). rewrite app_assoc, <- Hy. exact Hx.
Qed.

Lemma findrepo_loop_some (fs : Fs) (fuel : nat) : forall p r,
  findrepo_loop fuel fs p = Some r ->
  exists k, r = up k p /\ isrepo fs r = true /\ forall j, j < k -> isrepo fs (up j p) = false.
Proof.
  induction fuel as [|fuel IH]; intros p r; cbn [findrepo_loop];
    destruct (isrepo fs p) eqn:E.
  - intros [= <-]. exists 0. split; [reflexivity|]. split; [exact E|]. intros j Hj. lia.
  - discriminate.
  - intros [= <-]. exists 0. split; [reflexivity|]. split; [exact E|]. intros j Hj. lia.
  - destruct (str_eqb p (dirname p)); [discriminate|]. intros H.
    destruct (IH _ _ H) as (k & -> & Hr & Hlt). exists (S k).
    split; [symmetry; apply up_succ|]. split; [exact Hr|].
    intros [|j] Hj; [exact E|]. rewrite up_succ. apply Hlt. lia.
Qed.

Lemma findrepo_loop_none (fs : Fs) (fuel : nat) : forall p,
  length p <= fuel -> findrepo_loop fuel fs p = None -> forall k, isrepo fs (up k p) = false.
Proof.
  induction fuel as [|fuel IH]; intros p Hlen; cbn [findrepo_loop];
    destruct (isrepo fs p) eqn:E; try discriminate; intros H k.
  - destruct p; [|cbn in Hlen; lia]. rewrite up_fixed; [exact E|reflexivity].
  - unfold str_eqb in H. destruct (bool_decide_reflect (p = dirname p)) as [Heq|Hne].
    + rewrite up_fixed; [exact E|symmetry; exact Heq].
    + destruct k as [|k]; [exact E|]. rewrite up_succ. apply IH; [|exact H].
      destruct (dirname_shorter p) as [Hd|Hd]; [congruence|lia].
Qed.

(** X22 (Repo.findrepo): the result is the nearest repository among the
    start directory and the directories above it, each of them a beginning
    of the start path; and when the result is [None], none of them is a
    repository, however far up. *)
Theorem findrepo_nearest (fs : Fs) (cwd path0 : str) :
  let p := abspath cwd (por (Some path0) cwd) in
  match findrepo fs cwd path0 with
  | Some r => exists k x, r = up k p /\ p = r ++ x /\ isrepo fs r = true
                          /\ forall j, j < k -> isrepo fs (up j p) = false
  | None => forall k, isrepo fs (up k p) = false
  end.
Proof.
  intros p. unfold findrepo. fold p.
  destruct (findrepo_loop (length p) fs p) as [r|] eqn:E.
  - destruct (findrepo_loop_some fs _ _ _ E) as (k & -> & Hr & Hlt).
    destruct (up_prefix k p) as [x Hx]. exists k, x. auto.
  - apply findrepo_loop_none with (fuel := length p); [lia|exact E].
Qed.

(** ** [publish] over the whole tree *)

Section PublishTree.

Variable cwd_root : str.

Abbreviation publish' := (publish cwd_root).
Abbreviation publish_self' := (publish_self cwd_root).

Lemma publish_commit_shape (repo : Repo) (io : node_io) (e : event) :
  In e (fst (publish_commit cwd_root repo io)) ->
  (exists d, io_dirty io = Ok d /\ d <> []) /\ (e = Committed (path repo) \/ quiet e).
Proof.
  unfold publish_commit. destruct (io_dirty io) as [[|c d]|e0]; cbn; try tauto.
  intros H. split; [exists (c :: d); split; [reflexivity|discriminate]|].
  destruct H as [<-|[<-|[<-|[]]]]; [right|right|left; reflexivity];
    intros p a; (split; [discriminate|split; discriminate]).
Qed.

Lemma publish_push_shape (all : bool) (repo : Repo) (io : node_io) (e : event) :
  In e (fst (publish_push all repo io)) ->
  io_outgoing io = Ok true /\ (e = Pushed (path repo) all \/ quiet e).
Proof.
  unfold publish_push. destruct (io_outgoing io) as [[|]|e0]; cbn.
  - destruct (io_push io all) as [[]|[rc| | |]]; cbn;
      try (destruct (negb (rc =? 1)%Z); cbn);
      (intros [<-|[<-|[]]]; (split; [reflexivity|]); [right|left; reflexivity];
       intros p a; split; [discriminate|split; discriminate]).
  - intros [].
  - destruct e0 as [rc| | |]; cbn; try (destruct (negb (rc =? 1)%Z); cbn); intros [].
Qed.

(** What [publish] does in one repository: the sync, then what the
    commit of a dirty tree and the push of outgoing commits bring. *)
Lemma publish_self_shape (all : bool) (repo : Repo) (io : node_io) (e : event) :
  In e (fst (publish_self' all repo io)) ->
  e = Synced (path repo)
  \/ ((exists d, io_dirty io = Ok d /\ d <> []) /\ (e = Committed (path repo) \/ quiet e))
  \/ (io_outgoing io = Ok true /\ (e = Pushed (path repo) all \/ quiet e)).
Proof.
  unfold publish_self.
  destruct (io_sync io) as [u|e0]; cbn; [|intros [<-|[]]; left; reflexivity].
  pose proof (publish_commit_shape repo io e) as Hc.
  pose proof (publish_push_shape all repo io e) as Hp.
  destruct (publish_commit cwd_root repo io) as [evc [uc|ec]]; cbn in Hc |- *.
  - destruct (publish_push all repo io) as [evp r]; cbn in Hp |- *.
    intros [<-|H]; [left; reflexivity|]. apply in_app_or in H as [H|H]; auto.
  - intros [<-|H]; [left; reflexivity|auto].
Qed.

(** Every event of [publish] other than the opening message and the
    progress marks comes from one repository of the tree that is not
    local. *)
Lemma publish_event_origin (t : tree) : forall all top e,
  In e (fst (publish' all top t)) ->
  e = checking \/ e = Progress
  \/ exists n a, reach t n /\ is_local (tree_repo n) = false
                 /\ In e (fst (publish_self' a (tree_repo n) (tree_io n))).
Proof.
  induction t as [repo io libs IH] using tree_induction. intros all top e.
  assert (Hhead : In e (head_events top) -> e = checking).
  { destruct top; cbn; [intros [<-|[]]; reflexivity|intros []]. }
  destruct (is_local repo) eqn:Hl.
  - cbn. rewrite Hl. cbn. intros H. left. exact (Hhead H).
  - rewrite (publish_unfold cwd_root all top repo io libs Hl).
    assert (Hlibs : In e (fst (publish_libs (publish' false all) libs)) ->
                    e = checking \/ e = Progress
                    \/ exists n a, reach (Tree repo io libs) n /\ is_local (tree_repo n) = false
                                   /\ In e (fst (publish_self' a (tree_repo n) (tree_io n)))).
    { intros H. apply publish_libs_events in H as [->|(l & t & Hin & H)]; [auto|].
      rewrite List.Forall_forall in IH.
      destruct (IH _ Hin false all e H) as [->|[->|(n & a & Hr & Hn & He)]]; auto.
      right. right. exists n, a. split; [exact (reach_lib _ _ _ _ _ _ Hin Hr)|auto]. }
    destruct (publish_libs (publish' false all) libs) as [evl [u|e0]]; cbn in Hlibs |- *.
    + destruct (publish_self' all repo io) as [evs r] eqn:Es. cbn.
      intros H. apply in_app_or in H as [H|H]; [left; exact (Hhead H)|].
      apply in_app_or in H as [H|H]; [exact (Hlibs H)|].
      right. right. exists (Tree repo io libs), all. split; [apply reach_here|].
      split; [exact Hl|]. cbn. rewrite Es. exact H.
    + intros H. apply in_app_or in H as [H|H]; [left; exact (Hhead H)|exact (Hlibs H)].
Qed.


Lemma publish_self_ok (all : bool) (repo : Repo) (io : node_io) (u : unit) :
  snd (publish_self' all repo io) = Ok u ->
  (exists u', io_sync io = Ok u') /\ In (Synced (path repo)) (fst (publish_self' all repo io)).
Proof.
  unfold publish_self. destruct (io_sync io) as [u'|e]; cbn; [|discriminate]. intros H.
  split; [eauto|].
  destruct (publish_commit cwd_root repo io) as [evc [uc|ec]]; cbn.
  - destruct (publish_push all repo io) as [evp r]. left. reflexivity.
  - left. reflexivity.
Qed.


End PublishTree.



(** ** The commands of a backend update *)

Lemma and_then_Forall (P : list str -> Prop) (a b : ran) :
  Forall P (fst a) -> Forall P (fst b) -> Forall P (fst (and_then a b)).
Proof.
  destruct a as [t [u|e]]; cbn; [|auto]. intros Ha Hb. apply Forall_app. auto.
Qed.

Lemma popen_Forall (P : list str -> Prop) (run : runner) (command : list str) :
  P command -> Forall P (fst (popen run command)).
Proof. intros H. repeat constructor. exact H. Qed.

Lemma skip_Forall (P : list str -> Prop) : Forall P (fst skip).
Proof. constructor. Qed.

(** X25 (Hg.update, Git.update): the update of a local repository runs no
    command that asks a remote repository, whatever the revision and the
    flags; for git, without a revision and without [clean] it runs no
    command at all. *)
Theorem update_local_offline (n : scm_name) (verbose : bool) (run : runner) (repo : Repo)
    (hash0 : option str) (clean : bool) :
  is_local repo = true ->
  Forall (fun c => asks_remote c = false) (fst (scm_update n verbose run repo hash0 clean))
  /\ (n = git -> truthy hash0 = false -> clean = false ->
      scm_update n verbose run repo hash0 clean = ([], Ok tt)).
Proof.
  intros Hl. split.
  - destruct n; cbn [scm_update]; unfold Hg_update, Git_update; rewrite Hl; cbn [negb].
    + apply and_then_Forall; [apply skip_Forall|]. apply popen_Forall. reflexivity.
    + apply and_then_Forall.
      * destruct clean; [|apply skip_Forall].
        repeat (apply and_then_Forall || apply popen_Forall); reflexivity.
      * destruct (truthy hash0); [|apply skip_Forall].
        apply and_then_Forall; [apply skip_Forall|]. apply popen_Forall. reflexivity.
  - intros -> Hh ->. cbn [scm_update]. unfold Git_update. rewrite Hl, Hh. reflexivity.
Qed.

Lemma update_local_offline_witness :
  Forall (fun c => asks_remote c = false)
    (fst (scm_update hg false (fun _ => mkProc 0 []) (local_repo_at (L "/w/p/a")) None true))
  /\ scm_update git false (fun _ => mkProc 0 []) (local_repo_at (L "/w/p/a")) None false
     = ([], Ok tt).
Proof.
  split.
  - apply (update_local_offline hg false _ (local_repo_at (L "/w/p/a")) None true). reflexivity.
  - apply (update_local_offline git false _ (local_repo_at (L "/w/p/a")) None false);
      reflexivity.
Defined.

(** ** The written form of a reference *)

Lemma rstrip_all (p : ascii -> bool) (s ws : str) :
  forallb p ws = true -> rstrip p (s ++ ws) = rstrip p s.
Proof.
  intros H. unfold rstrip. rewrite rev_app_distr, lstrip_all; [reflexivity|].
  rewrite forallb_rev. exact H.
Qed.

Lemma rstrip_last (p : ascii -> bool) (s z : str) (a : ascii) :
  rstrip p s = z ++ [a] -> p a = false.
Proof.
  unfold rstrip. intros H. apply (f_equal (@rev ascii)) in H.
  rewrite rev_involutive, rev_app_distr in H. cbn in H.
  pose proof (lstrip_first p (rev s)) as Hf. rewrite H in Hf. exact Hf.
Qed.

Lemma lstrip_split (p : ascii -> bool) (s : str) :
  exists x, s = x ++ lstrip p s /\ forallb p x = true.
Proof.
  induction s as [|a s (x & IH & Hx)]; [exists []; split; reflexivity|]. cbn [lstrip].
  destruct (p a) eqn:E; [|exists []; split; reflexivity].
  exists (a :: x). cbn [app forallb]. rewrite <- IH, E, Hx. split; reflexivity.
Qed.

Lemma rstrip_split (p : ascii -> bool) (s : str) :
  exists x, s = rstrip p s ++ x /\ forallb p x = true.
Proof.
  unfold rstrip. destruct (lstrip_split p (rev s)) as (x & Hx & Hp). exists (rev x). split.
  - rewrite <- rev_app_distr, <- Hx, rev_involutive. reflexivity.
  - rewrite forallb_rev. exact Hp.
Qed.

Lemma all_chr_replicate (a : ascii) (x : str) :
  forallb (chr a) x = true -> x = replicate (length x) a.
Proof.
  induction x as [|b x IH]; [reflexivity|]. cbn [forallb length replicate].
  intros H. apply andb_true_iff in H as [Hb Hx]. unfold chr in Hb.
  apply Ascii.eqb_eq in Hb. subst b. rewrite <- IH by exact Hx. reflexivity.
Qed.

(** X26 (Repo.fullurl): for a repository with a url that is not empty, the
    written form of its reference is the url without the slashes at its
    end, however many there are, then one slash, and [#] with the revision
    when there is a revision that is not empty; slashes added at the end of
    the url do not change it. *)
Theorem fullurl_trailing_slashes (self : Repo) (u : str) (k : nat) :
  url self = Some u -> u <> [] ->
  exists stem j, u = stem ++ replicate j "/"%char
                 /\ endswith (L "/") stem = false
                 /\ fullurl self = Some (stem ++ L "/" ++ hash_part (hash self))
                 /\ fullurl (with_url self (u ++ replicate k "/"%char)) = fullurl self.
Proof.
  intros Hu Hne. destruct (rstrip_split (chr "/") u) as (x & Hx & Hall).
  exists (rstrip (chr "/") u), (length x).
  assert (Hh : (if truthy (hash self) then L "#" ++ por (hash self) [] else [])
               = hash_part (hash self)).
  { destruct (hash self) as [[|a h]|]; reflexivity. }
  assert (Hf : fullurl self = Some (rstrip (chr "/") u ++ L "/" ++ hash_part (hash self))).
  { unfold fullurl. rewrite Hu. destruct u as [|a u]; [congruence|]. cbn [truthy por].
    rewrite Hh. reflexivity. }
  split; [rewrite <- (all_chr_replicate _ _ Hall); exact Hx|].
  split; [|split; [exact Hf|]].
  - unfold endswith. destruct (rev (rstrip (chr "/") u)) as [|a r] eqn:E; [reflexivity|].
    apply (f_equal (@rev ascii)) in E. rewrite rev_involutive in E. cbn [rev] in E.
    pose proof (rstrip_last _ _ _ _ E) as Ha.
    change (startswith (rev (L "/")) (a :: r)) with (Ascii.eqb "/" a && true).
    unfold chr in Ha. rewrite Ha. reflexivity.
  - rewrite Hf. unfold fullurl, with_url. cbn [url hash].
    destruct u as [|a u]; [congruence|]. cbn [app truthy por].
    change (a :: u ++ replicate k "/"%char) with ((a :: u) ++ replicate k "/"%char).
    rewrite rstrip_all, Hh; [reflexivity|].
    clear. induction k as [|k IH]; [reflexivity|]. cbn. exact IH.
Qed.

Lemma fullurl_trailing_slashes_witness :
  let self := {| name := L "mbed-os"; path := L "/w/mbed-os";
                 url := Some (L "https://github.com/ARMmbed/mbed-os/");
                 hash := Some (L "0123456789ab"); is_local := false; scm := Some git |} in
  fullurl self = Some (L "https://github.com/ARMmbed/mbed-os/#0123456789ab")
  /\ fullurl (with_url self (L "https://github.com/ARMmbed/mbed-os/" ++ L "//")) = fullurl self.
Proof.
  intros self.
  destruct (fullurl_trailing_slashes self (L "https://github.com/ARMmbed/mbed-os/") 2)
    as (stem & j & _ & _ & _ & H); [reflexivity|discriminate|].
  split; [reflexivity|exact H].
Defined.

(** ** The clone attempts of [import_] *)

Lemma sorted_scms_head (order : list scm_name) (url0 : str) (n : scm_name) :
  In n order -> isurl (scms n) url0 = true ->
  exists n' rest, sorted_scms order url0 = n' :: rest /\ isurl (scms n') url0 = true.
Proof.
  intros Hin Hn. unfold sorted_scms.
  destruct (List.filter (fun n => isurl (scms n) url0) order) as [|n' l] eqn:E.
  - exfalso. assert (H : In n (List.filter (fun n => isurl (scms n) url0) order)).
    { apply filter_In. auto. }
    rewrite E in H. exact H.
  - exists n', (l ++ List.filter (fun n => negb (isurl (scms n) url0)) order).
    split; [reflexivity|].
    assert (H : In n' (List.filter (fun n => isurl (scms n) url0) order)) by (rewrite E; left; reflexivity).
    apply filter_In in H as [_ H]. exact H.
Qed.

Section ImportFacts.

Variable clone : scm_name -> Fs -> Fs * res unit.
Variable url0 dest : str.

Abbreviation attempts := (import_clone clone url0 dest).

Lemma import_clone_gives_up (candidates : list scm_name) : forall (fs : Fs) (e : exn),
  (forall n fs1 fs2 e', clone n fs1 = (fs2, Exn e') -> exists rc, e' = ProcessException rc) ->
  snd (attempts candidates fs) = Exn e ->
  e = SystemExit 1 (L "Unable to clone repository (" ++ url0 ++ L ")")
  /\ snd (fst (attempts candidates fs)) = candidates
  /\ (candidates <> [] -> isdir (fst (fst (attempts candidates fs))) dest = false).
Proof.
  induction candidates as [|n rest IH]; intros fs e Hpe; cbn [import_clone].
  - intros [= <-]. split; [reflexivity|]. split; [reflexivity|]. congruence.
  - destruct (clone n fs) as [fs1 [u|e1]] eqn:Ec; cbn; [discriminate|].
    destruct (Hpe _ _ _ _ Ec) as [rc ->].
    set (fs2 := if isdir fs1 dest then rmtree dest fs1 else fs1).
    assert (Hgone : isdir fs2 dest = false).
    { unfold fs2. destruct (isdir fs1 dest) eqn:Ed; [|exact Ed].
      rewrite isdir_rmtree. unfold inside, str_eqb.
      rewrite bool_decide_eq_true_2 by reflexivity. apply andb_false_r. }
    specialize (IH fs2 e Hpe).
    destruct (attempts rest fs2) as [[fs3 tried] r] eqn:Er. cbn in *.
    intros Hr. destruct (IH Hr) as (He & Ht & Hd). split; [exact He|].
    split; [rewrite Ht; reflexivity|]. intros _.
    destruct rest as [|m rest']; [|apply Hd; discriminate].
    cbn in Er. injection Er as <- _ _. exact Hgone.
Qed.

(** X27 (import_): a backend that accepts the locator is tried before any
    that does not; and when every clone attempt fails as a process, all
    the backends have been tried in that order, [import_] ends with exit
    status 1, and the destination directory is not left behind. *)
Theorem import_tries_owner_first (order : list scm_name) (fs : Fs) :
  (forall n, In n order -> isurl (scms n) url0 = true ->
     exists n' rest, sorted_scms order url0 = n' :: rest /\ isurl (scms n') url0 = true)
  /\ (forall e,
        (forall n fs1 fs2 e', clone n fs1 = (fs2, Exn e') -> exists rc, e' = ProcessException rc) ->
        snd (attempts (sorted_scms order url0) fs) = Exn e ->
        e = SystemExit 1 (L "Unable to clone repository (" ++ url0 ++ L ")")
        /\ snd (fst (attempts (sorted_scms order url0) fs)) = sorted_scms order url0
        /\ (order <> [] ->
            isdir (fst (fst (attempts (sorted_scms order url0) fs))) dest = false)).
Proof.
  split; [intros n; apply sorted_scms_head|]. intros e Hpe He.
  destruct (import_clone_gives_up _ fs e Hpe He) as (H1 & H2 & H3).
  split; [exact H1|]. split; [exact H2|]. intros Hne. apply H3.
  unfold sorted_scms. destruct order as [|n order']; [congruence|]. cbn [List.filter].
  destruct (isurl (scms n) url0); cbn; [discriminate|].
  intros H. apply app_eq_nil in H as [_ H]. discriminate.
Qed.

End ImportFacts.

Lemma import_tries_owner_first_witness :
  let url0 := L "https://github.com/ARMmbed/mbed-os" in
  let fs := {| files := ∅; dirs := {[ L "/w" ]} |} in
  let out := import_clone (failing_clone (L "/w/mbed-os")) url0 (L "/w/mbed-os")
               (sorted_scms [hg; git] url0) fs in
  (exists n' rest, sorted_scms [hg; git] url0 = n' :: rest /\ isurl (scms n') url0 = true)
  /\ snd out = Exn (SystemExit 1 (L "Unable to clone repository (" ++ url0 ++ L ")"))
  /\ isdir (fst (fst out)) (L "/w/mbed-os") = false.
Proof.
  intros url0 fs out.
  destruct (import_tries_owner_first (failing_clone (L "/w/mbed-os")) url0 (L "/w/mbed-os")
              [hg; git] fs) as [H1 H2].
  split.
  - apply (H1 git); [right; left; reflexivity|vm_compute; reflexivity].
  - destruct (H2 (SystemExit 1 (L "Unable to clone repository (" ++ url0 ++ L ")")))
      as (He & _ & Hd).
    + intros n fs1 fs2 e' [= _ <-]. eauto.
    + vm_compute. reflexivity.
    + split; [vm_compute; reflexivity|]. apply Hd. discriminate.
Defined.

(** ** The command [ls] *)

Lemma next_prefix_ok (prefix : str) (is_last : bool) :
  prefix_ok prefix ->
  exists np, next_prefix prefix is_last = Returns np /\ length np = length prefix + 3.
Proof.
  intros [->|Hlen]; [eexists; split; [reflexivity|destruct is_last; reflexivity]|].
  unfold next_prefix. destruct prefix as [|a prefix]; [cbn in Hlen; lia|].
  destruct (Nat.ltb_spec (length (a :: prefix)) 3) as [H|_]; [lia|].
  eexists. split; [reflexivity|]. rewrite !length_app, length_take.
  assert (H1 : length (if bool_decide ((a :: prefix) !! (length (a :: prefix) - 3) = Some "|"%char)
                       then L "|  " else L "   ") = 3) by (destruct (bool_decide _); reflexivity).
  assert (H2 : length (if is_last then L "`- " else L "|- ") = 3) by (destruct is_last; reflexivity).
  rewrite H1, H2. lia.
Qed.

Lemma insert_prepared (rec : tree -> lister) (l : Repo) (d : on_disk tree)
    (libs : list (Repo * on_disk tree)) :
  exists libs', Permutation ((l, d) :: libs) libs'
    /\ insert_by_path (l, match d with
                          | Repository t => Repository (rec t)
                          | Absent => Absent
                          | Plain => Plain
                          end) (list_prepare rec libs)
       = list_prepare rec libs'.
Proof.
  induction libs as [|[l1 d1] libs IH].
  - exists [(l, d)]. split; reflexivity.
  - cbn [list_prepare insert_by_path fst].
    destruct (str_leb (path l) (path l1)).
    + exists ((l, d) :: (l1, d1) :: libs). split; reflexivity.
    + destruct IH as (libs' & Hp & ->). exists ((l1, d1) :: libs'). split; [|reflexivity].
      rewrite <- Hp. apply Permutation_swap.
Qed.

(** Sorting the prepared calls is preparing the calls of the sorted
    libraries. *)
Lemma sorted_prepared (rec : tree -> lister) (libs : list (Repo * on_disk tree)) :
  exists libs', Permutation libs libs'
    /\ sorted_by_path (list_prepare rec libs) = list_prepare rec libs'.
Proof.
  induction libs as [|[l d] libs (libs1 & Hp & IH)]; [exists []; split; reflexivity|].
  cbn [list_prepare sorted_by_path foldr]. fold (sorted_by_path (list_prepare rec libs)).
  rewrite IH. destruct (insert_prepared rec l d libs1) as (libs' & Hp' & ->).
  exists libs'. split; [|reflexivity]. rewrite Hp. exact Hp'.
Qed.

Lemma count_libs_perm (rec : tree -> nat) (l1 l2 : list (Repo * on_disk tree)) :
  Permutation l1 l2 -> count_libs rec l1 = count_libs rec l2.
Proof.
  induction 1 as [|[l d] l1 l2 _ IH|[l d] [l' d'] l0|l1 l2 l3 _ IH1 _ IH2].
  - reflexivity.
  - cbn. destruct d; rewrite IH; reflexivity.
  - cbn. destruct d, d'; lia.
  - congruence.
Qed.

Lemma count_printed_app (a b : list out_item) :
  count_printed (a ++ b) = count_printed a + count_printed b.
Proof. unfold count_printed. rewrite List.filter_app, length_app. reflexivity. Qed.

Lemma count_printed_logged (ev : list event) : count_printed (map Logged ev) = 0.
Proof. induction ev as [|e ev IH]; [reflexivity|exact IH]. Qed.

Section ListFacts.

Variable load : str -> option exn.
Variables (all ignore : bool).

Lemma list_stop_lib (repo : Repo) (io : node_io) (libs : list (Repo * on_disk tree))
    (l : Repo) (t : tree) (e : pyexn) :
  In (l, Repository t) libs -> list_stop load ignore t e ->
  list_stop load ignore (Tree repo io libs) e.
Proof.
  intros Hin [(n & e0 & Hr & Hl & He)|(Hi & n & l0 & Hr & Hb)].
  - left. exists n, e0. split; [exact (reach_lib repo io libs l t n Hin Hr)|auto].
  - right. split; [exact Hi|]. exists n, l0.
    split; [exact (reach_lib repo io libs l t n Hin Hr)|exact Hb].
Qed.

Lemma list_libs_ok (repo : Repo) (io : node_io) (libs0 : list (Repo * on_disk tree))
    (prefix parent : str) (n : nat) (libs : list (Repo * on_disk tree)) :
  prefix_ok prefix -> Forall (sub_ok (list_ok load all ignore)) libs ->
  (forall x, In x libs -> In x libs0) ->
  forall i,
    (forall e, snd (list_libs ignore prefix parent n i (list_prepare (list_ load all ignore) libs))
               = Raises e -> list_stop load ignore (Tree repo io libs0) e)
    /\ (snd (list_libs ignore prefix parent n i (list_prepare (list_ load all ignore) libs))
        = Returns tt ->
        count_printed (fst (list_libs ignore prefix parent n i
                              (list_prepare (list_ load all ignore) libs)))
        = count_libs repositories libs).
Proof.
  intros Hp Hsub. induction Hsub as [|[l d] rest Hd _ IH]; intros Hin i.
  - cbn. split; [discriminate|reflexivity].
  - cbn [list_prepare list_libs].
    destruct (next_prefix_ok prefix (negb (i <? n - 1)%nat) Hp) as (np & -> & Hnp).
    assert (Hnp_ok : prefix_ok np) by (right; lia).
    assert (Hin' : forall x, In x rest -> In x libs0) by (intros x Hx; apply Hin; right; exact Hx).
    specialize (IH Hin' (S i)).
    destruct (list_libs ignore prefix parent n (S i) (list_prepare (list_ load all ignore) rest))
      as [out' r'] eqn:Er. cbn [fst snd] in IH. destruct IH as (IH1 & IH2).
    assert (Hhere : In (l, d) libs0) by (apply Hin; left; reflexivity).
    destruct d as [| |t]; unfold check_repo; cbn [count_libs].
    + destruct ignore eqn:Ei; cbn.
      * split; [exact IH1|]. intros Hr. rewrite <- (IH2 Hr). reflexivity.
      * split; [|discriminate]. intros e [= <-]. right. split; [reflexivity|].
        exists (Tree repo io libs0), l. split; [apply reach_here|]. left. split; [exact Hhere|].
        reflexivity.
    + destruct ignore eqn:Ei; cbn.
      * split; [exact IH1|]. intros Hr. rewrite <- (IH2 Hr). reflexivity.
      * split; [|discriminate]. intros e [= <-]. right. split; [reflexivity|].
        exists (Tree repo io libs0), l. split; [apply reach_here|]. right. split; [exact Hhere|].
        reflexivity.
    + cbn. unfold sub_ok in Hd. cbn in Hd.
      destruct (Hd np (Some parent) Hnp_ok) as (H1 & H2).
      destruct (list_ load all ignore t np (Some parent)) as [out [[]|e0]] eqn:Et;
        cbn [fst snd] in *.
      * split; [exact IH1|]. intros Hr.
        rewrite count_printed_app, (H2 eq_refl), (IH2 Hr). reflexivity.
      * split; [|discriminate]. intros e [= <-].
        apply (list_stop_lib repo io libs0 l t e0 Hhere). apply H1. reflexivity.
Qed.

Lemma list_ok_all (t : tree) : list_ok load all ignore t.
Proof.
  induction t as [repo io libs IH] using tree_induction.
  intros prefix p_path Hp. cbn [list_ repositories].
  destruct (load (path repo)) as [e0|] eqn:El.
  { cbn [fst snd]. split; [|discriminate]. intros e [= <-]. left.
    exists (Tree repo io libs), e0. split; [apply reach_here|]. split; [exact El|reflexivity]. }
  destruct (sorted_prepared (list_ load all ignore) libs) as (libs' & Hperm & ->).
  rewrite (count_libs_perm repositories libs libs' Hperm).
  assert (Hsub : Forall (sub_ok (list_ok load all ignore)) libs') by (rewrite <- Hperm; exact IH).
  assert (Hin : forall x, In x libs' -> In x libs).
  { intros x Hx. apply (Permutation_in x (Permutation_sym Hperm)). exact Hx. }
  pose proof (list_libs_ok repo io libs prefix (path repo) (length libs) libs' Hp Hsub Hin 0) as H.
  destruct (list_libs ignore prefix (path repo) (length libs) 0
              (list_prepare (list_ load all ignore) libs')) as [out r].
  cbn [fst snd] in *. destruct H as (H1 & H2).
  split; [exact H1|]. intros Hr.
  unfold count_printed in *. cbn. rewrite (H2 Hr). reflexivity.
Qed.

(** X28 (list_): called with an empty prefix, as the command line does,
    [ls] stops only where [Repo.fromrepo()] stops in a repository of the
    tree, with what stopped it, or, when [ignore] is not set, at a library
    reference that points to no directory or to no repository, with exit
    status 1 and the message of [check_repo]; so it never reads before the
    start of a prefix, and with [ignore] set it returns whenever
    [Repo.fromrepo()] stops in no repository of the tree; and when it
    returns it has printed one line for each repository of the tree. *)
Theorem list_prints_every_repository (t : tree) (p_path : option str) :
  (forall e, snd (list_ load all ignore t [] p_path) = Raises e -> list_stop load ignore t e)
  /\ snd (list_ load all ignore t [] p_path) <> Raises IndexError
  /\ (ignore = true -> (forall n, reach t n -> load (path (tree_repo n)) = None) ->
      snd (list_ load all ignore t [] p_path) = Returns tt)
  /\ (snd (list_ load all ignore t [] p_path) = Returns tt ->
      count_printed (fst (list_ load all ignore t [] p_path)) = repositories t).
Proof.
  destruct (list_ok_all t [] p_path (or_introl eq_refl)) as (H1 & H2).
  split; [exact H1|]. split; [|split; [|exact H2]].
  - intros Hr. destruct (H1 _ Hr) as [(n & e0 & _ & _ & He)|(_ & n & l & _ & [[_ He]|[_ He]])];
      discriminate He.
  - intros Hi Hload.
    destruct (snd (list_ load all ignore t [] p_path)) as [[]|e] eqn:Er; [reflexivity|].
    exfalso. destruct (H1 e eq_refl) as [(n & e0 & Hn & Hl & _)|(Hf & _)].
    + rewrite (Hload n Hn) in Hl. discriminate Hl.
    + rewrite Hi in Hf. discriminate Hf.
Qed.

End ListFacts.

Lemma list_prints_every_repository_witness :
  count_printed (fst (list_ (fun _ => None) false false busy_lib_tree [] None)) = 2
  /\ list_stop bad_reference_load true busy_lib_tree
       (Exc (SystemExit (-1) (L "Invalid repository (x)"))).
Proof.
  split.
  - refine (eq_trans (proj2 (proj2 (proj2 (list_prints_every_repository (fun _ => None)
                        false false busy_lib_tree None))) _) _).
    + vm_compute. reflexivity.
    + reflexivity.
  - apply (proj1 (list_prints_every_repository bad_reference_load false true busy_lib_tree None)).
    vm_compute. reflexivity.
Defined.

(** ** The root of the program *)

Lemma up_nil (k : nat) : up k [] = [].
Proof. apply up_fixed. reflexivity. Qed.

(** The nearest directory with a config file ends the search. *)
Lemma get_program_loop_config (fs : Fs) (fuel : nat) : forall p found k,
  length p <= fuel ->
  has_config fs (up k p) = true -> (forall j, j < k -> has_config fs (up j p) = false) ->
  get_program_loop fuel fs p found = (up k p, false, Some (isrepo fs (up k p))).
Proof.
  induction fuel as [|fuel IH]; intros p found k Hlen Hk Hlt.
  - destruct p; [|cbn in Hlen; lia]. rewrite up_nil in *. cbn [get_program_loop].
    rewrite Hk. reflexivity.
  - destruct k as [|k].
    + cbn [get_program_loop]. change (up 0 p) with p in *. rewrite Hk. reflexivity.
    + cbn [get_program_loop]. pose proof (Hlt 0 ltac:(lia)) as H0. change (up 0 p) with p in H0.
      rewrite H0. unfold str_eqb. destruct (bool_decide_reflect (p = dirname p)) as [Heq|Hne].
      * rewrite (up_fixed p (eq_sym Heq)) in Hk. congruence.
      * rewrite up_succ in *. apply IH.
        -- destruct (dirname_shorter p) as [Hd|Hd]; [congruence|lia].
        -- exact Hk.
        -- intros j Hj. rewrite <- up_succ. apply Hlt. lia.
Qed.

(** Without a config file anywhere, the search keeps the last repository
    it passes, which is the topmost one. *)
Lemma get_program_loop_topmost (fs : Fs) (fuel : nat) : forall p found,
  length p <= fuel ->
  (forall k, has_config fs (up k p) = false) ->
  (get_program_loop fuel fs p found = found /\ forall k, isrepo fs (up k p) = false)
  \/ exists k, get_program_loop fuel fs p found = (up k p, false, Some true)
               /\ isrepo fs (up k p) = true
               /\ forall j, k < j -> isrepo fs (up j p) = true -> up j p = up k p.
Proof.
  induction fuel as [|fuel IH]; intros p found Hlen Hno.
  - destruct p; [|cbn in Hlen; lia]. cbn [get_program_loop].
    pose proof (Hno 0) as H0. change (up 0 []) with (@nil ascii) in H0. rewrite H0.
    destruct (isrepo fs []) eqn:Er.
    + right. exists 0. split; [reflexivity|]. split; [exact Er|].
      intros j _ _. rewrite !up_nil. reflexivity.
    + left. split; [reflexivity|]. intros k. rewrite up_nil. exact Er.
  - cbn [get_program_loop]. pose proof (Hno 0) as H0. change (up 0 p) with p in H0.
    rewrite H0. unfold str_eqb. destruct (bool_decide_reflect (p = dirname p)) as [Heq|Hne].
    + destruct (isrepo fs p) eqn:Er.
      * right. exists 0. split; [reflexivity|]. split; [exact Er|].
        intros j _ _. rewrite !(up_fixed p (eq_sym Heq)). reflexivity.
      * left. split; [reflexivity|]. intros k. rewrite (up_fixed p (eq_sym Heq)). exact Er.
    + assert (Hlen' : length (dirname p) <= fuel).
      { destruct (dirname_shorter p) as [Hd|Hd]; [congruence|lia]. }
      assert (Hno' : forall k, has_config fs (up k (dirname p)) = false).
      { intros k. rewrite <- up_succ. apply Hno. }
      destruct (IH (dirname p) (if isrepo fs p then (p, false, Some true) else found)
                   Hlen' Hno') as [[Hr Hnone]|(k & Hr & Hk & Htop)].
      * rewrite Hr. destruct (isrepo fs p) eqn:Er.
        -- right. exists 0. split; [reflexivity|]. split; [exact Er|].
           intros [|j] Hj Hj'; [lia|]. rewrite up_succ, Hnone in Hj'. discriminate.
        -- left. split; [reflexivity|]. intros [|k]; [exact Er|]. rewrite up_succ. apply Hnone.
      * right. exists (S k). rewrite up_succ. split; [exact Hr|]. split; [exact Hk|].
        intros [|j] Hj Hj'; [lia|]. rewrite up_succ in *. apply Htop; [lia|exact Hj'].
Qed.

(** X29 (Program.get_program): the program root is the nearest directory,
    from the start directory upwards, that holds a config file; without
    any config file it is the topmost directory that is a repository, not
    the nearest one; and without any repository either it is the working
    directory, with [is_cwd] set. *)
Theorem get_program_root (fs : Fs) (cwd path0 : str) (warnings : bool) :
  let p := abspath cwd (por (Some path0) cwd) in
  let program := snd (get_program fs cwd path0 warnings) in
  (forall k, has_config fs (up k p) = true ->
             (forall j, j < k -> has_config fs (up j p) = false) ->
             prog_path program = up k p /\ is_cwd program = false
             /\ is_repo program = Some (isrepo fs (up k p)))
  /\ ((forall k, has_config fs (up k p) = false) ->
      (prog_path program = cwd /\ is_cwd program = true
       /\ forall k, isrepo fs (up k p) = false)
      \/ exists k, prog_path program = up k p /\ is_cwd program = false
                   /\ isrepo fs (up k p) = true
                   /\ forall j, k < j -> isrepo fs (up j p) = true -> up j p = up k p).
Proof.
  intros p program. unfold program, get_program. fold p. split.
  - intros k Hk Hlt.
    rewrite (get_program_loop_config fs (length p) p _ k (Nat.le_refl _) Hk Hlt). cbn. auto.
  - intros Hno.
    destruct (get_program_loop_topmost fs (length p) p (cwd, true, None) (Nat.le_refl _) Hno)
      as [[-> Hnone]|(k & -> & Hk & Htop)]; cbn.
    + left. auto.
    + right. exists k. auto.
Qed.

Lemma get_program_root_witness :
  let fs := {| files := {[ L "/w/p/.mbed" := L "TARGET=K64F" ++ [nl] ]};
               dirs := {[ L "/w"; L "/w/p"; L "/w/p/lib"; L "/w/p/lib/.git"; L "/w/p/.git" ]} |} in
  let program := snd (get_program fs (L "/w/p/lib") [] false) in
  prog_path program = L "/w/p" /\ is_cwd program = false /\ is_repo program = Some true.
Proof.
  intros fs program.
  apply (proj1 (get_program_root fs (L "/w/p/lib") [] false) 1).
  - vm_compute. reflexivity.
  - intros [|j] Hj; [vm_compute; reflexivity|lia].
Defined.
